(** * Gitpod task terminals: a model of [gitpod-task-contribution.ts]

    The contribution keeps one terminal widget per Gitpod task.  This file
    embeds the TypeScript source as executable Rocq definitions and proves
    the properties of its four parts: the terminal identifier helpers, the
    per-widget guard installed by the [onWillCreateWidget] handler, the
    initial layout routine and the promise chain serialising the updates. *)

From Stdlib Require Import ZArith Ascii String Bool Lia.
From stdpp Require Import base option list strings gmap.

Local Open Scope string_scope.

(** ** Terminal identifiers ([namespace GitpodTaskTerminalWidget]) *)

Module Ident.

(** [String.prototype.split] for a one-character separator: the pieces
    between the occurrences of [sep]; a string without [sep] is one piece. *)
Fixpoint split (sep : ascii) (s : string) : list string :=
  match s with
  | EmptyString => [EmptyString]
  | String c r =>
      if Ascii.eqb c sep then EmptyString :: split sep r
      else match split sep r with
           | piece :: pieces => String c piece :: pieces
           | [] => [String c EmptyString]
           end
  end.

(** How often [sep] occurs in [s]. *)
Fixpoint occurrences (sep : ascii) (s : string) : nat :=
  match s with
  | EmptyString => 0
  | String c r => (if Ascii.eqb c sep then 1 else 0) + occurrences sep r
  end.

Definition separator : ascii := ":"%char.

Definition idPrefix : string := "gitpod-task-terminal".

(** [toTerminalId(id) = idPrefix + ':' + id] *)
Definition toTerminalId (id : string) : string :=
  idPrefix ++ String separator id.

(** [getTaskId(terminal) = terminal.id.split(':')[1]], on the widget id;
    [None] is JavaScript's [undefined] for a missing array element. *)
Definition getTaskId (terminalWidgetId : string) : option string :=
  split separator terminalWidgetId !! 1%nat.

End Ident.

(** ** Data model ([gitpod-task-protocol] and the Theia terminal widget) *)

Module Data.

(** The task states; the source tests for [RUNNING] and [CLOSED] only. *)
Inductive GitpodTaskState := OPENING | RUNNING | CLOSED.

#[global] Instance GitpodTaskState_eq_dec : EqDecision GitpodTaskState.
Proof. solve_decision. Defined.

Record TaskPresentation := {
  name : string;
  openIn : option string;
  openMode : option string
}.

Record GitpodTask := {
  task_id : string;
  task_state : GitpodTaskState;
  task_terminal : option string;
  task_presentation : option TaskPresentation
}.

(** JavaScript truthiness of an optional string: [undefined] and the empty
    string are falsy. *)
Definition truthy (s : option string) : bool :=
  match s with
  | Some s => negb (String.eqb s "")
  | None => false
  end.

(** [s || d] on an optional string. *)
Definition orDefault (s : option string) (d : string) : string :=
  match s with
  | Some s' => if truthy s then s' else d
  | None => d
  end.

(** Widgets and promises are objects: they are identified by their address
    in the store, not by their contents. *)
Abbreviation wid := nat (only parsing).
Abbreviation pid := nat (only parsing).

(** The variables the [onWillCreateWidget] handler closes over, one set per
    task terminal widget. *)
Record Guard := {
  starting : bool;
  attachingToTask : bool;
  task : option GitpodTask
}.

(** A terminal widget: [gitpodKind] is [Some k] for a [GitpodTerminalWidget]
    of kind [k]; [guard] holds the closure variables once the handler has
    wrapped the widget. *)
Record Widget := {
  widget_id : string;
  gitpodKind : option string;
  terminalId : Z;
  isDisposed : bool;
  guard : option Guard
}.

(** The options object given to [newTerminal]. *)
Record TerminalWidgetOptions := {
  opt_id : option string;
  opt_kind : option string;
  opt_title : option string;
  opt_useServerTitle : option bool
}.

Definition noOptions : TerminalWidgetOptions :=
  {| opt_id := None; opt_kind := None; opt_title := None;
     opt_useServerTitle := None |}.

(** Values that promises of this program carry. *)
Inductive value :=
  | VUndefined
  | VBool (b : bool)
  | VNum (n : Z)
  | VTasks (tasks : list GitpodTask)
  | VWidget (w : wid)
  | VPromise (p : pid).

(** A thrown value: the message of the error. *)
Definition error := string.

Inductive outcome :=
  | Fulfilled (v : value)
  | Rejected (e : error).

(** How a synchronous piece of code completes. *)
Inductive completion (A : Type) :=
  | Normal (a : A)
  | Throw (e : error).
Arguments Normal {A} a.
Arguments Throw {A} e.

(** The functions that are scheduled as promise reactions, one constructor
    per closure of the source; [Opaque n] is a caller-supplied function
    given to [queue], of which only the completion is known. *)
Inductive callback :=
  | UpdateTerminals (updated : list GitpodTask)
  | Opaque (n : nat)
  | AttachDone (w : wid)
  | AttachFailed (w : wid)
  | AttachTerminalDone (w : wid)
  | ResumeLayoutTasks
  | ResumeLayoutNew (t : GitpodTask) (rest : list GitpodTask) (ref : option wid)
  | ResumeLayoutDefault.

Record Reaction := {
  onFulfilled : option callback;
  onRejected : option callback;
  derived : option pid
}.

(** A promise: pending while [settled] is [None]; [external] promises are
    settled by the environment (the task server, the terminal widget, the
    shell), the others by this program. *)
Record Promise := {
  settled : option outcome;
  reactions : list Reaction;
  external : bool
}.

(** A promise reaction job of the microtask queue. *)
Record Job := {
  job_callback : option callback;
  job_argument : outcome;
  job_derived : option pid
}.

(** Calls into the collaborators, in the order they are issued. *)
Inductive call :=
  | Dispose (w : wid)
  | Start (w : wid) (id : option Z)
  | ServerAttach (terminalId : Z) (remoteTerminal : string)
  | AttachTerminal (w : wid) (id : Z)
  | CreateTerminal (w : wid)
  | NewTerminal (options : TerminalWidgetOptions)
  | ActivateTerminal (w : wid) (ref : option wid) (area mode : string)
  | Open (w : wid)
  | FetchClose (remoteTerminal : string)
  | ConsoleError (message : string) (e : error).

(** The observable history: the calls, and marks for the scheduling of the
    update queue (history variables, read by no code). *)
Inductive event :=
  | Call (c : call)
  | Enqueued (on d : pid)
  | Run (d : pid)
  | Ran (d : pid) (threw : bool)
  | LayoutResolved.

Record State := {
  widgets : list Widget;
  taskTerminals : gmap string wid;
  heap : list Promise;
  microtasks : list Job;
  updateQueue : pid;
  layoutCalled : bool;
  layoutResult : option outcome;
  trace : list event
}.

#[global] Instance TerminalWidgetOptions_eq_dec : EqDecision TerminalWidgetOptions.
Proof. solve_decision. Defined.

#[global] Instance call_eq_dec : EqDecision call.
Proof. solve_decision. Defined.

#[global] Instance event_eq_dec : EqDecision event.
Proof. solve_decision. Defined.

End Data.

(** ** Promises and the microtask queue *)

Module Js.
Import Data.

Definition set_widgets (x : list Widget) (st : State) : State :=
  {| widgets := x; taskTerminals := taskTerminals st; heap := heap st;
     microtasks := microtasks st; updateQueue := updateQueue st;
     layoutCalled := layoutCalled st; layoutResult := layoutResult st;
     trace := trace st |}.

Definition set_taskTerminals (x : gmap string wid) (st : State) : State :=
  {| widgets := widgets st; taskTerminals := x; heap := heap st;
     microtasks := microtasks st; updateQueue := updateQueue st;
     layoutCalled := layoutCalled st; layoutResult := layoutResult st;
     trace := trace st |}.

Definition set_heap (x : list Promise) (st : State) : State :=
  {| widgets := widgets st; taskTerminals := taskTerminals st; heap := x;
     microtasks := microtasks st; updateQueue := updateQueue st;
     layoutCalled := layoutCalled st; layoutResult := layoutResult st;
     trace := trace st |}.

Definition set_microtasks (x : list Job) (st : State) : State :=
  {| widgets := widgets st; taskTerminals := taskTerminals st; heap := heap st;
     microtasks := x; updateQueue := updateQueue st;
     layoutCalled := layoutCalled st; layoutResult := layoutResult st;
     trace := trace st |}.

Definition set_updateQueue (x : pid) (st : State) : State :=
  {| widgets := widgets st; taskTerminals := taskTerminals st; heap := heap st;
     microtasks := microtasks st; updateQueue := x;
     layoutCalled := layoutCalled st; layoutResult := layoutResult st;
     trace := trace st |}.

Definition set_layoutCalled (x : bool) (st : State) : State :=
  {| widgets := widgets st; taskTerminals := taskTerminals st; heap := heap st;
     microtasks := microtasks st; updateQueue := updateQueue st;
     layoutCalled := x; layoutResult := layoutResult st;
     trace := trace st |}.

Definition set_layoutResult (x : option outcome) (st : State) : State :=
  {| widgets := widgets st; taskTerminals := taskTerminals st; heap := heap st;
     microtasks := microtasks st; updateQueue := updateQueue st;
     layoutCalled := layoutCalled st; layoutResult := x;
     trace := trace st |}.

Definition set_trace (x : list event) (st : State) : State :=
  {| widgets := widgets st; taskTerminals := taskTerminals st; heap := heap st;
     microtasks := microtasks st; updateQueue := updateQueue st;
     layoutCalled := layoutCalled st; layoutResult := layoutResult st;
     trace := x |}.

(** Append to the history. *)
Definition log (e : event) (st : State) : State :=
  set_trace (trace st ++ [e]) st.

(** Synchronous code: it changes the state and returns or throws. *)
Definition M (A : Type) : Type := State -> State * completion A.

Definition ret {A} (a : A) : M A := fun st => (st, Normal a).

Definition throw {A} (e : error) : M A := fun st => (st, Throw e).

Definition bind {A B} (m : M A) (k : A -> M B) : M B :=
  fun st =>
    match m st with
    | (st', Normal a) => k a st'
    | (st', Throw e) => (st', Throw e)
    end.

(** [try { m } catch (e) { h e }] *)
Definition tryCatch (m : M unit) (h : error -> State -> State) : State -> State :=
  fun st =>
    match m st with
    | (st', Normal _) => st'
    | (st', Throw e) => h e st'
    end.

(** [new Promise] / [new Deferred]: a pending promise at a fresh address. *)
Definition newPromise (ext : bool) (st : State) : State * pid :=
  (set_heap (heap st ++ [{| settled := None; reactions := []; external := ext |}]) st,
   length (heap st)).

(** The job a reaction gives rise to once its promise has settled with [o]. *)
Definition jobFor (o : outcome) (r : Reaction) : Job :=
  {| job_callback := match o with
                     | Fulfilled _ => onFulfilled r
                     | Rejected _ => onRejected r
                     end;
     job_argument := o;
     job_derived := derived r |}.

(** Register a reaction: kept on a pending promise, scheduled as a microtask
    at once on a settled one. *)
Definition addReaction (p : pid) (r : Reaction) (st : State) : State :=
  match heap st !! p with
  | Some pr =>
      match settled pr with
      | None =>
          set_heap (<[p := {| settled := None; reactions := reactions pr ++ [r];
                              external := external pr |}]> (heap st)) st
      | Some o => set_microtasks (microtasks st ++ [jobFor o r]) st
      end
  | None => st
  end.

(** [p.then(onF, onR)]: the derived promise is returned. *)
Definition then_ (p : pid) (onF onR : option callback) (st : State) : State * pid :=
  let '(st1, d) := newPromise false st in
  (addReaction p {| onFulfilled := onF; onRejected := onR; derived := Some d |} st1, d).

(** [await p] in an async function whose remainder is [k]: [k] is resumed
    with the outcome of [p], in a microtask. *)
Definition await (p : pid) (k : callback) (st : State) : State :=
  addReaction p {| onFulfilled := Some k; onRejected := Some k; derived := None |} st.

(** Settle a pending promise and schedule its reactions in registration
    order; settling a settled promise does nothing. *)
Definition settle (p : pid) (o : outcome) (st : State) : State :=
  match heap st !! p with
  | Some pr =>
      match settled pr with
      | None =>
          set_microtasks (microtasks st ++ map (jobFor o) (reactions pr))
            (set_heap (<[p := {| settled := Some o; reactions := [];
                                 external := external pr |}]> (heap st)) st)
      | Some _ => st
      end
  | None => st
  end.

(** Resolve [p] with the value a handler returned: a returned promise is
    adopted, [p] settles as it does (the extra microtask that JavaScript
    spends on adopting is not counted). *)
Definition resolve (p : pid) (v : value) (st : State) : State :=
  match v with
  | VPromise q =>
      addReaction q {| onFulfilled := None; onRejected := None; derived := Some p |} st
  | _ => settle p (Fulfilled v) st
  end.

End Js.

(** ** The contribution ([class GitpodTaskContribution]) *)

Module Contribution.
Import Data Js.

(** What the source takes from its collaborators without defining it:
    [IBaseTerminalServer.validateId], whether a call of
    [activateTerminal] throws, and how a caller-supplied function given to
    [queue] completes. *)
Class Environment := {
  validateId : Z -> bool;
  activateTerminalThrows : wid -> option wid -> string -> string -> option error;
  opaqueThrows : nat -> option error
}.

Section WithEnvironment.
Context `{Environment}.

(** The two [Deferred]s of the class are the first two promises. *)
Definition pendingInitialTasks : pid := 0.
Definition pendingInitializeLayout : pid := 1.

Definition pendingPromise (ext : bool) : Promise :=
  {| settled := None; reactions := []; external := ext |}.

(** The object after construction:
    [updateQueue = this.pendingInitializeLayout.promise]. *)
Definition initial : State :=
  {| widgets := [];
     taskTerminals := ∅;
     heap := [pendingPromise false; pendingPromise false];
     microtasks := [];
     updateQueue := pendingInitializeLayout;
     layoutCalled := false;
     layoutResult := None;
     trace := [] |}.

(** [GitpodTaskTerminalWidget.is] *)
Definition is_ (terminal : Widget) : bool :=
  bool_decide (gitpodKind terminal = Some "gitpod-task").

Definition withGuard (g : option Guard) (wd : Widget) : Widget :=
  {| widget_id := widget_id wd; gitpodKind := gitpodKind wd;
     terminalId := terminalId wd; isDisposed := isDisposed wd; guard := g |}.

Definition withTerminalId (tid : Z) (wd : Widget) : Widget :=
  {| widget_id := widget_id wd; gitpodKind := gitpodKind wd;
     terminalId := tid; isDisposed := isDisposed wd; guard := guard wd |}.

Definition withDisposed (wd : Widget) : Widget :=
  {| widget_id := widget_id wd; gitpodKind := gitpodKind wd;
     terminalId := terminalId wd; isDisposed := true; guard := guard wd |}.

Definition getGuard (w : wid) (st : State) : option Guard :=
  widgets st !! w ≫= guard.

Definition setGuard (w : wid) (g : Guard) (st : State) : State :=
  set_widgets (alter (withGuard (Some g)) w (widgets st)) st.

Definition setStarting (b : bool) (g : Guard) : Guard :=
  {| starting := b; attachingToTask := attachingToTask g; task := task g |}.

Definition setAttachingToTask (b : bool) (g : Guard) : Guard :=
  {| starting := starting g; attachingToTask := b; task := task g |}.

Definition setTask (t : GitpodTask) (g : Guard) : Guard :=
  {| starting := starting g; attachingToTask := attachingToTask g; task := Some t |}.

(** [starting = false] and [attachingToTask = false] of the listeners and
    handlers. *)
Definition resetStarting (w : wid) (st : State) : State :=
  match getGuard w st with
  | Some g => setGuard w (setStarting false g) st
  | None => st
  end.

Definition resetAttachingToTask (w : wid) (st : State) : State :=
  match getGuard w st with
  | Some g => setGuard w (setAttachingToTask false g) st
  | None => st
  end.

(** [this.updateQueue = this.updateQueue.then(update, update)] *)
Definition queue (update : callback) (st : State) : State * pid :=
  let '(st1, d) := then_ (updateQueue st) (Some update) (Some update) st in
  (log (Enqueued (updateQueue st) d) (set_updateQueue d st1), d).

(** The listener [() => this.taskTerminals.delete(terminal.id)]. *)
Definition onDidDisposeListener (wd : Widget) (st : State) : State :=
  set_taskTerminals (delete (widget_id wd) (taskTerminals st)) st.

(** Modelled from the spec: the terminal surface, which is not part of the
    source, signals its disposal to the [onDidDispose] listeners when it is
    disposed; a disposed surface stays disposed and signals nothing more. *)
Definition signalDispose (w : wid) (st : State) : State :=
  match widgets st !! w with
  | Some wd =>
      if isDisposed wd then st
      else
        let st1 := set_widgets (alter withDisposed w (widgets st)) st in
        match guard wd with
        | Some _ => onDidDisposeListener wd st1
        | None => st1
        end
  | None => st
  end.

(** [terminal.dispose()] *)
Definition dispose (w : wid) : M unit :=
  fun st => (signalDispose w (log (Call (Dispose w)) st), Normal tt).

(** The widget's own [start(id)]: an asynchronous method of the surface. *)
Definition originalStart (w : wid) (id : option Z) : M value :=
  fun st =>
    let '(st1, p) := newPromise true (log (Call (Start w id)) st) in
    (st1, Normal (VPromise p)).

(** [terminal.start(id)]: the wrapper of lines 77-84 on a task terminal,
    the widget's own method on any other. *)
Definition start (w : wid) (id : option Z) : M value :=
  fun st =>
    match widgets st !! w with
    | Some wd =>
        match guard wd with
        | Some g =>
            if starting g
            then (st, Throw ("gitpod task terminal is already starting, id:" ++ widget_id wd))
            else originalStart w id (setGuard w (setStarting true g) st)
        | None => originalStart w id st
        end
    | None => (st, Throw "TypeError")
    end.

(** [attachToTask(params)] of lines 89-101; [this.server.attach] returns a
    promise the task server settles. *)
Definition attachToTask (w : wid) (tid : Z) (remoteTerminal : string) : M value :=
  fun st =>
    match widgets st !! w with
    | Some wd =>
        match guard wd with
        | Some g =>
            if attachingToTask g
            then (st, Throw ("gitpod task terminal is already attaching, id:" ++ widget_id wd))
            else
              let st1 := setGuard w (setAttachingToTask true g) st in
              let '(st2, p) := newPromise true (log (Call (ServerAttach tid remoteTerminal)) st1) in
              let '(st3, p1) := then_ p (Some (AttachDone w)) None st2 in
              let '(st4, p2) := then_ p1 None (Some (AttachFailed w)) st3 in
              (st4, Normal (VPromise p2))
        | None => (st, Throw "TypeError")
        end
    | None => (st, Throw "TypeError")
    end.

(** [task?.state === s] *)
Definition taskStateIs (t : option GitpodTask) (s : GitpodTaskState) : bool :=
  match t with
  | Some t => bool_decide (task_state t = s)
  | None => false
  end.

(** [update] of lines 104-122. *)
Definition update (w : wid) : M unit :=
  fun st =>
    match widgets st !! w with
    | Some wd =>
        match guard wd with
        | Some g =>
            if taskStateIs (task g) CLOSED then dispose w st
            else
              let remoteTerminal := task g ≫= task_terminal in
              if negb (taskStateIs (task g) RUNNING) || negb (truthy remoteTerminal)
                 || starting g || attachingToTask g
              then (st, Normal tt)
              else
                if negb (validateId (terminalId wd))
                then bind (start w None) (fun _ => ret tt) st
                else bind (attachToTask w (terminalId wd) (default "" remoteTerminal))
                          (fun _ => ret tt) st
        | None => (st, Normal tt)
        end
    | None => (st, Normal tt)
    end.

(** [terminal.applyTask = updated => { task = updated; return update() }];
    a widget the handler has not wrapped has no such method. *)
Definition applyTask (w : wid) (updated : GitpodTask) : M unit :=
  fun st =>
    match getGuard w st with
    | Some g => update w (setGuard w (setTask updated g) st)
    | None => (st, Throw "TypeError")
    end.

(** The listeners of [onDidOpen] and of [onDidOpenFailure], in the order
    they are registered (lines 85-86, then 134-135). *)
Definition onDidOpenListeners (w : wid) : M unit :=
  fun st => update w (resetStarting w st).

(** The listener of [onTerminalDidClose] (lines 127-133). *)
Definition onTerminalDidCloseListener (w : wid) (st : State) : State :=
  match getGuard w st ≫= task with
  | Some t =>
      if truthy (task_terminal t) && negb (bool_decide (task_state t = CLOSED))
      then log (Call (FetchClose (default "" (task_terminal t)))) st
      else st
  | None => st
  end.

(** The wrapped [attachTerminal] of lines 67-73. *)
Definition attachTerminal (w : wid) (id : Z) (st : State) : State * pid :=
  let '(st1, p) := newPromise true (log (Call (AttachTerminal w id)) st) in
  then_ p (Some (AttachTerminalDone w)) None st1.

(** [terminal['createTerminal']()] *)
Definition createTerminal (w : wid) : M value :=
  fun st =>
    let '(st1, p) := newPromise true (log (Call (CreateTerminal w)) st) in
    (st1, Normal (VPromise p)).

(** [IBaseTerminalServer.validateId] on what [attachTerminal] resolved to:
    only a number can be a valid id. *)
Definition validateValue (v : value) : bool :=
  match v with
  | VNum n => validateId n
  | _ => false
  end.

(** The handler [onWillCreateWidget] registers (lines 60-137): a task
    terminal is entered in the table and gets its guard. *)
Definition onWillCreateWidget (w : wid) (st : State) : State :=
  match widgets st !! w with
  | Some terminal =>
      if is_ terminal
      then
        setGuard w {| starting := false; attachingToTask := false; task := None |}
          (set_taskTerminals (<[widget_id terminal := w]> (taskTerminals st)) st)
      else st
  | None => st
  end.

(** [updateTerminals] of lines 178-191. *)
Fixpoint updateTerminals (tasks : list GitpodTask) (st : State) : State :=
  match tasks with
  | [] => st
  | t :: rest =>
      let id := Ident.toTerminalId (task_id t) in
      updateTerminals rest
        match taskTerminals st !! id with
        | Some terminal =>
            tryCatch (applyTask terminal t)
              (fun e => log (Call (ConsoleError "Failed to update Gitpod task terminal:" e)))
              st
        | None => st
        end
  end.

(** [onDidChange] of the client registered in [init] (lines 55-58). *)
Definition onDidChange (updated : list GitpodTask) (st : State) : State :=
  let st1 := settle pendingInitialTasks (Fulfilled (VTasks updated)) st in
  fst (queue (UpdateTerminals updated) st1).

(** [this.terminals.newTerminal(options)]: asynchronous, the shell settles
    the promise. *)
Definition newTerminal (options : TerminalWidgetOptions) (st : State) : State * pid :=
  newPromise true (log (Call (NewTerminal options)) st).

(** [this.terminals.activateTerminal(terminal, { ref, area, mode })] *)
Definition activateTerminal (w : wid) (ref : option wid) (area mode : string) : M unit :=
  fun st =>
    let st1 := log (Call (ActivateTerminal w ref area mode)) st in
    match activateTerminalThrows w ref area mode with
    | Some e => (st1, Throw e)
    | None => (st1, Normal tt)
    end.

(** Modelled from the spec: [this.terminals.all], which is not part of the
    source, is the terminal surfaces the UI holds, of any kind: the widgets
    that have been created and are not disposed. *)
Definition terminalsAll (st : State) : list Widget :=
  filter (fun wd => isDisposed wd = false) (widgets st).

Definition layoutFailure (e : error) : State -> State :=
  log (Call (ConsoleError "Failed to start Gitpod task terminal:" e)).

(** Lines 168-175 up to the [await]. *)
Definition layoutFinish (st : State) : State :=
  let st1 := log LayoutResolved
               (settle pendingInitializeLayout (Fulfilled VUndefined) st) in
  if (length (terminalsAll st1) =? 0)%nat
  then
    let '(st2, p) := newTerminal noOptions st1 in
    await p ResumeLayoutDefault st2
  else set_layoutResult (Some (Fulfilled VUndefined)) st1.

(** The loop of lines 143-167, run until it has to wait for [newTerminal]
    or ends. *)
Fixpoint layoutLoop (tasks : list GitpodTask) (ref : option wid) (st : State) : State :=
  match tasks with
  | [] => layoutFinish st
  | t :: rest =>
      if bool_decide (task_state t = CLOSED) then layoutLoop rest ref st
      else
        let id := Ident.toTerminalId (task_id t) in
        match taskTerminals st !! id with
        | Some terminal => layoutLoop rest (Some terminal) st
        | None =>
            match task_presentation t with
            | Some presentation =>
                let '(st1, p) :=
                  newTerminal {| opt_id := Some id;
                                 opt_kind := Some "gitpod-task";
                                 opt_title := Some (name presentation);
                                 opt_useServerTitle := Some false |} st in
                await p (ResumeLayoutNew t rest ref) st1
            | None => layoutLoop rest ref (layoutFailure "TypeError" st)
            end
        end
  end.

(** The loop body after [await this.terminals.newTerminal(...)], then the
    rest of the loop. *)
Definition resumeLayoutNew (t : GitpodTask) (rest : list GitpodTask)
    (ref : option wid) (arg : outcome) (st : State) : State :=
  match arg, task_presentation t with
  | Fulfilled (VWidget terminal), Some presentation =>
      match activateTerminal terminal ref
              (orDefault (openIn presentation) "bottom")
              (orDefault (openMode presentation) "tab-after") st with
      | (st1, Normal _) => layoutLoop rest (Some terminal) st1
      | (st1, Throw e) => layoutLoop rest ref (layoutFailure e st1)
      end
  | Fulfilled _, _ => layoutLoop rest ref (layoutFailure "TypeError" st)
  | Rejected e, _ => layoutLoop rest ref (layoutFailure e st)
  end.

(** After [await this.pendingInitialTasks.promise] (line 141). *)
Definition resumeLayoutTasks (arg : outcome) (st : State) : State :=
  match arg with
  | Fulfilled (VTasks tasks) => layoutLoop tasks None st
  | Fulfilled _ => set_layoutResult (Some (Rejected "TypeError")) st
  | Rejected e => set_layoutResult (Some (Rejected e)) st
  end.

(** After [await this.terminals.newTerminal({})] (lines 172-174). *)
Definition resumeLayoutDefault (arg : outcome) (st : State) : State :=
  match arg with
  | Fulfilled (VWidget terminal) =>
      match start terminal None st with
      | (st1, Normal _) =>
          set_layoutResult (Some (Fulfilled VUndefined)) (log (Call (Open terminal)) st1)
      | (st1, Throw e) => set_layoutResult (Some (Rejected e)) st1
      end
  | Fulfilled _ => set_layoutResult (Some (Rejected "TypeError")) st
  | Rejected e => set_layoutResult (Some (Rejected e)) st
  end.

(** [onDidInitializeLayout] up to its first [await]. *)
Definition onDidInitializeLayout (st : State) : State :=
  await pendingInitialTasks ResumeLayoutTasks (set_layoutCalled true st).

(** Run a scheduled function on the outcome of its promise. *)
Definition runCallback (cb : callback) (arg : outcome) : M value :=
  match cb with
  | UpdateTerminals updated => fun st => (updateTerminals updated st, Normal VUndefined)
  | Opaque n =>
      match opaqueThrows n with
      | Some e => throw e
      | None => ret VUndefined
      end
  | AttachDone w => fun st => (resetAttachingToTask w st, Normal (VBool false))
  | AttachFailed w =>
      fun st =>
        (resetAttachingToTask w st,
         Throw match arg with Rejected e => e | Fulfilled _ => "" end)
  | AttachTerminalDone w =>
      match arg with
      | Fulfilled terminalId =>
          if validateValue terminalId then ret terminalId else createTerminal w
      | Rejected e => throw e
      end
  | ResumeLayoutTasks => fun st => (resumeLayoutTasks arg st, Normal VUndefined)
  | ResumeLayoutNew t rest ref =>
      fun st => (resumeLayoutNew t rest ref arg st, Normal VUndefined)
  | ResumeLayoutDefault => fun st => (resumeLayoutDefault arg st, Normal VUndefined)
  end.

(** Run one promise reaction job: a missing handler passes the outcome on
    to the derived promise; a handler's return value resolves it and a
    throw rejects it. *)
Definition runJob (j : Job) (st : State) : State :=
  match job_callback j, job_derived j with
  | None, Some d => settle d (job_argument j) st
  | None, None => st
  | Some cb, Some d =>
      match runCallback cb (job_argument j) (log (Run d) st) with
      | (st1, Normal v) => resolve d v (log (Ran d false) st1)
      | (st1, Throw e) => settle d (Rejected e) (log (Ran d true) st1)
      end
  | Some cb, None => fst (runCallback cb (job_argument j) st)
  end.

(** What the environment does to the contribution. *)
Inductive Event :=
  | EvWillCreateWidget (id : string) (kind : option string) (tid : Z)
  | EvDidChange (updated : list GitpodTask)
  | EvInitializeLayout
  | EvSettle (p : pid) (o : outcome)
  | EvDidOpen (w : wid) (tid : Z)
  | EvDidOpenFailure (w : wid) (tid : Z)
  | EvTerminalDidClose (w : wid)
  | EvDispose (w : wid)
  | EvStart (w : wid) (id : option Z)
  | EvAttachTerminal (w : wid) (id : Z)
  | EvQueue (n : nat).

Definition isExternalPending (p : pid) (st : State) : bool :=
  match heap st !! p with
  | Some pr => external pr && bool_decide (settled pr = None)
  | None => false
  end.

Definition setTerminalId (w : wid) (tid : Z) (st : State) : State :=
  set_widgets (alter (withTerminalId tid) w (widgets st)) st.

(** One turn of the event loop, without the microtasks it leaves behind.
    The shell calls [onDidInitializeLayout] once; only a pending promise of
    a collaborator can be settled by it. *)
Definition handle (e : Event) (st : State) : State :=
  match e with
  | EvWillCreateWidget id kind tid =>
      onWillCreateWidget (length (widgets st))
        (set_widgets (widgets st ++ [{| widget_id := id; gitpodKind := kind;
                                        terminalId := tid; isDisposed := false;
                                        guard := None |}]) st)
  | EvDidChange updated => onDidChange updated st
  | EvInitializeLayout => if layoutCalled st then st else onDidInitializeLayout st
  | EvSettle p o => if isExternalPending p st then settle p o st else st
  | EvDidOpen w tid => fst (onDidOpenListeners w (setTerminalId w tid st))
  | EvDidOpenFailure w tid => fst (onDidOpenListeners w (setTerminalId w tid st))
  | EvTerminalDidClose w => onTerminalDidCloseListener w st
  | EvDispose w => signalDispose w st
  | EvStart w id => fst (start w id st)
  | EvAttachTerminal w id => fst (attachTerminal w id st)
  | EvQueue n => fst (queue (Opaque n) st)
  end.

(** The event loop: microtasks run to exhaustion between two events. *)
Inductive step : State -> State -> Prop :=
  | step_job j rest st :
      microtasks st = j :: rest ->
      step st (runJob j (set_microtasks rest st))
  | step_event e st :
      microtasks st = [] ->
      step st (handle e st).

Inductive reachable : State -> Prop :=
  | reachable_initial : reachable initial
  | reachable_step st st' : reachable st -> step st st' -> reachable st'.

(** Run at most [fuel] microtasks. *)
Fixpoint drain (fuel : nat) (st : State) : State :=
  match fuel, microtasks st with
  | S fuel', j :: rest => drain fuel' (runJob j (set_microtasks rest st))
  | _, _ => st
  end.

(** Handle the events in turn, each followed by its microtasks. *)
Fixpoint run (fuel : nat) (events : list Event) (st : State) : State :=
  match events with
  | [] => st
  | e :: events' => run fuel events' (drain fuel (handle e st))
  end.

End WithEnvironment.
End Contribution.

(** ** Sample inputs *)

Module Samples.
Import Data Js Contribution.

(** An environment in the manner of Theia: [-1] is the invalid terminal
    id, placing widget [7] fails, the opaque function [1] throws. *)
Definition theia : Environment :=
  {| validateId := fun n => negb (n =? -1)%Z;
     activateTerminalThrows :=
       fun w _ _ _ => if (w =? 7)%nat then Some "placement failed" else None;
     opaqueThrows := fun n => if (n =? 1)%nat then Some "boom" else None |}.

Definition presentation1 : TaskPresentation :=
  {| name := "build"; openIn := None; openMode := None |}.

Definition running1 : GitpodTask :=
  {| task_id := "t1"; task_state := RUNNING; task_terminal := Some "r1";
     task_presentation := Some presentation1 |}.

Definition running2 : GitpodTask :=
  {| task_id := "t2"; task_state := RUNNING; task_terminal := Some "r2";
     task_presentation := Some presentation1 |}.

Definition closed1 : GitpodTask :=
  {| task_id := "t1"; task_state := CLOSED; task_terminal := Some "r1";
     task_presentation := Some presentation1 |}.

Definition createTask1 : Event :=
  EvWillCreateWidget "gitpod-task-terminal:t1" (Some "gitpod-task") (-1).

(** A task terminal for [t1] exists, the layout is done and the first
    snapshot, with [t1] running, has been applied: the terminal is
    starting. *)
Definition startingState : State :=
  @run theia 8 [createTask1; EvInitializeLayout; EvDidChange [running1]] initial.

(** The terminal of [startingState] has opened with the remote id [5] and
    the attach to the task is in flight. *)
Definition attachingState : State :=
  @run theia 8 [EvDidOpen 0 5] startingState.

(** The terminal of [startingState] has signalled that it opened with the
    remote id [5]; the first listener has run, the evaluation has not. *)
Definition openedState : State :=
  @resetStarting 0 (setTerminalId 0 5 startingState).

(** The layout is awaited, two caller-supplied functions are enqueued, of
    which the first throws, then the first snapshot arrives, empty. *)
Definition queueRun : State :=
  @run theia 8 [EvInitializeLayout; EvQueue 1; EvQueue 2; EvDidChange []] initial.

(** The first snapshot arrives before the shell asks for the initial
    layout; the terminal of the task is then created and placed. *)
Definition layoutRun : State :=
  @run theia 8 [EvDidChange [running1]; EvInitializeLayout;
                createTask1; EvSettle 3 (Fulfilled (VWidget 0))] initial.

(** A task terminal for [t1] without a remote terminal id, to which the
    running task has just been assigned. *)
Definition needsStartGuard : Guard :=
  {| starting := false; attachingToTask := false; task := Some running1 |}.

Definition needsStartWidget : Widget :=
  {| widget_id := "gitpod-task-terminal:t1"; gitpodKind := Some "gitpod-task";
     terminalId := -1; isDisposed := false; guard := Some needsStartGuard |}.

Definition needsStartState : State :=
  setGuard 0 needsStartGuard (@handle theia createTask1 (@initial)).

Definition openedGuard : Guard :=
  {| starting := false; attachingToTask := false; task := Some running1 |}.

Definition openedWidget : Widget :=
  {| widget_id := "gitpod-task-terminal:t1"; gitpodKind := Some "gitpod-task";
     terminalId := 5; isDisposed := false; guard := Some openedGuard |}.

End Samples.

(** ** The effects of the guarded operations, as states *)

Module Effects.
Import Data Js Contribution.

(** The state the wrapped [start] leaves when it does not throw: the flag
    is set and the widget's own [start] has been called. *)
Definition startIssued (w : wid) (g : Guard) (id : option Z) (st : State) : State :=
  set_heap (heap st ++ [{| settled := None; reactions := []; external := true |}])
    (log (Call (Start w id)) (setGuard w (setStarting true g) st)).

(** The state [attachToTask] leaves when it does not throw: the flag is
    set, [attach] is called, and [.then(...).catch(...)] hangs on the
    promise it returned. *)
Definition attachIssued (w : wid) (g : Guard) (tid : Z) (remoteTerminal : string)
    (st : State) : State :=
  set_heap
    (heap st ++
     [{| settled := None;
         reactions := [{| onFulfilled := Some (AttachDone w); onRejected := None;
                          derived := Some (S (length (heap st))) |}];
         external := true |};
      {| settled := None;
         reactions := [{| onFulfilled := None; onRejected := Some (AttachFailed w);
                          derived := Some (S (S (length (heap st)))) |}];
         external := false |};
      {| settled := None; reactions := []; external := false |}])
    (log (Call (ServerAttach tid remoteTerminal))
       (setGuard w (setAttachingToTask true g) st)).

(** The state the wrapped [attachTerminal] leaves: the widget's own
    [attachTerminal] has been called and the handler of lines 68-73 hangs on
    the promise it returned. *)
Definition attachTerminalIssued (w : wid) (id : Z) (st : State) : State :=
  set_heap
    (heap st ++
     [{| settled := None;
         reactions := [{| onFulfilled := Some (AttachTerminalDone w);
                          onRejected := None;
                          derived := Some (S (length (heap st))) |}];
         external := true |};
      {| settled := None; reactions := []; external := false |}])
    (log (Call (AttachTerminal w id)) st).

(** How often [terminal.dispose()] has been called on widget [w]. *)
Definition disposals (w : wid) (tr : list event) : nat :=
  length (filter (fun e => e = Call (Dispose w)) tr).

(** Every entry of the table is a live, wrapped widget under its own id:
    what [onWillCreateWidget] enters and [onDidDispose] removes. *)
Definition tableConsistent (st : State) : Prop :=
  forall k w,
    taskTerminals st !! k = Some w ->
    exists wd,
      widgets st !! w = Some wd /\ widget_id wd = k /\
      isDisposed wd = false /\ is_Some (guard wd).

(** A snapshot reports the task [id] as CLOSED: it lists the task, and
    with no other state. *)
Definition reportsClosed (id : string) (snapshot : list GitpodTask) : Prop :=
  (exists t, t ∈ snapshot /\ task_id t = id) /\
  forall t, t ∈ snapshot -> task_id t = id -> task_state t = CLOSED.

(** The binding of task [id] to widget [w] is in the table and [w] has
    been disposed [n] times. *)
Definition live (id : string) (w : wid) (n : nat) (st : State) : Prop :=
  tableConsistent st /\
  taskTerminals st !! Ident.toTerminalId id = Some w /\
  disposals w (trace st) = n.

(** The binding has left the table and [w] has been disposed [S n] times. *)
Definition gone (id : string) (w : wid) (n : nat) (st : State) : Prop :=
  tableConsistent st /\
  taskTerminals st !! Ident.toTerminalId id = None /\
  isDisposed <$> widgets st !! w = Some true /\
  disposals w (trace st) = S n.

(** The update batches of successive snapshots, applied in order. *)
Definition applySnapshots `{Environment} (snapshots : list (list GitpodTask))
    (st : State) : State :=
  fold_left (fun st' snapshot => updateTerminals snapshot st') snapshots st.

(** The reaction [await] registers for the remainder [k] of an async
    function. *)
Definition awaiting (k : callback) : Reaction :=
  {| onFulfilled := Some k; onRejected := Some k; derived := None |}.

(** The options of the terminal the initial layout creates for a task. *)
Definition taskTerminalOptions (t : GitpodTask) (presentation : TaskPresentation)
    : TerminalWidgetOptions :=
  {| opt_id := Some (Ident.toTerminalId (task_id t));
     opt_kind := Some "gitpod-task";
     opt_title := Some (name presentation);
     opt_useServerTitle := Some false |}.

(** The microtask queue is empty before each of the events of a run,
    as the event loop requires. *)
Fixpoint quiescentRun `{Environment} (fuel : nat) (events : list Event)
    (st : State) : bool :=
  match events with
  | [] => true
  | e :: events' =>
      bool_decide (microtasks st = []) &&
      quiescentRun fuel events' (drain fuel (handle e st))
  end.

(** The calls of a history. *)
Definition calls (tr : list event) : list call :=
  omap (fun e => match e with Call c => Some c | _ => None end) tr.

End Effects.

(** ** The update queue and the layout in the history *)

Module Order.
Import Data Js Contribution Effects.
Local Open Scope list_scope.

(** The functions [onDidChange] gives to [queue], and caller-supplied ones. *)
Definition isQueueCallback (cb : callback) : bool :=
  match cb with
  | UpdateTerminals _ | Opaque _ => true
  | _ => false
  end.

(** The remainders of [onDidInitializeLayout] that are still in its loop. *)
Definition isLoopContinuation (cb : callback) : bool :=
  match cb with
  | ResumeLayoutTasks | ResumeLayoutNew _ _ _ => true
  | _ => false
  end.

(** The calls of the loop of the initial layout: creating and placing a
    task terminal, and logging that this failed. *)
Definition isLayoutCall (c : call) : bool :=
  match c with
  | NewTerminal options => bool_decide (opt_kind options = Some "gitpod-task")
  | ActivateTerminal _ _ _ _ => true
  | ConsoleError message _ =>
      bool_decide (message = "Failed to start Gitpod task terminal:")
  | _ => false
  end.

Definition isLayoutEvent (e : event) : bool :=
  match e with
  | Call c => isLayoutCall c
  | _ => false
  end.

(** The events that do not concern the scheduling of the queue. *)
Definition plain (e : event) : Prop :=
  match e with
  | Call _ | LayoutResolved => True
  | _ => False
  end.

(** The update queue as the history records it: the pairs of the promise
    a function was chained on and the promise derived for it, in the
    order of the calls of [queue]. *)
Definition chain (tr : list event) : list (pid * pid) :=
  omap (fun e => match e with Enqueued on d => Some (on, d) | _ => None end) tr.

(** The promises of the enqueued functions, in the order of enqueueing. *)
Definition queued (tr : list event) : list pid := (chain tr).*2.

(** The derived promises of the jobs that have begun to run. *)
Definition runs (tr : list event) : list pid :=
  omap (fun e => match e with Run d => Some d | _ => None end) tr.

Definition reactionTargetsOf (pr : Promise) : list pid :=
  omap derived (reactions pr).

Definition reactionTargets (h : list Promise) : list pid :=
  h ≫= reactionTargetsOf.

Definition jobTargets (q : list Job) : list pid := omap job_derived q.

Definition occ (d : pid) (l : list pid) : nat :=
  length (filter (fun x => x = d) l).

(** Where the function with derived promise [d] is: waiting as a reaction,
    scheduled as a job, or begun. *)
Definition tokens (d : pid) (st : State) : nat :=
  occ d (reactionTargets (heap st)) + occ d (jobTargets (microtasks st))
  + occ d (runs (trace st)).

(** The promise [on] has settled, as far as the history [tr] shows: the
    head of the queue when the initial layout has resolved it, a promise
    of the queue when its function has run to its end. *)
Definition settledIn (on : pid) (tr : list event) : Prop :=
  (on = pendingInitializeLayout /\ LayoutResolved ∈ tr) \/
  (exists threw, Ran on threw ∈ tr).

(** Each function is chained on the promise of the one before it, the
    first on [q]. *)
Fixpoint chained (q : pid) (c : list (pid * pid)) : Prop :=
  match c with
  | [] => True
  | (on, d) :: c' => on = q /\ chained d c'
  end.

(** The promise at the end of the queue. *)
Definition tailOf (q : pid) (c : list (pid * pid)) : pid :=
  default q (last (c.*2)).

Definition isSettled (p : pid) (st : State) : Prop :=
  exists pr o, heap st !! p = Some pr /\ settled pr = Some o.

(** What code other than [queue] and the event loop itself does to the
    promises and the history; with [layout] it may be the loop of the
    initial layout, which also resolves [pendingInitializeLayout]. *)
Inductive effect (layout : bool) : State -> State -> Prop :=
  | effect_refl st : effect layout st st
  | effect_trans st1 st2 st3 :
      effect layout st1 st2 -> effect layout st2 st3 -> effect layout st1 st3
  | effect_frame st st' :
      heap st' = heap st ->
      microtasks st' = microtasks st ->
      updateQueue st' = updateQueue st ->
      layoutCalled st' = layoutCalled st ->
      trace st' = trace st ->
      (tableConsistent st -> tableConsistent st') ->
      effect layout st st'
  | effect_call c st :
      (isLayoutCall c = true -> layout = true) ->
      effect layout st (log (Call c) st)
  | effect_new ext st : effect layout st (fst (newPromise ext st))
  | effect_then p f g st :
      from_option isLoopContinuation false f = false ->
      from_option isLoopContinuation false g = false ->
      effect layout st (fst (then_ p f g st))
  | effect_await p k st :
      (isLoopContinuation k = true -> layout = true) ->
      effect layout st (await p k st)
  | effect_settle p o st :
      isExternalPending p st = true ->
      effect layout st (settle p o st)
  | effect_tasks o st :
      effect layout st (settle pendingInitialTasks o st)
  | effect_resolved st :
      layout = true ->
      effect layout st
        (log LayoutResolved (settle pendingInitializeLayout (Fulfilled VUndefined) st))
  | effect_called st :
      layout = true ->
      effect layout st (set_layoutCalled true st).

(** The state of the update queue, between two steps of the event loop
    ([running = None]) and while the function of promise [d] runs
    ([running = Some d]). *)
Record queueInv (running : option pid) (st : State) : Prop := {
  q_head :
    exists pr, heap st !! pendingInitializeLayout = Some pr /\
               external pr = false /\
               (settled pr <> None -> LayoutResolved ∈ trace st);
  q_noreact :
    forall p pr, heap st !! p = Some pr -> settled pr <> None -> reactions pr = [];
  q_targets :
    forall d, d ∈ reactionTargets (heap st) ++ jobTargets (microtasks st)
                  ++ runs (trace st) ->
              2 <= d < length (heap st);
  q_bound :
    forall on d, (on, d) ∈ chain (trace st) ->
      2 <= d < length (heap st) /\
      exists pr, heap st !! d = Some pr /\ external pr = false;
  q_token :
    forall d, d ∈ queued (trace st) -> tokens d st = 1;
  q_react :
    forall p pr r d,
      heap st !! p = Some pr -> r ∈ reactions pr -> derived r = Some d ->
      d ∈ queued (trace st) ->
      (p, d) ∈ chain (trace st) /\
      exists cb, isQueueCallback cb = true /\
                 onFulfilled r = Some cb /\ onRejected r = Some cb;
  q_job :
    forall j d,
      j ∈ microtasks st -> job_derived j = Some d -> d ∈ queued (trace st) ->
      (exists cb, isQueueCallback cb = true /\ job_callback j = Some cb) /\
      exists on, (on, d) ∈ chain (trace st) /\ settledIn on (trace st);
  q_run :
    forall d, d ∈ queued (trace st) -> Run d ∈ trace st -> running <> Some d ->
      isSettled d st;
  q_settled :
    forall d, d ∈ queued (trace st) -> isSettled d st ->
      exists threw, Ran d threw ∈ trace st;
  q_ran :
    forall pre post d threw,
      trace st = pre ++ Ran d threw :: post -> Run d ∈ pre;
  q_order :
    forall pre post on d,
      trace st = pre ++ Run d :: post -> (on, d) ∈ chain (trace st) ->
      settledIn on pre;
  q_linked :
    chained pendingInitializeLayout (chain (trace st)) /\
    updateQueue st = tailOf pendingInitializeLayout (chain (trace st));
  q_nodup : NoDup (queued (trace st))
}.

End Order.

(** ** The initial layout in the history *)

Module LayoutOrder.
Import Data Js Contribution Order.
Local Open Scope list_scope.

(** A reaction or a job that resumes the loop of the initial layout. *)
Definition isLoopReaction (r : Reaction) : bool :=
  from_option isLoopContinuation false (onFulfilled r)
  || from_option isLoopContinuation false (onRejected r).

Definition isLoopJob (j : Job) : bool :=
  from_option isLoopContinuation false (job_callback j).

Definition loopReactions (rs : list Reaction) : nat :=
  length (filter (fun r => isLoopReaction r = true) rs).

Definition loopJobs (q : list Job) : nat :=
  length (filter (fun j => isLoopJob j = true) q).

(** How many continuations of the loop wait in the promises or in the
    microtask queue. *)
Definition continuations (st : State) : nat :=
  loopReactions (heap st ≫= reactions) + loopJobs (microtasks st).

(** An event that may follow the resolution of the initial layout: no call
    of its loop, and no second resolution. *)
Definition afterLayout (e : event) : Prop :=
  isLayoutEvent e = false /\ e <> LayoutResolved.

(** A step that does not belong to the loop of the initial layout. *)
Definition quiet (st st' : State) : Prop :=
  continuations st' <= continuations st /\
  layoutCalled st' = layoutCalled st /\
  exists es, trace st' = trace st ++ es /\ Forall afterLayout es.

(** A step of the loop of the initial layout: it ends waiting, with one
    more continuation and the layout unresolved, or it resolves the layout,
    once, and leaves the loop. *)
Definition loopStep (st st' : State) : Prop :=
  layoutCalled st' = layoutCalled st /\
  exists es, trace st' = trace st ++ es /\
    ((continuations st' <= S (continuations st) /\ LayoutResolved ∉ es) \/
     (continuations st' <= continuations st /\
      exists es1 es2, es = es1 ++ LayoutResolved :: es2 /\
                      (LayoutResolved ∉ es1) /\ Forall afterLayout es2)).

(** Once the history shows the resolution of the initial layout, the head
    of the queue is settled. *)
Definition resolvedSettled (st : State) : Prop :=
  2 <= length (heap st) /\
  (LayoutResolved ∈ trace st -> isSettled pendingInitializeLayout st).

Record layoutInv (st : State) : Prop := {
  l_one : continuations st <= 1;
  l_resolved : LayoutResolved ∈ trace st -> continuations st = 0;
  l_called :
    layoutCalled st = false -> continuations st = 0 /\ LayoutResolved ∉ trace st;
  l_after :
    forall pre post, trace st = pre ++ LayoutResolved :: post -> Forall afterLayout post
}.

End LayoutOrder.

(** ** What a batch of updates and the loop of the layout do *)

Module Batches.
Import Data Js Contribution.
Local Open Scope list_scope.

(** The calls the guard of a task terminal makes: disposing the surface,
    starting it, attaching it to its task. *)
Definition isGuardCall (c : call) : bool :=
  match c with
  | Dispose _ | Start _ None | ServerAttach _ _ => true
  | _ => false
  end.

Definition isGuardEvent (e : event) : bool :=
  match e with
  | Call c => isGuardCall c
  | _ => false
  end.

(** How often [terminal.start()] has been called on widget [w] by its
    guard. *)
Definition starts (w : wid) (tr : list event) : nat :=
  length (filter (fun e => e = Call (Start w None)) tr).

(** A task the loop of the initial layout passes over without creating a
    terminal: it is CLOSED, or a terminal is bound to it. *)
Definition passedOver (st : State) (t : GitpodTask) : bool :=
  bool_decide (task_state t = CLOSED)
  || bool_decide (is_Some (taskTerminals st !! Ident.toTerminalId (task_id t))).

(** A task for which [update] goes on to [start] or [attachToTask] when no
    operation is in flight: RUNNING, with a remote terminal that is not the
    empty string (line 111). *)
Definition actionable (t : GitpodTask) : bool :=
  bool_decide (task_state t = RUNNING) && truthy (task_terminal t).

End Batches.

(** * Properties *)

Import Data Js Contribution Effects Order LayoutOrder Batches.
Local Open Scope list_scope.

(** ** Facts about the terminal identifiers *)

Section IdentFacts.
Import Ident.

Lemma split_without_separator sep s :
  occurrences sep s = 0 -> split sep s = [s].
Proof.
  induction s as [|c r IH]; simpl; [done|].
  destruct (Ascii.eqb c sep); [done|].
  intros Hr. by rewrite (IH Hr).
Qed.

Lemma split_app sep s r :
  occurrences sep s = 0 ->
  split sep (s ++ String sep r)%string = s :: split sep r.
Proof.
  induction s as [|c s IH]; simpl.
  - by rewrite Ascii.eqb_refl.
  - destruct (Ascii.eqb c sep); [done|].
    intros Hs. by rewrite (IH Hs).
Qed.

Lemma occurrences_app sep s r :
  occurrences sep (s ++ r)%string = occurrences sep s + occurrences sep r.
Proof. induction s as [|c s IH]; simpl; [done|]. rewrite IH. lia. Qed.

Lemma occurrences_toTerminalId taskId :
  occurrences separator (toTerminalId taskId) = S (occurrences separator taskId).
Proof. unfold toTerminalId. by rewrite occurrences_app. Qed.

Lemma split_toTerminalId taskId :
  split separator (toTerminalId taskId) = idPrefix :: split separator taskId.
Proof. unfold toTerminalId. by apply split_app. Qed.

(** [toTerminalId] determines the task id. *)
Lemma Ident_toTerminalId_inj a b : toTerminalId a = toTerminalId b -> a = b.
Proof. unfold toTerminalId. intros Heq. by simplify_eq/=. Qed.

(** C7: the derived terminal identifier round-trips.  For every task id
    such that the separator occurs only once in [toTerminalId taskId]
    (nowhere beyond its first occurrence, the one that ends the prefix),
    [getTaskId] on a terminal with that id yields the task id. *)
Theorem getTaskId_toTerminalId (taskId : string) :
  occurrences separator (toTerminalId taskId) = 1 ->
  getTaskId (toTerminalId taskId) = Some taskId.
Proof.
  rewrite occurrences_toTerminalId. intros Hocc.
  unfold getTaskId. rewrite split_toTerminalId.
  rewrite split_without_separator by lia. done.
Qed.

Lemma getTaskId_toTerminalId_witness :
  occurrences separator (toTerminalId "t1") = 1 /\
  getTaskId (toTerminalId "t1") = Some "t1".
Proof. split; [reflexivity | apply getTaskId_toTerminalId; reflexivity]. Defined.

(** A task id that contains the separator is cut at it. *)
Example getTaskId_cuts : getTaskId (toTerminalId "a:b") = Some "a".
Proof. reflexivity. Qed.

End IdentFacts.

(** ** What the promise operations leave unchanged *)

Section Frames.
Import Data Js.

Lemma widgets_addReaction p r st : widgets (addReaction p r st) = widgets st.
Proof. unfold addReaction. by repeat case_match. Qed.

Lemma taskTerminals_addReaction p r st :
  taskTerminals (addReaction p r st) = taskTerminals st.
Proof. unfold addReaction. by repeat case_match. Qed.

Lemma trace_addReaction p r st : trace (addReaction p r st) = trace st.
Proof. unfold addReaction. by repeat case_match. Qed.

Lemma updateQueue_addReaction p r st :
  updateQueue (addReaction p r st) = updateQueue st.
Proof. unfold addReaction. by repeat case_match. Qed.

Lemma layoutResult_addReaction p r st :
  layoutResult (addReaction p r st) = layoutResult st.
Proof. unfold addReaction. by repeat case_match. Qed.

Lemma layoutCalled_addReaction p r st :
  layoutCalled (addReaction p r st) = layoutCalled st.
Proof. unfold addReaction. by repeat case_match. Qed.

Lemma widgets_settle p o st : widgets (settle p o st) = widgets st.
Proof. unfold settle. by repeat case_match. Qed.

Lemma taskTerminals_settle p o st : taskTerminals (settle p o st) = taskTerminals st.
Proof. unfold settle. by repeat case_match. Qed.

Lemma trace_settle p o st : trace (settle p o st) = trace st.
Proof. unfold settle. by repeat case_match. Qed.

Lemma updateQueue_settle p o st : updateQueue (settle p o st) = updateQueue st.
Proof. unfold settle. by repeat case_match. Qed.

Lemma layoutResult_settle p o st : layoutResult (settle p o st) = layoutResult st.
Proof. unfold settle. by repeat case_match. Qed.

Lemma layoutCalled_settle p o st : layoutCalled (settle p o st) = layoutCalled st.
Proof. unfold settle. by repeat case_match. Qed.

Lemma widgets_then p f g st : widgets (fst (then_ p f g st)) = widgets st.
Proof. unfold then_. simpl. by rewrite widgets_addReaction. Qed.

Lemma taskTerminals_then p f g st :
  taskTerminals (fst (then_ p f g st)) = taskTerminals st.
Proof. unfold then_. simpl. by rewrite taskTerminals_addReaction. Qed.

Lemma trace_then p f g st : trace (fst (then_ p f g st)) = trace st.
Proof. unfold then_. simpl. by rewrite trace_addReaction. Qed.

Lemma widgets_resolve p v st : widgets (resolve p v st) = widgets st.
Proof. destruct v; simpl; by rewrite ?widgets_settle, ?widgets_addReaction. Qed.

Lemma taskTerminals_resolve p v st :
  taskTerminals (resolve p v st) = taskTerminals st.
Proof. destruct v; simpl; by rewrite ?taskTerminals_settle, ?taskTerminals_addReaction. Qed.

Lemma trace_resolve p v st : trace (resolve p v st) = trace st.
Proof. destruct v; simpl; by rewrite ?trace_settle, ?trace_addReaction. Qed.

(** The promise at address [length h] of a heap [h ++ pr :: rest]. *)
Lemma addReaction_at h rs e rest r p st :
  p = length h ->
  heap st = h ++ {| settled := None; reactions := rs; external := e |} :: rest ->
  addReaction p r st =
  set_heap (h ++ {| settled := None; reactions := rs ++ [r]; external := e |} :: rest) st.
Proof.
  intros -> Hh. unfold addReaction. rewrite Hh, list_lookup_middle by done. simpl.
  rewrite insert_app_r_alt, Nat.sub_diag by lia. done.
Qed.

Lemma addReaction_settled h o rs e rest r p st :
  p = length h ->
  heap st = h ++ {| settled := Some o; reactions := rs; external := e |} :: rest ->
  addReaction p r st = set_microtasks (microtasks st ++ [jobFor o r]) st.
Proof.
  intros -> Hh. unfold addReaction. by rewrite Hh, list_lookup_middle by done.
Qed.

Lemma settle_at h rs e rest o p st :
  p = length h ->
  heap st = h ++ {| settled := None; reactions := rs; external := e |} :: rest ->
  settle p o st =
  set_microtasks (microtasks st ++ map (jobFor o) rs)
    (set_heap (h ++ {| settled := Some o; reactions := []; external := e |} :: rest) st).
Proof.
  intros -> Hh. unfold settle. rewrite Hh, list_lookup_middle by done. simpl.
  rewrite insert_app_r_alt, Nat.sub_diag by lia. done.
Qed.

Lemma settle_settled h o' rs e rest o p st :
  p = length h ->
  heap st = h ++ {| settled := Some o'; reactions := rs; external := e |} :: rest ->
  settle p o st = st.
Proof.
  intros -> Hh. unfold settle. by rewrite Hh, list_lookup_middle by done.
Qed.

Lemma isExternalPending_at h rs rest p st :
  p = length h ->
  heap st = h ++ {| settled := None; reactions := rs; external := true |} :: rest ->
  Contribution.isExternalPending p st = true.
Proof.
  intros -> Hh. unfold Contribution.isExternalPending.
  by rewrite Hh, list_lookup_middle by done.
Qed.

(** [then] on the promise allocated last. *)
Lemma then_last h rs e f g p st :
  p = length h ->
  heap st = h ++ [{| settled := None; reactions := rs; external := e |}] ->
  then_ p f g st =
  (set_heap (h ++ [{| settled := None;
                      reactions := rs ++ [{| onFulfilled := f; onRejected := g;
                                             derived := Some (S p) |}];
                      external := e |};
                   {| settled := None; reactions := []; external := false |}]) st,
   S p).
Proof.
  intros -> Hh. unfold then_, newPromise. rewrite Hh.
  rewrite length_app, Nat.add_1_r. simpl. f_equal.
  rewrite (addReaction_at h rs e [{| settled := None; reactions := []; external := false |}]
             _ (length h)).
  - done.
  - done.
  - simpl. by rewrite <- app_assoc.
Qed.

Lemma lookup_second {A} (h : list A) a b rest :
  (h ++ a :: b :: rest) !! S (length h) = Some b.
Proof.
  rewrite lookup_app_r by lia. by replace (S (length h) - length h) with 1 by lia.
Qed.

Lemma lookup_third {A} (h : list A) a b c rest :
  (h ++ a :: b :: c :: rest) !! S (S (length h)) = Some c.
Proof.
  rewrite lookup_app_r by lia. by replace (S (S (length h)) - length h) with 2 by lia.
Qed.

End Frames.

Create Rewrite HintDb fields.
#[global] Hint Rewrite
  widgets_addReaction taskTerminals_addReaction
  trace_addReaction updateQueue_addReaction
  layoutResult_addReaction layoutCalled_addReaction
  widgets_settle taskTerminals_settle trace_settle
  updateQueue_settle layoutResult_settle layoutCalled_settle
  widgets_then taskTerminals_then trace_then
  widgets_resolve taskTerminals_resolve trace_resolve
  : fields.

(** ** The guard of a task terminal *)

Section GuardFacts.
Import Data Js Contribution Effects.
Context `{Environment}.

Lemma widgets_setGuard w g st wd :
  widgets st !! w = Some wd ->
  widgets (setGuard w g st) !! w = Some (withGuard (Some g) wd).
Proof. intros Hw. simpl. by rewrite list_lookup_alter_eq, Hw. Qed.

Lemma widgets_setGuard_ne w w' g st :
  w <> w' -> widgets (setGuard w g st) !! w' = widgets st !! w'.
Proof. intros Hne. simpl. by rewrite list_lookup_alter_ne. Qed.

Lemma getGuard_setGuard w g st wd :
  widgets st !! w = Some wd -> getGuard w (setGuard w g st) = Some g.
Proof. intros Hw. unfold getGuard. by rewrite (widgets_setGuard _ _ _ wd). Qed.

Lemma taskStateIs_Some t s s' :
  task_state t = s -> taskStateIs (Some t) s' = bool_decide (s = s').
Proof. intros <-. done. Qed.

Lemma truthy_Some s : s <> "" -> truthy (Some s) = true.
Proof.
  intros Hs. simpl. destruct (String.eqb_spec s ""); [done|done].
Qed.

Lemma attachToTask_issues w wd g tid remoteTerminal st :
  widgets st !! w = Some wd ->
  guard wd = Some g ->
  attachingToTask g = false ->
  attachToTask w tid remoteTerminal st =
  (attachIssued w g tid remoteTerminal st,
   Normal (VPromise (S (S (length (heap st)))))).
Proof.
  intros Hw Hg Ha. unfold attachToTask. rewrite Hw, Hg, Ha.
  unfold newPromise. cbn [fst snd].
  set (st1 := set_heap _ _).
  rewrite (then_last (heap st) [] true _ _ _ st1) by done.
  set (st2 := set_heap _ st1).
  rewrite (then_last (heap st ++ [{| settled := None;
      reactions := [{| onFulfilled := Some (AttachDone w); onRejected := None;
                       derived := Some (S (length (heap st))) |}];
      external := true |}]) [] false _ _ _ st2).
  - subst st1 st2. unfold attachIssued, set_heap. simpl.
    by rewrite <- app_assoc.
  - by rewrite length_app, Nat.add_1_r.
  - subst st1 st2. simpl. by rewrite <- app_assoc.
Qed.

Lemma start_issues w wd g id st :
  widgets st !! w = Some wd ->
  guard wd = Some g ->
  starting g = false ->
  start w id st = (startIssued w g id st, Normal (VPromise (length (heap st)))).
Proof. intros Hw Hg Hs. unfold start. by rewrite Hw, Hg, Hs. Qed.


Lemma attachToTask_reentrant w wd g tid remoteTerminal st :
  widgets st !! w = Some wd ->
  guard wd = Some g ->
  attachingToTask g = true ->
  attachToTask w tid remoteTerminal st =
  (st, Throw ("gitpod task terminal is already attaching, id:" ++ widget_id wd)%string).
Proof. intros Hw Hg Ha. unfold attachToTask. by rewrite Hw, Hg, Ha. Qed.

(** While a start or an attach of the binding is in flight, the evaluation
    of a task that is not CLOSED does nothing and returns. *)
Lemma update_busy w wd g st :
  widgets st !! w = Some wd ->
  guard wd = Some g ->
  taskStateIs (task g) CLOSED = false ->
  starting g = true \/ attachingToTask g = true ->
  update w st = (st, Normal tt).
Proof.
  intros Hw Hg Hc Hbusy. unfold update. rewrite Hw, Hg, Hc.
  destruct Hbusy as [-> | ->]; by rewrite ?orb_true_r.
Qed.

(** The evaluation never throws: it only calls [start] and [attachToTask]
    when their flags are clear. *)
Lemma update_returns w st : exists st', update w st = (st', Normal tt).
Proof.
  unfold update.
  destruct (widgets st !! w) as [wd|] eqn:Hw; [|by eexists].
  destruct (guard wd) as [g|] eqn:Hg; [|by eexists].
  destruct (taskStateIs (task g) CLOSED); [by eexists|].
  destruct (starting g) eqn:Hs; [rewrite ?orb_true_r; by eexists|].
  destruct (attachingToTask g) eqn:Ha; [rewrite ?orb_true_r; by eexists|].
  destruct (_ || _); [by eexists|].
  destruct (negb _).
  - unfold bind. rewrite (start_issues w wd g) by done. by eexists.
  - unfold bind. rewrite (attachToTask_issues w wd g) by done. by eexists.
Qed.

Lemma applyTask_returns w g updated st :
  getGuard w st = Some g ->
  exists st', applyTask w updated st = (st', Normal tt).
Proof. intros Hg. unfold applyTask. rewrite Hg. apply update_returns. Qed.

(** C6: a binding whose task is RUNNING with a remote terminal, whose
    surface has a valid remote terminal id, and with neither flag set:
    the evaluation issues exactly one attach, with the terminal id of the
    surface and the remote terminal of the task, and sets [attachingToTask];
    evaluating again while that attach is in flight issues nothing. *)
Theorem update_attaches st w wd g t remoteTerminal :
  widgets st !! w = Some wd ->
  guard wd = Some g ->
  task g = Some t ->
  task_state t = RUNNING ->
  task_terminal t = Some remoteTerminal ->
  remoteTerminal <> "" ->
  validateId (terminalId wd) = true ->
  starting g = false ->
  attachingToTask g = false ->
  exists st',
    update w st = (st', Normal tt) /\
    trace st' = trace st ++ [Call (ServerAttach (terminalId wd) remoteTerminal)] /\
    getGuard w st' = Some (setAttachingToTask true g) /\
    update w st' = (st', Normal tt).
Proof.
  intros Hw Hg Ht Hstate Hterm Hne Hvalid Hs Ha.
  exists (attachIssued w g (terminalId wd) remoteTerminal st).
  assert (Hw' : widgets (attachIssued w g (terminalId wd) remoteTerminal st) !! w
                = Some (withGuard (Some (setAttachingToTask true g)) wd)).
  { simpl. by rewrite list_lookup_alter_eq, Hw. }
  split; [|split; [|split]].
  - unfold update. rewrite Hw, Hg, Ht.
    rewrite !(taskStateIs_Some t RUNNING) by done. simpl.
    rewrite Hterm, (truthy_Some _ Hne), Hs, Ha, Hvalid. simpl.
    unfold bind. by rewrite (attachToTask_issues w wd g) by done.
  - done.
  - unfold getGuard. by rewrite Hw'.
  - eapply update_busy; [exact Hw'|done| |by right].
    simpl. rewrite Ht. by rewrite (taskStateIs_Some t RUNNING).
Qed.

End GuardFacts.

Lemma update_attaches_witness :
  exists st',
    @update Samples.theia 0 Samples.openedState = (st', Normal tt) /\
    trace st' = trace Samples.openedState ++ [Call (ServerAttach 5 "r1")] /\
    getGuard 0 st' = Some (setAttachingToTask true Samples.openedGuard) /\
    @update Samples.theia 0 st' = (st', Normal tt).
Proof.
  apply (@update_attaches Samples.theia Samples.openedState 0
           Samples.openedWidget Samples.openedGuard Samples.running1 "r1");
    try (vm_compute; reflexivity); done.
Defined.


(** ** The wrapped [attachTerminal] *)

Section AttachTerminalFacts.
Context `{Environment}.

Lemma attachTerminal_issues w id st :
  attachTerminal w id st = (attachTerminalIssued w id st, S (length (heap st))).
Proof.
  unfold attachTerminal, newPromise.
  by rewrite (then_last (heap st) [] true _ _ (length (heap st))).
Qed.

(** C10: the wrapped [attachTerminal] calls the widget's own
    [attachTerminal]; when that resolves with a valid id the wrapper's
    promise is fulfilled with the same id and nothing else is called; when
    it resolves with an invalid id, [createTerminal] is called once, the
    wrapper's promise is not settled with the invalid id, and it settles as
    the promise of [createTerminal] does. *)
Theorem attachTerminal_wrapper st w id :
  microtasks st = [] ->
  exists st1,
    attachTerminal w id st = (st1, S (length (heap st))) /\
    calls (trace st1) = calls (trace st) ++ [AttachTerminal w id] /\
    (forall terminalId, validateValue terminalId = true ->
       let st2 := drain 1 (handle (EvSettle (length (heap st)) (Fulfilled terminalId)) st1) in
       heap st2 !! S (length (heap st))
         = Some {| settled := Some (Fulfilled terminalId); reactions := [];
                   external := false |} /\
       calls (trace st2) = calls (trace st1)) /\
    (forall terminalId, validateValue terminalId = false ->
       let st2 := drain 1 (handle (EvSettle (length (heap st)) (Fulfilled terminalId)) st1) in
       calls (trace st2) = calls (trace st1) ++ [CreateTerminal w] /\
       settled <$> heap st2 !! S (length (heap st)) = Some None /\
       forall o,
         let st3 := drain 1 (handle (EvSettle (S (S (length (heap st)))) o) st2) in
         heap st3 !! S (length (heap st))
           = Some {| settled := Some o; reactions := []; external := false |} /\
         calls (trace st3) = calls (trace st2)).
Proof.
  intros Hm. exists (attachTerminalIssued w id st).
  split; [apply attachTerminal_issues|]. split.
  { unfold calls. simpl. by rewrite omap_app. }
  split.
  - intros v Hv. cbn zeta. unfold handle.
    rewrite (isExternalPending_at (heap st) _ _ (length (heap st))) by done.
    rewrite (settle_at (heap st) _ true _ _ (length (heap st))) by done.
    simpl. rewrite Hm. simpl. unfold runJob. simpl. rewrite Hv. simpl.
    destruct v as [| |n| | |]; try discriminate Hv. simpl.
    rewrite (settle_at (heap st ++ [{| settled := Some (Fulfilled (VNum n));
                                       reactions := []; external := true |}])
               [] false [] _ (S (length (heap st)))).
    + simpl. split.
      * rewrite <- app_assoc. simpl. apply lookup_second.
      * unfold calls. rewrite !omap_app. simpl. by rewrite !app_nil_r.
    + rewrite length_app. simpl. lia.
    + simpl. by rewrite <- app_assoc.
  - intros v Hv. cbn zeta. unfold handle.
    rewrite (isExternalPending_at (heap st) _ _ (length (heap st))) by done.
    rewrite (settle_at (heap st) _ true _ _ (length (heap st))) by done.
    simpl. rewrite Hm. simpl. unfold runJob. simpl. rewrite Hv. simpl.
    rewrite length_app. simpl. rewrite Nat.add_comm. simpl.
    rewrite <- app_assoc. simpl.
    rewrite (addReaction_at
               (heap st ++ [{| settled := Some (Fulfilled v); reactions := [];
                               external := true |};
                            {| settled := None; reactions := []; external := false |}])
               [] true [] _ (S (S (length (heap st))))); cycle 1.
    { rewrite length_app. simpl. lia. }
    { simpl. by rewrite <- app_assoc. }
    simpl. rewrite <- app_assoc. simpl.
    split; [|split].
    + unfold calls. rewrite !omap_app. simpl. by rewrite !app_nil_r.
    + rewrite <- (app_assoc (heap st)). simpl. by rewrite lookup_second.
    + intros o.
      set (pass := {| onFulfilled := None; onRejected := None;
                      derived := Some (S (length (heap st))) |}).
      set (h2 := heap st ++ [{| settled := Some (Fulfilled v); reactions := [];
                                external := true |};
                             {| settled := None; reactions := []; external := false |}]).
      assert (Hlen : S (S (length (heap st))) = length h2).
      { subst h2. rewrite length_app. simpl. lia. }
      rewrite (isExternalPending_at h2 [pass] [] _) by done.
      rewrite (settle_at h2 [pass] true [] _ _) by done.
      assert (Hsettle : forall st',
                heap st' = h2 ++ [{| settled := Some o; reactions := []; external := true |}] ->
                heap (settle (S (length (heap st))) o st') !! S (length (heap st))
                  = Some {| settled := Some o; reactions := []; external := false |}).
      { intros st' Hst'.
        rewrite (settle_at (heap st ++ [{| settled := Some (Fulfilled v);
                                           reactions := []; external := true |}])
                   [] false [{| settled := Some o; reactions := []; external := true |}]
                   _ (S (length (heap st)))).
        - simpl. rewrite <- (app_assoc (heap st)). simpl. apply lookup_second.
        - rewrite length_app. simpl. lia.
        - rewrite Hst'. subst h2. simpl. by rewrite <- !app_assoc. }
      destruct o as [v'|e]; simpl; unfold runJob; simpl;
        (split; [by apply Hsettle
               | rewrite trace_settle; simpl; by rewrite <- !app_assoc ]).
Qed.

End AttachTerminalFacts.

Lemma attachTerminal_wrapper_witness :
  microtasks initial = [] /\
  exists st1,
    attachTerminal 0 7 initial = (st1, 3) /\
    calls (trace st1) = [AttachTerminal 0 7] /\
    (forall terminalId, @validateValue Samples.theia terminalId = true ->
       let st2 := @drain Samples.theia 1
                    (@handle Samples.theia (EvSettle 2 (Fulfilled terminalId)) st1) in
       heap st2 !! 3
         = Some {| settled := Some (Fulfilled terminalId); reactions := [];
                   external := false |} /\
       calls (trace st2) = calls (trace st1)) /\
    (forall terminalId, @validateValue Samples.theia terminalId = false ->
       let st2 := @drain Samples.theia 1
                    (@handle Samples.theia (EvSettle 2 (Fulfilled terminalId)) st1) in
       calls (trace st2) = calls (trace st1) ++ [CreateTerminal 0] /\
       settled <$> heap st2 !! 3 = Some None /\
       forall o,
         let st3 := @drain Samples.theia 1 (@handle Samples.theia (EvSettle 4 o) st2) in
         heap st3 !! 3
           = Some {| settled := Some o; reactions := []; external := false |} /\
         calls (trace st3) = calls (trace st2)).
Proof.
  split; [reflexivity|].
  apply (@attachTerminal_wrapper Samples.theia initial 0 7). reflexivity.
Defined.

(** ** The flags of the guard *)

Section FlagFacts.
Context `{Environment}.

Lemma drain_step n j rest st :
  microtasks st = j :: rest ->
  drain (S n) st = drain n (runJob j (set_microtasks rest st)).
Proof. intros Hm. simpl. by rewrite Hm. Qed.

Lemma drain_done n st : microtasks st = [] -> drain n st = st.
Proof. intros Hm. destruct n; simpl; [done|]. by rewrite Hm. Qed.

Lemma resetAttachingToTask_at w wd g st :
  widgets st !! w = Some wd ->
  guard wd = Some g ->
  resetAttachingToTask w st = setGuard w (setAttachingToTask false g) st.
Proof. intros Hw Hg. unfold resetAttachingToTask, getGuard. by rewrite Hw; simpl; rewrite Hg. Qed.

Lemma resetStarting_at w wd g st :
  widgets st !! w = Some wd ->
  guard wd = Some g ->
  resetStarting w st = setGuard w (setStarting false g) st.
Proof. intros Hw Hg. unfold resetStarting, getGuard. by rewrite Hw; simpl; rewrite Hg. Qed.

(** [attachingToTask] is reset when [attach] completes, either way, and the
    promise of [attachToTask] is rejected with the failure of [attach]. *)
Lemma attach_completion st w wd g tid remoteTerminal o :
  widgets st !! w = Some wd ->
  guard wd = Some g ->
  attachingToTask g = false ->
  microtasks st = [] ->
  let st1 := attachIssued w g tid remoteTerminal st in
  let st2 := drain 2 (handle (EvSettle (length (heap st)) o) st1) in
  attachingToTask <$> getGuard w st1 = Some true /\
  attachingToTask <$> getGuard w st2 = Some false /\
  microtasks st2 = [] /\
  heap st2 !! S (S (length (heap st)))
    = Some {| settled := Some match o with
                              | Fulfilled _ => Fulfilled (VBool false)
                              | Rejected e => Rejected e
                              end;
              reactions := []; external := false |}.
Proof.
  intros Hw Hg Ha Hm st1 st2.
  set (g1 := setAttachingToTask true g).
  assert (Hw1 : widgets st1 !! w = Some (withGuard (Some g1) wd)).
  { simpl. by rewrite list_lookup_alter_eq, Hw. }
  split. { unfold getGuard. by rewrite Hw1. }
  subst st2. unfold handle.
  rewrite (isExternalPending_at (heap st) _ _ (length (heap st))) by done.
  rewrite (settle_at (heap st) _ true _ _ (length (heap st))) by done.
  set (c0 := {| settled := Some o; reactions := []; external := true |}).
  set (r2 := {| onFulfilled := None; onRejected := Some (AttachFailed w);
                derived := Some (S (S (length (heap st)))) |}).
  set (pending := {| settled := None; reactions := []; external := false |}).
  assert (Hlen1 : S (length (heap st)) = length (heap st ++ [c0])).
  { rewrite length_app. simpl. lia. }
  erewrite drain_step; cycle 1.
  { simpl. rewrite Hm. reflexivity. }
  set (o' := match o with
             | Fulfilled _ => Fulfilled (VBool false)
             | Rejected e => Rejected e
             end).
  set (c1 := {| settled := Some o'; reactions := []; external := false |}).
  (* after the first job the middle promise is settled and the flag is
     clear on the success path *)
  match goal with |- context [drain 1 ?s] => set (sB := s) end.
  assert (HB : heap sB = heap st ++ [c0; c1; pending] /\
               microtasks sB = [jobFor o' r2] /\
               exists gB, widgets sB !! w = Some (withGuard (Some gB) wd) /\
                          attachingToTask gB = match o with
                                               | Fulfilled _ => false
                                               | Rejected _ => true
                                               end).
  { subst sB. unfold runJob. destruct o as [v|e]; simpl.
    - rewrite (resetAttachingToTask_at w (withGuard (Some g1) wd) g1) by done.
      rewrite (settle_at (heap st ++ [c0]) [r2] false [pending] _
                 (S (length (heap st))) _ Hlen1); cycle 1.
      { simpl. by rewrite <- app_assoc. }
      simpl. rewrite <- app_assoc. simpl. split; [done|]. split; [done|].
      eexists. rewrite !list_lookup_alter_eq, Hw. simpl. split; [reflexivity|done].
    - rewrite (settle_at (heap st ++ [c0]) [r2] false [pending] _
                 (S (length (heap st))) _ Hlen1); cycle 1.
      { simpl. by rewrite <- app_assoc. }
      simpl. rewrite <- app_assoc. simpl. split; [done|]. split; [done|].
      exists g1. rewrite !list_lookup_alter_eq, Hw. done. }
  destruct HB as (HhB & HmB & gB & HwB & HaB).
  erewrite drain_step by exact HmB.
  clearbody sB.
  assert (Hlen2 : S (S (length (heap st))) = length (heap st ++ [c0; c1])).
  { rewrite length_app. simpl. lia. }
  match goal with |- context [drain 0 ?s] => set (sC := s) end.
  assert (HC : heap sC = heap st ++ [c0; c1; c1] /\
               microtasks sC = [] /\
               attachingToTask <$> getGuard w sC = Some false).
  { subst sC. unfold runJob, getGuard. destruct o as [v|e]; simpl.
    - rewrite (settle_at (heap st ++ [c0; c1]) [] false [] _
                 (S (S (length (heap st)))) _ Hlen2); cycle 1.
      { simpl. by rewrite HhB, <- app_assoc. }
      simpl. rewrite <- app_assoc. simpl. split; [done|]. split; [done|].
      by rewrite HwB; simpl; rewrite HaB.
    - rewrite (resetAttachingToTask_at w (withGuard (Some gB) wd) gB) by done.
      rewrite (settle_at (heap st ++ [c0; c1]) [] false [] _
                 (S (S (length (heap st)))) _ Hlen2); cycle 1.
      { simpl. by rewrite HhB, <- app_assoc. }
      simpl. rewrite <- app_assoc. simpl. split; [done|]. split; [done|].
      by rewrite list_lookup_alter_eq, HwB. }
  destruct HC as (HhC & HmC & HaC).
  simpl. split; [done|]. split; [done|].
  rewrite HhC. apply lookup_third.
Qed.

(** The promise of the widget's [start] has no reaction of the wrapper:
    when it settles, [starting] stays set. *)
Lemma start_completion st w wd g id o n :
  widgets st !! w = Some wd ->
  guard wd = Some g ->
  starting g = false ->
  microtasks st = [] ->
  let st1 := startIssued w g id st in
  let st2 := drain n (handle (EvSettle (length (heap st)) o) st1) in
  starting <$> getGuard w st1 = Some true /\
  starting <$> getGuard w st2 = Some true /\
  trace st2 = trace st1.
Proof.
  intros Hw Hg Hs Hm st1 st2.
  assert (Hw1 : widgets st1 !! w = Some (withGuard (Some (setStarting true g)) wd)).
  { simpl. by rewrite list_lookup_alter_eq, Hw. }
  split. { unfold getGuard. by rewrite Hw1. }
  subst st2. unfold handle.
  rewrite (isExternalPending_at (heap st) [] [] (length (heap st))) by done.
  rewrite (settle_at (heap st) [] true [] _ (length (heap st))) by done.
  rewrite drain_done by (simpl; by rewrite Hm).
  split; [|done]. unfold getGuard. simpl. by rewrite list_lookup_alter_eq, Hw.
Qed.

(** After an evaluation that began with [starting] clear, the flag is set
    only if the evaluation has issued a start. *)
Lemma update_starting w wd g st :
  widgets st !! w = Some wd ->
  guard wd = Some g ->
  starting g = false ->
  exists st' g',
    update w st = (st', Normal tt) /\
    getGuard w st' = Some g' /\
    (starting g' = false \/
     (starting g' = true /\ trace st' = trace st ++ [Call (Start w None)])).
Proof.
  intros Hw Hg Hs. unfold update. rewrite Hw, Hg.
  destruct (taskStateIs (task g) CLOSED).
  { eexists _, g. split; [reflexivity|]. split; [|by left].
    unfold getGuard, dispose, signalDispose. simpl. rewrite Hw.
    destruct (isDisposed wd); simpl.
    - by rewrite Hw; simpl.
    - rewrite Hg. simpl. by rewrite list_lookup_alter_eq, Hw; simpl. }
  destruct (_ || _) eqn:Hbusy.
  { eexists _, g. split; [reflexivity|]. split; [|by left].
    unfold getGuard. by rewrite Hw. }
  apply orb_false_elim in Hbusy as [_ Ha].
  destruct (negb _).
  - unfold bind. rewrite (start_issues w wd g) by done.
    eexists _, (setStarting true g). split; [reflexivity|]. split; [|right; done].
    unfold getGuard. simpl. by rewrite !list_lookup_alter_eq, Hw.
  - unfold bind. rewrite (attachToTask_issues w wd g) by done.
    eexists _, (setAttachingToTask true g). split; [reflexivity|]. split; [|by left].
    unfold getGuard. simpl. by rewrite !list_lookup_alter_eq, Hw.
Qed.

(** The open and the open-failure signal reset [starting] and evaluate the
    guard again: afterwards the flag is set only if that evaluation has
    issued a new start. *)
Lemma open_signal st w wd g tid :
  widgets st !! w = Some wd ->
  guard wd = Some g ->
  let st' := handle (EvDidOpen w tid) st in
  handle (EvDidOpenFailure w tid) st = st' /\
  exists g', getGuard w st' = Some g' /\
             (starting g' = false \/
              (starting g' = true /\ trace st' = trace st ++ [Call (Start w None)])).
Proof.
  intros Hw Hg st'. split; [done|]. subst st'. unfold handle, onDidOpenListeners.
  set (wd0 := withTerminalId tid wd).
  assert (Hw0 : widgets (setTerminalId w tid st) !! w = Some wd0).
  { simpl. by rewrite list_lookup_alter_eq, Hw. }
  rewrite (resetStarting_at w wd0 g) by done.
  set (g0 := setStarting false g).
  set (st0 := setGuard w g0 (setTerminalId w tid st)).
  assert (Hw0' : widgets st0 !! w = Some (withGuard (Some g0) wd0)).
  { subst st0. by apply widgets_setGuard. }
  destruct (update_starting w _ g0 st0 Hw0' eq_refl eq_refl)
    as (st' & g' & -> & Hg' & Hcases).
  exists g'. split; [done|]. done.
Qed.

(** C5, as the code has it: [attachingToTask] is set while [attach] is in
    flight and reset when it completes, on the success and on the failure
    path, and the failure is rethrown (the promise of [attachToTask] is
    rejected with it).  [starting] is set by the wrapped [start] and reset
    by the open and open-failure signals of the surface, which evaluate the
    guard again; the settling of the promise of [start] does not reset it. *)
Theorem guard_flags_reset st w wd g :
  widgets st !! w = Some wd ->
  guard wd = Some g ->
  microtasks st = [] ->
  (attachingToTask g = false ->
   forall tid remoteTerminal o,
     let st1 := attachIssued w g tid remoteTerminal st in
     let st2 := drain 2 (handle (EvSettle (length (heap st)) o) st1) in
     attachingToTask <$> getGuard w st1 = Some true /\
     attachingToTask <$> getGuard w st2 = Some false /\
     microtasks st2 = [] /\
     heap st2 !! S (S (length (heap st)))
       = Some {| settled := Some match o with
                                 | Fulfilled _ => Fulfilled (VBool false)
                                 | Rejected e => Rejected e
                                 end;
                 reactions := []; external := false |}) /\
  (starting g = false ->
   forall id o n,
     let st1 := startIssued w g id st in
     let st2 := drain n (handle (EvSettle (length (heap st)) o) st1) in
     starting <$> getGuard w st1 = Some true /\
     starting <$> getGuard w st2 = Some true /\
     trace st2 = trace st1) /\
  (forall tid,
     let st' := handle (EvDidOpen w tid) st in
     handle (EvDidOpenFailure w tid) st = st' /\
     exists g', getGuard w st' = Some g' /\
                (starting g' = false \/
                 (starting g' = true /\ trace st' = trace st ++ [Call (Start w None)]))).
Proof.
  intros Hw Hg Hm. split; [|split].
  - intros Ha tid remoteTerminal o. by apply (attach_completion st w wd g).
  - intros Hs id o n. by apply (start_completion st w wd g).
  - intros tid. by apply (open_signal st w wd g).
Qed.

End FlagFacts.

Lemma guard_flags_reset_witness :
  starting <$> getGuard 0
    (@drain Samples.theia 3
       (@handle Samples.theia (EvSettle 2 (Rejected "failed"))
          (startIssued 0 Samples.needsStartGuard None Samples.needsStartState)))
  = Some true.
Proof.
  pose proof (@guard_flags_reset Samples.theia Samples.needsStartState 0
                Samples.needsStartWidget Samples.needsStartGuard
                eq_refl eq_refl eq_refl) as (_ & Hstart & _).
  exact (proj1 (proj2 (Hstart eq_refl None (Rejected "failed") 3))).
Defined.

(** The claim C5 as it is written fails for [starting]: in [startingState]
    promise [3] is the pending promise of the terminal's [start]; when it
    settles, either way, [starting] is still set. *)
Lemma starting_survives_start_completion :
  isExternalPending 3 Samples.startingState = true /\
  starting <$> getGuard 0 Samples.startingState = Some true /\
  starting <$> getGuard 0
    (@run Samples.theia 8 [EvSettle 3 (Rejected "failed")] Samples.startingState)
  = Some true /\
  starting <$> getGuard 0
    (@run Samples.theia 8 [EvSettle 3 (Fulfilled (VNum 5))] Samples.startingState)
  = Some true.
Proof. repeat split; vm_compute; reflexivity. Qed.

(** ** CLOSED tasks and the table *)

Section ClosedFacts.
Context `{Environment}.

Lemma signalDispose_live w wd st :
  widgets st !! w = Some wd ->
  isDisposed wd = false ->
  is_Some (guard wd) ->
  signalDispose w st =
  set_taskTerminals (delete (widget_id wd) (taskTerminals st))
    (set_widgets (alter withDisposed w (widgets st)) st).
Proof.
  intros Hw Hd [g Hg]. unfold signalDispose. by rewrite Hw, Hd, Hg.
Qed.

(** Changing one widget, not its id, liveness or being wrapped, keeps the
    table consistent. *)
Lemma tableConsistent_change st st' w wd wd' :
  tableConsistent st ->
  taskTerminals st' = taskTerminals st ->
  widgets st !! w = Some wd ->
  widgets st' !! w = Some wd' ->
  (forall w', w' <> w -> widgets st' !! w' = widgets st !! w') ->
  widget_id wd' = widget_id wd ->
  isDisposed wd' = isDisposed wd ->
  (is_Some (guard wd) -> is_Some (guard wd')) ->
  tableConsistent st'.
Proof.
  intros Hc Ht Hw Hw' Hother Hid Hdis Hguard k w0 Hk.
  rewrite Ht in Hk. destruct (Hc k w0 Hk) as (wd0 & Hw0 & Hid0 & Hd0 & Hg0).
  destruct (decide (w0 = w)) as [->|Hne].
  - assert (wd0 = wd) as -> by congruence.
    exists wd'. repeat split; [done|congruence|congruence|by apply Hguard].
  - exists wd0. by rewrite Hother.
Qed.

(** What applying a task to a bound widget does: it never throws; a
    CLOSED task disposes the widget at once, whatever the flags, and the
    binding leaves the table; any other task disposes nothing. *)
Lemma applyTask_bound st k w t :
  tableConsistent st ->
  taskTerminals st !! k = Some w ->
  exists st',
    applyTask w t st = (st', Normal tt) /\
    tableConsistent st' /\
    (forall w', w' <> w -> widgets st' !! w' = widgets st !! w') /\
    if bool_decide (task_state t = CLOSED)
    then taskTerminals st' = delete k (taskTerminals st) /\
         trace st' = trace st ++ [Call (Dispose w)] /\
         isDisposed <$> widgets st' !! w = Some true
    else taskTerminals st' = taskTerminals st /\
         isDisposed <$> widgets st' !! w = Some false /\
         exists es, trace st' = trace st ++ es /\
                    forall w', Call (Dispose w') ∉ es.
Proof.
  intros Hc Hk. destruct (Hc k w Hk) as (wd & Hw & Hid & Hd & [g Hg]).
  unfold applyTask, getGuard. rewrite Hw. simpl. rewrite Hg.
  set (g0 := setTask t g). set (st0 := setGuard w g0 st).
  assert (Hw0 : widgets st0 !! w = Some (withGuard (Some g0) wd)).
  { by apply widgets_setGuard. }
  assert (Hother0 : forall w', w' <> w -> widgets st0 !! w' = widgets st !! w').
  { intros w' Hne. by apply widgets_setGuard_ne. }
  assert (Hc0 : tableConsistent st0).
  { by eapply (tableConsistent_change st st0 w wd). }
  unfold update. rewrite Hw0. cbn [guard withGuard]. simpl taskStateIs.
  destruct (bool_decide (task_state t = CLOSED)) eqn:Hclosed.
  - eexists. split; [reflexivity|].
    rewrite (signalDispose_live w (withGuard (Some g0) wd)) by done.
    simpl. rewrite Hid. split; [|split; [|split; [|split]]].
    + intros k' w' Hk'. simpl in Hk'.
      apply lookup_delete_Some in Hk' as [Hne Hk'].
      destruct (Hc k' w' Hk') as (wd' & Hw' & Hid' & Hd' & Hg').
      assert (w' <> w) by (intros ->; congruence).
      exists wd'. simpl. by rewrite !list_lookup_alter_ne.
    + intros w' Hne. by rewrite !list_lookup_alter_ne.
    + done.
    + done.
    + by rewrite !list_lookup_alter_eq, Hw.
  - destruct (_ || _) eqn:Hbusy.
    { exists st0. split; [done|]. split; [done|]. split; [done|].
      split; [done|]. split; [rewrite Hw0; simpl; by rewrite Hd|].
      exists []. split; [by rewrite app_nil_r|]. intros w'. apply not_elem_of_nil. }
    apply orb_false_elim in Hbusy as [Hbusy Ha].
    apply orb_false_elim in Hbusy as [_ Hs].
    destruct (negb _).
    + unfold bind. rewrite (start_issues w _ g0) by done.
      eexists. split; [reflexivity|].
      assert (Hw1 : widgets (startIssued w g0 None st0) !! w
                    = Some (withGuard (Some (setStarting true g0)) wd)).
      { simpl. by rewrite !list_lookup_alter_eq, Hw. }
      split; [|split; [|split; [|split]]].
      * eapply (tableConsistent_change st0 _ w _ _ Hc0); try done.
        intros w' Hne. simpl. by rewrite list_lookup_alter_ne.
      * intros w' Hne. simpl. by rewrite !list_lookup_alter_ne.
      * done.
      * rewrite Hw1. simpl. by rewrite Hd.
      * eexists. split; [reflexivity|].
        intros w' Hin. apply list_elem_of_singleton in Hin. discriminate Hin.
    + unfold bind. rewrite (attachToTask_issues w _ g0) by done.
      eexists. split; [reflexivity|].
      assert (Hw1 : forall tid r, widgets (attachIssued w g0 tid r st0) !! w
                    = Some (withGuard (Some (setAttachingToTask true g0)) wd)).
      { intros tid r. simpl. by rewrite !list_lookup_alter_eq, Hw. }
      split; [|split; [|split; [|split]]].
      * eapply (tableConsistent_change st0 _ w _ _ Hc0); try done.
        intros w' Hne. simpl. by rewrite list_lookup_alter_ne.
      * intros w' Hne. simpl. by rewrite !list_lookup_alter_ne.
      * done.
      * rewrite Hw1. simpl. by rewrite Hd.
      * eexists. split; [reflexivity|].
        intros w' Hin. apply list_elem_of_singleton in Hin. discriminate Hin.
Qed.

Lemma disposals_app w tr es :
  disposals w (tr ++ es) = disposals w tr + disposals w es.
Proof. unfold disposals. by rewrite filter_app, length_app. Qed.

Lemma disposals_none w es :
  Call (Dispose w) ∉ es -> disposals w es = 0.
Proof.
  unfold disposals. induction es as [|e es IH]; [done|].
  intros Hnot. apply not_elem_of_cons in Hnot as [Hne Hnot].
  rewrite filter_cons_False by done. by apply IH.
Qed.

Lemma disposals_other w w' : w' <> w -> disposals w [Call (Dispose w')] = 0.
Proof.
  intros Hne. apply disposals_none. intros Hin.
  apply list_elem_of_singleton in Hin. congruence.
Qed.

(** The body of the loop of [updateTerminals]. *)
Lemma updateTerminals_cons t rest st :
  updateTerminals (t :: rest) st =
  updateTerminals rest
    match taskTerminals st !! Ident.toTerminalId (task_id t) with
    | Some terminal =>
        tryCatch (applyTask terminal t)
          (fun e => log (Call (ConsoleError "Failed to update Gitpod task terminal:" e)))
          st
    | None => st
    end.
Proof. done. Qed.

Section OneBinding.
Variables (id : string) (w : wid).
Local Abbreviation live := (live id w).
Local Abbreviation gone := (gone id w).

Lemma gone_step n t rest st :
  gone n st ->
  exists st', updateTerminals (t :: rest) st = updateTerminals rest st' /\ gone n st'.
Proof.
  intros (Hc & Hk & Hd & Hn). rewrite updateTerminals_cons.
  destruct (taskTerminals st !! Ident.toTerminalId (task_id t)) as [w'|] eqn:Hk';
    [|exists st; split; [done|by unfold gone]].
  destruct (applyTask_bound st _ w' t Hc Hk') as (st' & Happly & Hc' & Hother & Heff).
  exists st'. unfold tryCatch. rewrite Happly. split; [done|].
  assert (Hne : w <> w').
  { intros <-. destruct (Hc _ _ Hk') as (wd & Hw & _ & Hlive & _).
    rewrite Hw in Hd. simpl in Hd. congruence. }
  split; [done|]. rewrite (Hother w Hne).
  destruct (bool_decide (task_state t = CLOSED)).
  - destruct Heff as (-> & -> & _). split; [|split; [done|]].
    + apply lookup_delete_None. by right.
    + rewrite disposals_app, disposals_other by done. lia.
  - destruct Heff as (-> & _ & es & -> & Hes). split; [done|]. split; [done|].
    rewrite disposals_app, (disposals_none w es) by apply Hes. lia.
Qed.

Lemma gone_updateTerminals n tasks st :
  gone n st -> gone n (updateTerminals tasks st).
Proof.
  revert st. induction tasks as [|t rest IH]; intros st Hgone; [done|].
  destruct (gone_step n t rest st Hgone) as (st' & -> & Hgone'). by apply IH.
Qed.

Lemma live_step_other n t rest st :
  live n st ->
  task_id t <> id ->
  exists st', updateTerminals (t :: rest) st = updateTerminals rest st' /\ live n st'.
Proof.
  intros (Hc & Hk & Hn) Hid. rewrite updateTerminals_cons.
  destruct (taskTerminals st !! Ident.toTerminalId (task_id t)) as [w'|] eqn:Hk';
    [|exists st; split; [done|by unfold live]].
  destruct (applyTask_bound st _ w' t Hc Hk') as (st' & Happly & Hc' & Hother & Heff).
  exists st'. unfold tryCatch. rewrite Happly. split; [done|].
  assert (Hkey : Ident.toTerminalId (task_id t) <> Ident.toTerminalId id).
  { intros Heq. by apply Ident_toTerminalId_inj in Heq. }
  assert (Hne : w' <> w).
  { intros ->. destruct (Hc _ _ Hk') as (wd & Hw & Hid1 & _).
    destruct (Hc _ _ Hk) as (wd2 & Hw2 & Hid2 & _). congruence. }
  split; [done|].
  destruct (bool_decide (task_state t = CLOSED)).
  - destruct Heff as (-> & -> & _). split.
    + by rewrite lookup_delete_ne.
    + rewrite disposals_app, disposals_other by done. lia.
  - destruct Heff as (-> & _ & es & -> & Hes). split; [done|].
    rewrite disposals_app, (disposals_none w es) by apply Hes. lia.
Qed.

Lemma live_step_closed n t rest st :
  live n st ->
  task_id t = id ->
  task_state t = CLOSED ->
  exists st', updateTerminals (t :: rest) st = updateTerminals rest st' /\ gone n st'.
Proof.
  intros (Hc & Hk & Hn) Hid Hclosed. rewrite updateTerminals_cons, Hid, Hk.
  destruct (applyTask_bound st _ w t Hc Hk) as (st' & Happly & Hc' & Hother & Heff).
  exists st'. unfold tryCatch. rewrite Happly. split; [done|].
  rewrite bool_decide_eq_true_2 in Heff by done.
  destruct Heff as (Ht & Htr & Hd). split; [done|]. split; [|split; [done|]].
  - rewrite Ht. apply lookup_delete_eq.
  - rewrite Htr, disposals_app. unfold disposals at 2. simpl.
    rewrite filter_cons_True by done. simpl. lia.
Qed.

Lemma live_updateTerminals n tasks st :
  live n st ->
  reportsClosed id tasks ->
  gone n (updateTerminals tasks st).
Proof.
  intros Hlive [[t0 [Hin Hid0]] Hall]. revert st Hlive.
  induction tasks as [|t rest IH]; intros st Hlive.
  { by apply elem_of_nil in Hin. }
  destruct (decide (task_id t = id)) as [Hid|Hid].
  - destruct (live_step_closed n t rest st Hlive Hid) as (st' & -> & Hgone).
    { apply Hall; [by left|done]. }
    by apply gone_updateTerminals.
  - destruct (live_step_other n t rest st Hlive Hid) as (st' & -> & Hlive').
    apply IH; [| |done].
    + apply elem_of_cons in Hin as [->|Hin]; [done|done].
    + intros t' Hin'. apply Hall. by right.
Qed.

Lemma gone_applySnapshots n snapshots st :
  gone n st -> gone n (applySnapshots snapshots st).
Proof.
  revert st. induction snapshots as [|s rest IH]; intros st Hgone; [done|].
  simpl. apply IH. by apply gone_updateTerminals.
Qed.

End OneBinding.

End ClosedFacts.

Lemma startingState_table :
  taskTerminals Samples.startingState = {[ "gitpod-task-terminal:t1" := 0 ]}.
Proof. vm_compute. reflexivity. Qed.

Lemma startingState_consistent : tableConsistent Samples.startingState.
Proof.
  intros k w Hk. rewrite startingState_table in Hk.
  apply lookup_singleton_Some in Hk as [<- <-].
  eexists. split; [vm_compute; reflexivity|].
  repeat split. by eexists.
Qed.

Lemma reportsClosed_closed1 : reportsClosed "t1" [Samples.closed1].
Proof.
  split.
  - exists Samples.closed1. split; [by left|done].
  - intros t Hin _. apply list_elem_of_singleton in Hin. by subst t.
Qed.

(** ** The initial layout *)

Section LayoutFacts.
Context `{Environment}.

Lemma await_last h k p st :
  p = length h ->
  heap st = h ++ [{| settled := None; reactions := []; external := true |}] ->
  await p k st =
  set_heap (h ++ [{| settled := None; reactions := [awaiting k]; external := true |}]) st.
Proof.
  intros Hp Hh. unfold await. by rewrite (addReaction_at h [] true [] _ p).
Qed.






End LayoutFacts.


(** The scenario of the specification: the first snapshot holds the
    running task [t1], no surface exists; the layout creates the terminal
    [gitpod-task-terminal:t1] and places it at [bottom], [tab-after], and
    only then is the snapshot applied. *)
Example layout_scenario :
  trace (@run Samples.theia 8
           [EvDidChange [Samples.running1]; EvInitializeLayout;
            Samples.createTask1; EvSettle 3 (Fulfilled (VWidget 0))] initial)
  = [Enqueued 1 2;
     Call (NewTerminal (taskTerminalOptions Samples.running1 Samples.presentation1));
     Call (ActivateTerminal 0 None "bottom" "tab-after");
     LayoutResolved;
     Run 2; Call (Start 0 None); Ran 2 false].
Proof. vm_compute. reflexivity. Qed.

(** A creation that fails does not stop the loop: the terminal of the
    second task is still created. *)
Example layout_failure_isolated :
  calls (trace (@run Samples.theia 8
                  [EvDidChange [Samples.running1; Samples.running2];
                   EvInitializeLayout;
                   EvSettle 3 (Rejected "no terminal")] initial))
  = [NewTerminal (taskTerminalOptions Samples.running1 Samples.presentation1);
     ConsoleError "Failed to start Gitpod task terminal:" "no terminal";
     NewTerminal (taskTerminalOptions Samples.running2 Samples.presentation1)].
Proof. vm_compute. reflexivity. Qed.

Section DefaultTerminalFacts.
Context `{Environment}.

(** C9: the end of the initial layout, after the loop.  If the UI holds no
    terminal surface, [newTerminal({})] is called once, and when it
    resolves that terminal, which is no task terminal, is started and then
    opened, once each, and the layout is complete; if [newTerminal]
    rejects, so does the layout.  If the UI holds a surface, nothing is
    created.  With an empty first snapshot and no surface, in either order
    of snapshot and readiness, the calls are exactly these three. *)
Theorem default_terminal st :
  let st1 := layoutFinish st in
  let resolved := settle pendingInitializeLayout (Fulfilled VUndefined) st in
  (terminalsAll st = [] ->
   trace st1 = trace st ++ [LayoutResolved; Call (NewTerminal noOptions)] /\
   heap st1 = heap resolved ++ [{| settled := None;
                                   reactions := [awaiting ResumeLayoutDefault];
                                   external := true |}] /\
   layoutResult st1 = layoutResult st /\
   forall st2,
     (forall terminal wd,
        widgets st2 !! terminal = Some wd ->
        guard wd = None ->
        let st3 := runJob (jobFor (Fulfilled (VWidget terminal))
                             (awaiting ResumeLayoutDefault)) st2 in
        trace st3 = trace st2 ++ [Call (Start terminal None); Call (Open terminal)] /\
        layoutResult st3 = Some (Fulfilled VUndefined)) /\
     (forall e,
        runJob (jobFor (Rejected e) (awaiting ResumeLayoutDefault)) st2 =
        set_layoutResult (Some (Rejected e)) st2)) /\
  (terminalsAll st <> [] ->
   trace st1 = trace st ++ [LayoutResolved] /\
   heap st1 = heap resolved /\
   layoutResult st1 = Some (Fulfilled VUndefined)) /\
  (forall events,
     events = [EvDidChange []; EvInitializeLayout] \/
     events = [EvInitializeLayout; EvDidChange []] ->
     calls (trace (run 4 (events ++ [EvWillCreateWidget "terminal-0" None (-1);
                                     EvSettle 3 (Fulfilled (VWidget 0))]) initial))
     = [NewTerminal noOptions; Start 0 None; Open 0]).
Proof.
  intros st1 resolved.
  assert (Hall : terminalsAll (log LayoutResolved resolved) = terminalsAll st).
  { unfold terminalsAll, resolved. simpl. by rewrite widgets_settle. }
  split; [|split].
  - intros Hnone. subst st1. unfold layoutFinish. fold resolved.
    rewrite Hall, Hnone. simpl.
    unfold newTerminal, newPromise. cbn [fst snd].
    rewrite (await_last (heap resolved) _ (length (heap resolved))) by done.
    simpl. unfold resolved. rewrite trace_settle, layoutResult_settle.
    split; [by rewrite <- app_assoc|]. split; [done|]. split; [done|].
    intros st2. split.
    + intros terminal wd Hw Hg. unfold runJob. simpl.
      unfold resumeLayoutDefault, start. rewrite Hw, Hg. simpl.
      split; [by rewrite <- app_assoc|done].
    + intros e. done.
  - intros Hsome. subst st1. unfold layoutFinish. fold resolved. rewrite Hall.
    destruct (terminalsAll st) as [|wd l]; [done|]. simpl.
    unfold resolved. by rewrite trace_settle.
  - intros events [-> | ->]; vm_compute; reflexivity.
Qed.

End DefaultTerminalFacts.

Lemma default_terminal_witness :
  terminalsAll initial = [] /\
  trace (layoutFinish initial) = [LayoutResolved; Call (NewTerminal noOptions)].
Proof.
  split; [reflexivity|].
  exact (proj1 (proj1 (@default_terminal Samples.theia initial) eq_refl)).
Defined.

(** ** What the functions of the contribution do to the promises *)

Section EffectFacts.
Context `{Environment}.

Lemma effect_weaken st st' : effect false st st' -> effect true st st'.
Proof.
  induction 1.
  - apply effect_refl.
  - by eapply effect_trans.
  - by apply effect_frame.
  - by apply effect_call.
  - apply effect_new.
  - by apply effect_then.
  - by apply effect_await.
  - by apply effect_settle.
  - apply effect_tasks.
  - done.
  - done.
Qed.

Lemma effect_any layout st st' : effect false st st' -> effect layout st st'.
Proof. destruct layout; [apply effect_weaken|done]. Qed.

(** Changing a widget, not its id, liveness or being wrapped, keeps the
    table consistent. *)
Lemma tableConsistent_alter f w st :
  (forall wd, widget_id (f wd) = widget_id wd /\
              isDisposed (f wd) = isDisposed wd /\
              (is_Some (guard wd) -> is_Some (guard (f wd)))) ->
  tableConsistent st ->
  tableConsistent (set_widgets (alter f w (widgets st)) st).
Proof.
  intros Hf Hc k w0 Hk. simpl in Hk.
  destruct (Hc k w0 Hk) as (wd0 & Hw0 & Hid0 & Hd0 & Hg0). simpl.
  destruct (decide (w0 = w)) as [->|Hne].
  - exists (f wd0). rewrite list_lookup_alter_eq, Hw0.
    destruct (Hf wd0) as (Hid & Hd & Hg).
    repeat split; [congruence|congruence|by apply Hg].
  - exists wd0. by rewrite list_lookup_alter_ne.
Qed.

Lemma tableConsistent_setGuard w g st :
  tableConsistent st -> tableConsistent (setGuard w g st).
Proof. apply tableConsistent_alter. intros wd. simpl. repeat split. by eexists. Qed.

(** A widget that is disposed leaves the table with its entry. *)
Lemma tableConsistent_signalDispose w st :
  tableConsistent st -> tableConsistent (signalDispose w st).
Proof.
  intros Hc. unfold signalDispose.
  destruct (widgets st !! w) as [wd|] eqn:Hw; [|done].
  destruct (isDisposed wd) eqn:Hd; [done|].
  destruct (guard wd) as [g|] eqn:Hg.
  - intros k w0 Hk. simpl in Hk.
    apply lookup_delete_Some in Hk as [Hne Hk].
    destruct (Hc k w0 Hk) as (wd0 & Hw0 & Hid0 & Hd0 & Hg0).
    assert (w0 <> w) by (intros ->; congruence).
    exists wd0. simpl. by rewrite list_lookup_alter_ne.
  - intros k w0 Hk. simpl in Hk.
    destruct (Hc k w0 Hk) as (wd0 & Hw0 & Hid0 & Hd0 & Hg0).
    assert (w0 <> w).
    { intros ->. rewrite Hw in Hw0. simplify_eq. rewrite Hg in Hg0. by destruct Hg0. }
    exists wd0. simpl. by rewrite list_lookup_alter_ne.
Qed.

Lemma effect_setGuard layout w g st : effect layout st (setGuard w g st).
Proof. apply effect_frame; try done. apply tableConsistent_setGuard. Qed.

Lemma effect_signalDispose layout w st : effect layout st (signalDispose w st).
Proof.
  pose proof (tableConsistent_signalDispose w st) as Hc. revert Hc.
  unfold signalDispose. repeat case_match; intros Hc; try apply effect_refl;
    by apply effect_frame.
Qed.

Lemma effect_dispose layout w st : effect layout st (fst (dispose w st)).
Proof.
  unfold dispose. simpl.
  eapply effect_trans; [by apply (effect_call _ (Dispose w))|].
  apply effect_signalDispose.
Qed.

Lemma effect_originalStart layout w id st :
  effect layout st (fst (originalStart w id st)).
Proof.
  unfold originalStart.
  apply effect_trans with (log (Call (Start w id)) st); [by apply effect_call|].
  apply (effect_new _ true).
Qed.

Lemma effect_start layout w id st : effect layout st (fst (start w id st)).
Proof.
  unfold start. repeat case_match; try apply effect_refl.
  - eapply effect_trans; [apply effect_setGuard|]. apply effect_originalStart.
  - apply effect_originalStart.
Qed.

Lemma effect_attachToTask layout w tid remoteTerminal st :
  effect layout st (fst (attachToTask w tid remoteTerminal st)).
Proof.
  unfold attachToTask. repeat case_match; try apply effect_refl. simpl.
  match goal with
  | Ha : then_ ?p ?f ?g ?s = (?s', _), Hb : then_ ?p2 ?f2 ?g2 ?s' = (?s'', _) |- _ =>
      replace s'' with (fst (then_ p2 f2 g2 s')) by (by rewrite Hb);
      replace s' with (fst (then_ p f g s)) by (by rewrite Ha)
  end.
  eapply effect_trans; [apply effect_setGuard|].
  eapply effect_trans; [by apply (effect_call _ (ServerAttach tid remoteTerminal))|].
  match goal with
  | Hn : newPromise ?e ?s = (?s', _) |- _ =>
      replace s' with (fst (newPromise e s)) by (by rewrite Hn)
  end.
  eapply effect_trans; [apply effect_new|].
  eapply effect_trans; by apply effect_then.
Qed.

Lemma effect_update layout w st : effect layout st (fst (update w st)).
Proof.
  unfold update. repeat case_match; try apply effect_refl.
  - apply effect_dispose.
  - unfold bind. destruct (start w None st) as [st' c] eqn:Hstart.
    replace st' with (fst (start w None st)) by (by rewrite Hstart).
    destruct c; apply effect_start.
  - unfold bind.
    match goal with
    | |- context [attachToTask ?w ?t ?r ?s] =>
        destruct (attachToTask w t r s) as [st' c] eqn:Hattach;
        replace st' with (fst (attachToTask w t r s)) by (by rewrite Hattach)
    end.
    destruct c; apply effect_attachToTask.
Qed.

Lemma effect_applyTask layout w updated st :
  effect layout st (fst (applyTask w updated st)).
Proof.
  unfold applyTask. case_match; [|apply effect_refl].
  eapply effect_trans; [apply effect_setGuard|]. apply effect_update.
Qed.

Lemma effect_updateTerminals layout tasks st :
  effect layout st (updateTerminals tasks st).
Proof.
  revert st. induction tasks as [|t rest IH]; intros st; [apply effect_refl|].
  rewrite updateTerminals_cons. eapply effect_trans; [|apply IH].
  case_match; [|apply effect_refl].
  unfold tryCatch.
  match goal with
  | |- context [applyTask ?w ?t ?s] =>
      destruct (applyTask w t s) as [st' c] eqn:Happly;
      replace st' with (fst (applyTask w t s)) by (by rewrite Happly)
  end.
  destruct c; [apply effect_applyTask|].
  eapply effect_trans; [apply effect_applyTask|]. by apply effect_call.
Qed.

Lemma effect_newTerminal layout options st :
  (isLayoutCall (NewTerminal options) = true -> layout = true) ->
  effect layout st (fst (newTerminal options st)).
Proof.
  intros Hl. unfold newTerminal.
  apply effect_trans with (log (Call (NewTerminal options)) st); [by apply effect_call|].
  apply (effect_new _ true).
Qed.

Lemma effect_layoutFailure e st : effect true st (layoutFailure e st).
Proof. by apply effect_call. Qed.

Lemma effect_layoutFinish st : effect true st (layoutFinish st).
Proof.
  unfold layoutFinish.
  set (st1 := log LayoutResolved _).
  apply effect_trans with st1; [by apply effect_resolved|].
  case_match; [|by apply effect_frame].
  destruct (newTerminal noOptions st1) as [st2 p] eqn:Hnew.
  replace st2 with (fst (newTerminal noOptions st1)) by (by rewrite Hnew).
  eapply effect_trans; [by apply effect_newTerminal|]. by apply effect_await.
Qed.

Lemma effect_layoutLoop tasks ref st : effect true st (layoutLoop tasks ref st).
Proof.
  revert ref st. induction tasks as [|t rest IH]; intros ref st; simpl.
  { apply effect_layoutFinish. }
  repeat case_match; try apply IH.
  - match goal with
    | |- effect _ _ (await _ _ ?s) => apply effect_trans with s
    end.
    + by apply (effect_newTerminal true).
    + by apply effect_await.
  - eapply effect_trans; [apply effect_layoutFailure|]. apply IH.
Qed.

Lemma effect_resumeLayoutNew t rest ref arg st :
  effect true st (resumeLayoutNew t rest ref arg st).
Proof.
  assert (Hfail : forall e st', effect true st st' ->
            effect true st (layoutLoop rest ref (layoutFailure e st'))).
  { intros e st' Hst'. eapply effect_trans; [exact Hst'|].
    eapply effect_trans; [apply effect_layoutFailure|]. apply effect_layoutLoop. }
  unfold resumeLayoutNew.
  destruct arg as [v|e]; [|apply Hfail, effect_refl].
  destruct v; try (destruct (task_presentation t); apply Hfail, effect_refl).
  destruct (task_presentation t) as [presentation|]; [|apply Hfail, effect_refl].
  unfold activateTerminal.
  set (c := ActivateTerminal _ _ _ _).
  assert (Hc : effect true st (log (Call c) st)) by (by apply effect_call).
  destruct (activateTerminalThrows _ _ _ _).
  - by apply Hfail.
  - eapply effect_trans; [exact Hc|]. apply effect_layoutLoop.
Qed.

Lemma effect_resumeLayoutTasks arg st : effect true st (resumeLayoutTasks arg st).
Proof.
  unfold resumeLayoutTasks. repeat case_match;
    first [apply effect_layoutLoop | by apply effect_frame].
Qed.

Lemma effect_resumeLayoutDefault layout arg st :
  effect layout st (resumeLayoutDefault arg st).
Proof.
  unfold resumeLayoutDefault. repeat case_match; try by apply effect_frame.
  - match goal with
    | Hs : start ?w ?i ?s = (?s', _) |- _ =>
        replace s' with (fst (start w i s)) by (by rewrite Hs)
    end.
    eapply effect_trans; [apply effect_start|].
    match goal with
    | |- effect _ _ (set_layoutResult _ (log (Call ?c) _)) =>
        eapply effect_trans; [by apply (effect_call _ c)|]
    end.
    by apply effect_frame.
  - match goal with
    | Hs : start ?w ?i ?s = (?s', _) |- _ =>
        replace s' with (fst (start w i s)) by (by rewrite Hs)
    end.
    eapply effect_trans; [apply effect_start|]. by apply effect_frame.
Qed.

Lemma effect_createTerminal layout w st : effect layout st (fst (createTerminal w st)).
Proof.
  unfold createTerminal.
  apply effect_trans with (log (Call (CreateTerminal w)) st); [by apply effect_call|].
  apply (effect_new _ true).
Qed.

Lemma effect_resetAttachingToTask layout w st :
  effect layout st (resetAttachingToTask w st).
Proof.
  unfold resetAttachingToTask. case_match; [apply effect_setGuard|apply effect_refl].
Qed.

Lemma effect_resetStarting layout w st : effect layout st (resetStarting w st).
Proof.
  unfold resetStarting. case_match; [apply effect_setGuard|apply effect_refl].
Qed.

(** A scheduled function only has effects of the kinds above; the loop of
    the initial layout runs only in its own continuations. *)
Lemma effect_runCallback cb arg st :
  effect (isLoopContinuation cb) st (fst (runCallback cb arg st)).
Proof.
  destruct cb; simpl.
  - apply effect_updateTerminals.
  - unfold throw, ret. case_match; apply effect_refl.
  - apply effect_resetAttachingToTask.
  - apply effect_resetAttachingToTask.
  - destruct arg; [|apply effect_refl]. case_match; [apply effect_refl|].
    apply effect_createTerminal.
  - apply effect_resumeLayoutTasks.
  - apply effect_resumeLayoutNew.
  - apply effect_resumeLayoutDefault.
Qed.

Lemma effect_onWillCreateWidget layout w st :
  (forall wd, widgets st !! w = Some wd -> isDisposed wd = false) ->
  effect layout st (onWillCreateWidget w st).
Proof.
  intros Hlive. unfold onWillCreateWidget.
  destruct (widgets st !! w) as [terminal|] eqn:Hw; [|apply effect_refl].
  destruct (is_ terminal); [|apply effect_refl].
  apply effect_frame; try done.
  intros Hc k w0 Hk. simpl in Hk. simpl.
  destruct (decide (widget_id terminal = k)) as [<-|Hne].
  - rewrite lookup_insert_eq in Hk. simplify_eq.
    eexists. rewrite list_lookup_alter_eq, Hw. simpl.
    split; [reflexivity|]. simpl. split; [done|]. split; [by apply Hlive|by eexists].
  - rewrite lookup_insert_ne in Hk by done.
    destruct (Hc k w0 Hk) as (wd0 & Hw0 & Hid0 & Hd0 & Hg0).
    assert (w0 <> w) by (intros ->; congruence).
    exists wd0. by rewrite list_lookup_alter_ne.
Qed.

Lemma tableConsistent_created wd st :
  tableConsistent st -> tableConsistent (set_widgets (widgets st ++ [wd]) st).
Proof.
  intros Hc k w0 Hk. destruct (Hc k w0 Hk) as (wd0 & Hw0 & Hrest).
  exists wd0. split; [|done]. simpl. by apply lookup_app_l_Some.
Qed.

Lemma tableConsistent_setTerminalId w tid st :
  tableConsistent st -> tableConsistent (setTerminalId w tid st).
Proof. apply tableConsistent_alter. by intros wd. Qed.

Lemma effect_onTerminalDidCloseListener layout w st :
  effect layout st (onTerminalDidCloseListener w st).
Proof.
  unfold onTerminalDidCloseListener. repeat case_match; try apply effect_refl.
  by apply effect_call.
Qed.

Lemma effect_attachTerminal layout w id st :
  effect layout st (fst (attachTerminal w id st)).
Proof.
  unfold attachTerminal.
  destruct (newPromise true (log (Call (AttachTerminal w id)) st)) as [st1 p] eqn:Hnew.
  replace st1 with (fst (newPromise true (log (Call (AttachTerminal w id)) st)))
    by (by rewrite Hnew).
  apply effect_trans with (log (Call (AttachTerminal w id)) st); [by apply effect_call|].
  eapply effect_trans; [apply (effect_new _ true)|]. by apply effect_then.
Qed.

(** The events other than the arrival of a snapshot and a call of [queue]. *)
Lemma effect_handle e st :
  match e with
  | EvDidChange _ | EvQueue _ => True
  | EvInitializeLayout => effect true st (handle e st)
  | _ => effect false st (handle e st)
  end.
Proof.
  destruct e; simpl; try done.
  - eapply effect_trans; [apply effect_frame|apply effect_onWillCreateWidget];
      try done.
    + apply tableConsistent_created.
    + intros wd. simpl. rewrite list_lookup_middle by done. by intros [= <-].
  - case_match; [apply effect_refl|]. unfold onDidInitializeLayout.
    eapply effect_trans; [by apply effect_called|]. by apply effect_await.
  - case_match; [by apply effect_settle|apply effect_refl].
  - unfold onDidOpenListeners.
    eapply effect_trans; [|apply effect_update].
    eapply effect_trans; [|apply effect_resetStarting].
    apply effect_frame; try done. apply tableConsistent_setTerminalId.
  - unfold onDidOpenListeners.
    eapply effect_trans; [|apply effect_update].
    eapply effect_trans; [|apply effect_resetStarting].
    apply effect_frame; try done. apply tableConsistent_setTerminalId.
  - apply effect_onTerminalDidCloseListener.
  - apply effect_signalDispose.
  - apply effect_start.
  - apply effect_attachTerminal.
Qed.

End EffectFacts.

(** ** The invariant of the update queue *)

Section QueueFacts.
Context `{Environment}.

Lemma snoc_split {A} (tr pre post : list A) e x :
  tr ++ [e] = pre ++ x :: post ->
  (pre = tr /\ x = e /\ post = []) \/
  (exists post', post = post' ++ [e] /\ tr = pre ++ x :: post').
Proof.
  destruct post as [|y post _] using rev_ind; intros Heq.
  - apply app_inj_tail in Heq as [-> ->]. by left.
  - right. exists post.
    change (tr ++ [e] = pre ++ (x :: post) ++ [y]) in Heq.
    rewrite app_assoc in Heq. apply app_inj_tail in Heq as [-> ->]. done.
Qed.

Lemma occ_app d l1 l2 : occ d (l1 ++ l2) = occ d l1 + occ d l2.
Proof. unfold occ. by rewrite filter_app, length_app. Qed.

Lemma occ_nil d : occ d [] = 0.
Proof. done. Qed.

Lemma occ_cons d x l : occ d (x :: l) = (if decide (x = d) then 1 else 0) + occ d l.
Proof.
  unfold occ. destruct (decide (x = d)).
  - by rewrite filter_cons_True.
  - by rewrite filter_cons_False.
Qed.

Lemma occ_not_in d l : d ∉ l -> occ d l = 0.
Proof.
  induction l as [|x l IH]; [done|]. intros Hnot.
  apply not_elem_of_cons in Hnot as [Hne Hnot].
  rewrite occ_cons, decide_False by done. by rewrite IH.
Qed.

Lemma occ_pos d l : d ∈ l -> 0 < occ d l.
Proof.
  induction l as [|x l IH]; intros Hin.
  - by apply elem_of_nil in Hin.
  - rewrite occ_cons. apply elem_of_cons in Hin as [->|Hin].
    + rewrite decide_True by done. lia.
    + specialize (IH Hin). lia.
Qed.

Lemma reactionTargets_app h1 h2 :
  reactionTargets (h1 ++ h2) = reactionTargets h1 ++ reactionTargets h2.
Proof. unfold reactionTargets. by rewrite bind_app. Qed.

Lemma reactionTargets_cons pr h :
  reactionTargets (pr :: h) = reactionTargetsOf pr ++ reactionTargets h.
Proof. done. Qed.

Lemma chain_snoc tr e :
  chain (tr ++ [e]) =
  chain tr ++ match e with Enqueued on d => [(on, d)] | _ => [] end.
Proof. unfold chain. rewrite omap_app. by destruct e. Qed.

Lemma runs_snoc tr e :
  runs (tr ++ [e]) = runs tr ++ match e with Run d => [d] | _ => [] end.
Proof. unfold runs. rewrite omap_app. by destruct e. Qed.

Lemma elem_of_runs d tr : d ∈ runs tr <-> Run d ∈ tr.
Proof.
  unfold runs. rewrite list_elem_of_omap. split.
  - intros (e & Hin & He). destruct e; simplify_eq. done.
  - intros Hin. exists (Run d). done.
Qed.

Lemma elem_of_chain on d tr : (on, d) ∈ chain tr <-> Enqueued on d ∈ tr.
Proof.
  unfold chain. rewrite list_elem_of_omap. split.
  - intros (e & Hin & He). destruct e; simplify_eq. done.
  - intros Hin. exists (Enqueued on d). done.
Qed.

Lemma elem_of_queued d tr : d ∈ queued tr <-> exists on, (on, d) ∈ chain tr.
Proof.
  unfold queued. rewrite list_elem_of_fmap. split.
  - intros ([on d'] & -> & Hin). by exists on.
  - intros (on & Hin). by exists (on, d).
Qed.

Lemma settledIn_mono on tr es : settledIn on tr -> settledIn on (tr ++ es).
Proof.
  intros [[-> Hin]|[b Hin]]; [left|right].
  - split; [done|]. apply elem_of_app. by left.
  - exists b. apply elem_of_app. by left.
Qed.

Lemma isSettled_frame p st st' :
  heap st' = heap st -> isSettled p st -> isSettled p st'.
Proof. intros Hh (pr & o & Hp & Ho). exists pr, o. by rewrite Hh. Qed.

(** Changes outside the promises and the history. *)
Lemma queueInv_frame r st st' :
  heap st' = heap st ->
  microtasks st' = microtasks st ->
  updateQueue st' = updateQueue st ->
  trace st' = trace st ->
  queueInv r st -> queueInv r st'.
Proof.
  intros Hh Hm Hu Ht [].
  split; unfold tokens, isSettled in *; rewrite ?Hh, ?Hm, ?Hu, ?Ht; done.
Qed.

Lemma chain_log_plain e st : plain e -> chain (trace (log e st)) = chain (trace st).
Proof. intros He. simpl. rewrite chain_snoc. destruct e; try done; by rewrite app_nil_r. Qed.

Lemma chain_log_plain_queued st :
  queued (trace (log LayoutResolved st)) = queued (trace st).
Proof. unfold queued. by rewrite chain_log_plain. Qed.

Lemma runs_log_plain e st : plain e -> runs (trace (log e st)) = runs (trace st).
Proof. intros He. simpl. rewrite runs_snoc. destruct e; try done; by rewrite app_nil_r. Qed.

Lemma chain_log_Ran d b st :
  chain (trace (log (Ran d b) st)) = chain (trace st).
Proof. simpl. rewrite chain_snoc. by rewrite app_nil_r. Qed.

Lemma runs_log_Ran d b st : runs (trace (log (Ran d b) st)) = runs (trace st).
Proof. simpl. rewrite runs_snoc. by rewrite app_nil_r. Qed.

(** Logging a call, the resolution of the layout, or the end of a function
    that has begun. *)
Lemma queueInv_log r e st :
  plain e \/ (exists d b, e = Ran d b /\ Run d ∈ trace st) ->
  queueInv r st -> queueInv r (log e st).
Proof.
  intros He [].
  assert (Hc : chain (trace (log e st)) = chain (trace st)).
  { destruct He as [He|(d & b & -> & _)];
      [by apply chain_log_plain|apply chain_log_Ran]. }
  assert (Hr : runs (trace (log e st)) = runs (trace st)).
  { destruct He as [He|(d & b & -> & _)];
      [by apply runs_log_plain|apply runs_log_Ran]. }
  assert (Hmono : forall x, x ∈ trace st -> x ∈ trace (log e st)).
  { intros x Hx. simpl. apply elem_of_app. by left. }
  assert (Hold : forall d, Run d ∈ trace (log e st) -> Run d ∈ trace st).
  { intros d Hin. simpl in Hin. apply elem_of_app in Hin as [Hin|Hin]; [done|].
    apply list_elem_of_singleton in Hin. subst e.
    by destruct He as [He|(d' & b & He & _)]. }
  split; unfold tokens, queued in *; rewrite ?Hc, ?Hr;
    change (heap (log e st)) with (heap st);
    change (microtasks (log e st)) with (microtasks st);
    change (updateQueue (log e st)) with (updateQueue st).
  - destruct q_head0 as (pr & Hpr & Hext & Hres). exists pr. eauto.
  - done.
  - done.
  - done.
  - done.
  - done.
  - intros j d Hj Hd Hq. destruct (q_job0 j d Hj Hd Hq) as (Hcb & on & Hon & Hs).
    split; [done|]. exists on. split; [done|]. by apply settledIn_mono.
  - intros d Hq Hrun Hne. apply (isSettled_frame d st); [done|].
    apply q_run0; [done| |done]. by apply Hold.
  - intros d Hq Hs. destruct (q_settled0 d Hq) as [b Hb].
    { by apply (isSettled_frame d (log e st)). }
    exists b. by apply Hmono.
  - intros pre post d b Heq. simpl in Heq.
    apply snoc_split in Heq as [(-> & <- & _)|(post' & _ & Heq)].
    + destruct He as [[]|(d' & b' & Heq & Hrun)]. by simplify_eq.
    + by eapply q_ran0.
  - intros pre post on d Heq Hin. simpl in Heq.
    apply snoc_split in Heq as [(_ & <- & _)|(post' & _ & Heq)].
    + by destruct He as [[]|(d' & b' & Heq & Hrun)].
    + by eapply q_order0.
  - done.
  - done.
Qed.

Lemma isSettled_snoc p pr st st' :
  heap st' = heap st ++ [pr] ->
  settled pr = None ->
  isSettled p st' <-> isSettled p st.
Proof.
  intros Hh Hpr. unfold isSettled. rewrite Hh. split.
  - intros (pr' & o & Hp & Ho). exists pr', o. split; [|done].
    apply lookup_app_Some in Hp as [Hp|[_ Hp]]; [done|].
    apply list_lookup_singleton_Some in Hp as [_ <-]. congruence.
  - intros (pr' & o & Hp & Ho). exists pr', o. split; [|done].
    by apply lookup_app_l_Some.
Qed.

(** Allocating a promise. *)
Lemma queueInv_new r ext st :
  queueInv r st -> queueInv r (fst (newPromise ext st)).
Proof.
  intros []. set (st' := fst (newPromise ext st)).
  assert (Hh : heap st' = heap st ++ [{| settled := None; reactions := []; external := ext |}])
    by done.
  assert (Hlen : length (heap st') = S (length (heap st))).
  { rewrite Hh, length_app. simpl. lia. }
  assert (Hrt : reactionTargets (heap st') = reactionTargets (heap st)).
  { rewrite Hh, reactionTargets_app. simpl. by rewrite app_nil_r. }
  assert (Hlook : forall p pr, heap st' !! p = Some pr ->
            heap st !! p = Some pr \/ reactions pr = [] /\ settled pr = None).
  { intros p pr Hp. rewrite Hh in Hp.
    apply lookup_app_Some in Hp as [Hp|[_ Hp]]; [by left|].
    apply list_lookup_singleton_Some in Hp as [_ <-]. by right. }
  assert (Hsett : forall p, isSettled p st' <-> isSettled p st).
  { intros p. by apply (isSettled_snoc p _ st st' Hh). }
  split; unfold tokens in *; rewrite ?Hrt, ?Hlen;
    change (trace st') with (trace st);
    change (microtasks st') with (microtasks st);
    change (updateQueue st') with (updateQueue st).
  - destruct q_head0 as (pr & Hpr & Hext & Hres). exists pr.
    split; [|done]. rewrite Hh. by apply lookup_app_l_Some.
  - intros p pr Hp Hs. destruct (Hlook p pr Hp) as [Hp'|[Hnil _]]; [|done].
    by eapply q_noreact0.
  - intros d Hd. specialize (q_targets0 d Hd). lia.
  - intros on d Hin. destruct (q_bound0 on d Hin) as (Hb & pr & Hpr & Hext).
    split; [lia|]. exists pr. split; [|done]. rewrite Hh. by apply lookup_app_l_Some.
  - done.
  - intros p pr rc d Hp Hrc. destruct (Hlook p pr Hp) as [Hp'|[Hnil _]].
    + by eapply q_react0.
    + rewrite Hnil in Hrc. by apply elem_of_nil in Hrc.
  - done.
  - intros d Hq Hrun Hne. apply Hsett. by apply q_run0.
  - intros d Hq Hs. apply q_settled0; [done|]. by apply Hsett.
  - done.
  - done.
  - done.
  - done.
Qed.

Lemma reactionTargets_insert h p pr pr' :
  h !! p = Some pr ->
  exists A B,
    reactionTargets h = A ++ reactionTargetsOf pr ++ B /\
    reactionTargets (<[p:=pr']> h) = A ++ reactionTargetsOf pr' ++ B.
Proof.
  intros Hp. exists (reactionTargets (take p h)), (reactionTargets (drop (S p) h)).
  split.
  - rewrite <- (take_drop_middle h p pr Hp) at 1.
    by rewrite reactionTargets_app, reactionTargets_cons.
  - rewrite insert_take_drop by (by eapply lookup_lt_Some).
    by rewrite reactionTargets_app, reactionTargets_cons.
Qed.

Lemma jobTargets_snoc q j :
  jobTargets (q ++ [j]) = jobTargets q ++ option_list (job_derived j).
Proof. unfold jobTargets. rewrite omap_app. simpl. by destruct (job_derived j). Qed.

Lemma job_derived_jobFor o rc : job_derived (jobFor o rc) = derived rc.
Proof. done. Qed.

(** A promise is replaced by one that is settled and external as it was. *)
Lemma isSettled_insert p pr pr' q st st' :
  heap st !! p = Some pr ->
  heap st' = <[p:=pr']> (heap st) ->
  settled pr' = settled pr ->
  isSettled q st' <-> isSettled q st.
Proof.
  intros Hp Hh Hs. unfold isSettled. rewrite Hh.
  destruct (decide (q = p)) as [->|Hne].
  - rewrite list_lookup_insert_eq by (by eapply lookup_lt_Some). rewrite Hp.
    split; intros (x & o & Hx & Ho); simplify_eq; eauto.
    + exists pr, o. split; [done|congruence].
    + exists pr', o. split; [done|congruence].
  - by rewrite list_lookup_insert_ne.
Qed.

(** Registering a reaction whose derived promise is none of the queue. *)
Lemma queueInv_addReaction r p rc st :
  queueInv r st ->
  (forall d, derived rc = Some d ->
     2 <= d < length (heap st) /\ d ∉ queued (trace st)) ->
  queueInv r (addReaction p rc st).
Proof.
  intros Hinv Hrc. unfold addReaction.
  destruct (heap st !! p) as [pr|] eqn:Hp; [|done].
  destruct (settled pr) as [o|] eqn:Hs.
  - (* settled: the job is scheduled at once *)
    destruct Hinv. set (j := jobFor o rc).
    assert (Htg : forall d, d ∈ reactionTargets (heap st) \/
                            d ∈ jobTargets (microtasks st) \/ d ∈ runs (trace st) ->
                            2 <= d < length (heap st)).
    { intros d Hd. apply q_targets0. rewrite !elem_of_app. tauto. }
    assert (Hjt : jobTargets (microtasks st ++ [j])
                  = jobTargets (microtasks st) ++ option_list (derived rc)).
    { by rewrite jobTargets_snoc. }
    split; unfold tokens in *; simpl; rewrite ?Hjt; try done.
    + intros d Hd. rewrite !elem_of_app in Hd.
      destruct Hd as [Hd|[[Hd|Hd]|Hd]]; [by eauto|by eauto| |by eauto].
      destruct (derived rc) as [d'|] eqn:Hd'; simpl in Hd; [|by apply elem_of_nil in Hd].
      apply list_elem_of_singleton in Hd as ->. by apply Hrc.
    + intros d Hq. rewrite occ_app.
      assert (occ d (option_list (derived rc)) = 0) as ->.
      { apply occ_not_in. destruct (derived rc) as [d'|] eqn:Hd'; simpl;
          [|apply not_elem_of_nil].
        intros Hin. apply list_elem_of_singleton in Hin as ->.
        by destruct (Hrc d' eq_refl). }
      specialize (q_token0 d Hq). lia.
    + intros j' d Hj' Hd Hq. apply elem_of_app in Hj' as [Hj'|Hj']; [by eauto|].
      apply list_elem_of_singleton in Hj' as ->. simpl in Hd.
      by destruct (Hrc d Hd).
  - (* pending: the reaction is kept *)
    destruct Hinv.
    assert (Htg : forall d, d ∈ reactionTargets (heap st) \/
                            d ∈ jobTargets (microtasks st) \/ d ∈ runs (trace st) ->
                            2 <= d < length (heap st)).
    { intros d Hd. apply q_targets0. rewrite !elem_of_app. tauto. }
    set (pr' := {| settled := None; reactions := reactions pr ++ [rc];
                   external := external pr |}).
    destruct (reactionTargets_insert (heap st) p pr pr' Hp) as (A & B & HA & HB).
    assert (HT : reactionTargetsOf pr' = reactionTargetsOf pr ++ option_list (derived rc)).
    { unfold reactionTargetsOf. simpl. rewrite omap_app. simpl.
      by destruct (derived rc). }
    assert (Hlook : forall q x, <[p:=pr']> (heap st) !! q = Some x ->
              heap st !! q = Some x \/ (q = p /\ x = pr')).
    { intros q x Hq. destruct (decide (q = p)) as [->|Hne].
      - rewrite list_lookup_insert_eq in Hq by (by eapply lookup_lt_Some).
        right. by simplify_eq.
      - rewrite list_lookup_insert_ne in Hq by done. by left. }
    assert (Hkeep : forall q x, heap st !! q = Some x ->
              exists x', <[p:=pr']> (heap st) !! q = Some x' /\ external x' = external x).
    { intros q x Hq. destruct (decide (q = p)) as [->|Hne].
      - rewrite list_lookup_insert_eq by (by eapply lookup_lt_Some).
        exists pr'. split; [done|]. by simplify_eq.
      - rewrite list_lookup_insert_ne by done. by exists x. }
    assert (Hsett : forall q, isSettled q (set_heap (<[p:=pr']> (heap st)) st)
                              <-> isSettled q st).
    { intros q. by apply (isSettled_insert p pr pr'). }
    assert (Hnotq : forall d, d ∈ queued (trace st) -> occ d (option_list (derived rc)) = 0).
    { intros d Hq. apply occ_not_in. destruct (derived rc) as [d'|] eqn:Hd'; simpl;
        [|apply not_elem_of_nil].
      intros Hin. apply list_elem_of_singleton in Hin as ->.
      by destruct (Hrc d' eq_refl). }
    split; unfold tokens in *; simpl; rewrite ?length_insert.
    + destruct q_head0 as (x & Hx & Hext & Hres).
      destruct (Hkeep _ _ Hx) as (x' & Hx' & Hext'). exists x'.
      split; [done|]. split; [congruence|].
      intros Hsx'. apply Hres.
      destruct (Hlook _ _ Hx') as [Hx''|[_ ->]]; [congruence|done].
    + intros q x Hq Hsx. destruct (Hlook _ _ Hq) as [Hq'|[_ ->]]; [by eauto|done].
    + intros d Hd. rewrite HB, HT in Hd. rewrite HA in Htg.
      rewrite !elem_of_app in Hd. setoid_rewrite elem_of_app in Htg.
      setoid_rewrite elem_of_app in Htg.
      destruct Hd as [[Hd|[[Hd|Hd]|Hd]]|Hd]; try by eauto 10.
      destruct (derived rc) as [d'|] eqn:Hd'; simpl in Hd; [|by apply elem_of_nil in Hd].
      apply list_elem_of_singleton in Hd as ->. by apply Hrc.
    + intros on d Hin. destruct (q_bound0 on d Hin) as (Hb & x & Hx & Hext).
      split; [done|]. destruct (Hkeep _ _ Hx) as (x' & Hx' & Hext').
      exists x'. split; [done|congruence].
    + intros d Hq. specialize (q_token0 d Hq). rewrite HA in q_token0.
      rewrite HB, HT. rewrite !occ_app in *. rewrite (Hnotq d Hq). lia.
    + intros q x r0 d Hq Hr0 Hd Hqd.
      destruct (Hlook _ _ Hq) as [Hq'|[-> ->]]; [by eauto|].
      simpl in Hr0. apply elem_of_app in Hr0 as [Hr0|Hr0]; [by eauto|].
      apply list_elem_of_singleton in Hr0 as ->. by destruct (Hrc d Hd).
    + done.
    + intros d Hq Hrun Hne. apply Hsett. by apply q_run0.
    + intros d Hq Hsd. apply q_settled0; [done|]. by apply Hsett.
    + done.
    + done.
    + done.
    + done.
Qed.

Lemma chained_on q c on d :
  chained q c -> (on, d) ∈ c -> on = q \/ on ∈ c.*2.
Proof.
  revert q. induction c as [|[on' d'] c IH]; intros q Hc Hin.
  { by apply elem_of_nil in Hin. }
  destruct Hc as [-> Hc]. apply elem_of_cons in Hin as [Heq|Hin].
  - simplify_eq. by left.
  - right. simpl. destruct (IH d' Hc Hin) as [->|Hon]; [by left|by right].
Qed.

Lemma jobTargets_jobFor o rs :
  jobTargets (map (jobFor o) rs) = omap derived rs.
Proof.
  unfold jobTargets. induction rs as [|rc rs IH]; [done|].
  simpl. destruct (derived rc); by f_equal.
Qed.

Lemma jobTargets_app q1 q2 : jobTargets (q1 ++ q2) = jobTargets q1 ++ jobTargets q2.
Proof. unfold jobTargets. by rewrite omap_app. Qed.

(** The function in progress may be forgotten once its promise is
    settled. *)
Lemma queueInv_running r r' st :
  queueInv r st ->
  (forall d, r = Some d -> d ∈ queued (trace st) -> isSettled d st) ->
  queueInv r' st.
Proof.
  intros [] Hr. split; try done.
  intros d Hq Hrun _. destruct (decide (r = Some d)) as [->|Hne]; [by apply Hr|].
  by apply q_run0.
Qed.

(** Settling a promise whose settlement the history shows. *)
Lemma queueInv_settle r p o st :
  queueInv r st ->
  (p = pendingInitializeLayout -> LayoutResolved ∈ trace st) ->
  (p ∈ queued (trace st) -> exists threw, Ran p threw ∈ trace st) ->
  queueInv r (settle p o st).
Proof.
  intros Hinv Hhead Hran. unfold settle.
  destruct (heap st !! p) as [pr|] eqn:Hp; [|done].
  destruct (settled pr) as [o'|] eqn:Hs; [done|].
  destruct Hinv.
  assert (Htg : forall d, d ∈ reactionTargets (heap st) \/
                          d ∈ jobTargets (microtasks st) \/ d ∈ runs (trace st) ->
                          2 <= d < length (heap st)).
  { intros d Hd. apply q_targets0. rewrite !elem_of_app. tauto. }
  set (pr' := {| settled := Some o; reactions := []; external := external pr |}).
  destruct (reactionTargets_insert (heap st) p pr pr' Hp) as (A & B & HA & HB).
  assert (HJ : jobTargets (microtasks st ++ map (jobFor o) (reactions pr))
               = jobTargets (microtasks st) ++ reactionTargetsOf pr).
  { by rewrite jobTargets_app, jobTargets_jobFor. }
  assert (Hlook : forall q x, <[p:=pr']> (heap st) !! q = Some x ->
            heap st !! q = Some x \/ (q = p /\ x = pr')).
  { intros q x Hq. destruct (decide (q = p)) as [->|Hne].
    - rewrite list_lookup_insert_eq in Hq by (by eapply lookup_lt_Some).
      right. by simplify_eq.
    - rewrite list_lookup_insert_ne in Hq by done. by left. }
  assert (Hkeep : forall q x, heap st !! q = Some x ->
            exists x', <[p:=pr']> (heap st) !! q = Some x' /\ external x' = external x /\
                       (settled x <> None -> settled x' <> None)).
  { intros q x Hq. destruct (decide (q = p)) as [->|Hne].
    - rewrite list_lookup_insert_eq by (by eapply lookup_lt_Some).
      exists pr'. split; [done|]. by simplify_eq.
    - rewrite list_lookup_insert_ne by done. by exists x. }
  assert (Hsett : forall q, isSettled q st -> isSettled q (set_heap (<[p:=pr']> (heap st)) st)).
  { intros q (x & ox & Hx & Hox). destruct (Hkeep _ _ Hx) as (x' & Hx' & _ & Hsx').
    destruct (settled x') as [ox'|] eqn:Hox'.
    - by exists x', ox'.
    - exfalso. apply Hsx'; [|done]. by rewrite Hox. }
  split; unfold tokens in *; simpl; rewrite ?length_insert.
  - destruct q_head0 as (x & Hx & Hext & Hres).
    destruct (Hkeep _ _ Hx) as (x' & Hx' & Hext' & _). exists x'.
    split; [done|]. split; [congruence|].
    intros Hsx'. destruct (Hlook _ _ Hx') as [Hx''|[Hp1 _]].
    + apply Hres. congruence.
    + by apply Hhead.
  - intros q x Hq Hsx. destruct (Hlook _ _ Hq) as [Hq'|[_ ->]]; [by eauto|done].
  - intros d Hd. rewrite HB, HJ in Hd. rewrite HA in Htg.
    rewrite !elem_of_app in Hd. setoid_rewrite elem_of_app in Htg.
    setoid_rewrite elem_of_app in Htg.
    destruct Hd as [[Hd|[Hd|Hd]]|[[Hd|Hd]|Hd]]; try by eauto 10.
    by apply elem_of_nil in Hd.
  - intros on d Hin. destruct (q_bound0 on d Hin) as (Hb & x & Hx & Hext).
    split; [done|]. destruct (Hkeep _ _ Hx) as (x' & Hx' & Hext' & _).
    exists x'. split; [done|congruence].
  - intros d Hq. specialize (q_token0 d Hq). rewrite HA in q_token0.
    rewrite HB, HJ. rewrite !occ_app in *.
    change (occ d (reactionTargetsOf pr')) with 0. lia.
  - intros q x r0 d Hq Hr0 Hd Hqd.
    destruct (Hlook _ _ Hq) as [Hq'|[-> ->]]; [by eauto|].
    by apply elem_of_nil in Hr0.
  - intros j d Hj Hd Hq. apply elem_of_app in Hj as [Hj|Hj]; [by eauto|].
    apply list_elem_of_fmap in Hj as (rc & -> & Hrc). simpl in Hd.
    destruct (q_react0 p pr rc d Hp Hrc Hd Hq) as (Hpd & cb & Hcb & Hf & Hr).
    split.
    + exists cb. split; [done|]. simpl. by destruct o.
    + exists p. split; [done|].
      destruct q_linked0 as [Hchained _].
      destruct (chained_on _ _ _ _ Hchained Hpd) as [->|Hon].
      * left. split; [done|]. by apply Hhead.
      * right. by apply Hran.
  - intros d Hq Hrun Hne. apply Hsett. by apply q_run0.
  - intros d Hq (x & ox & Hx & Hox). destruct (Hlook _ _ Hx) as [Hx'|[-> ->]].
    + apply q_settled0; [done|]. by exists x, ox.
    + by apply Hran.
  - done.
  - done.
  - done.
  - done.
Qed.

Lemma settle_log e p o st : settle p o (log e st) = log e (settle p o st).
Proof. unfold settle. simpl. by repeat case_match. Qed.

Lemma queued_bound r st d :
  queueInv r st -> d ∈ queued (trace st) -> 2 <= d < length (heap st).
Proof.
  intros [] Hq. apply elem_of_queued in Hq as [on Hin].
  by destruct (q_bound0 on d Hin).
Qed.

Lemma queued_internal r st d pr :
  queueInv r st -> d ∈ queued (trace st) -> heap st !! d = Some pr ->
  external pr = false.
Proof.
  intros [] Hq Hd. apply elem_of_queued in Hq as [on Hin].
  destruct (q_bound0 on d Hin) as (_ & pr' & Hpr' & Hext). congruence.
Qed.

Lemma heap_length r st : queueInv r st -> 2 <= length (heap st).
Proof.
  intros []. destruct q_head0 as (pr & Hpr & _).
  apply lookup_lt_Some in Hpr. unfold pendingInitializeLayout in Hpr. lia.
Qed.

Lemma queueInv_then r p f g st :
  queueInv r st -> queueInv r (fst (then_ p f g st)).
Proof.
  intros Hinv. unfold then_. simpl.
  apply queueInv_addReaction; [by apply queueInv_new|].
  intros d Hd. simpl in Hd. simplify_eq. simpl. rewrite length_app. simpl.
  split; [pose proof (heap_length r st Hinv); lia|].
  intros Hq. pose proof (queued_bound r st _ Hinv Hq). lia.
Qed.

(** The invariant holds through everything but [queue] and the running
    of a job. *)
Lemma queueInv_effect layout r st st' :
  effect layout st st' -> queueInv r st -> queueInv r st'.
Proof.
  induction 1; intros Hinv.
  - done.
  - eauto.
  - by apply (queueInv_frame r st).
  - apply queueInv_log; [by left|done].
  - by apply queueInv_new.
  - by apply queueInv_then.
  - apply queueInv_addReaction; [done|]. intros d Hd. discriminate Hd.
  - unfold isExternalPending in *.
    destruct (heap st !! p) as [pr|] eqn:Hp; [|done].
    apply andb_true_iff in H0 as [Hext _].
    apply queueInv_settle; [done| |].
    + intros ->. destruct Hinv. destruct q_head0 as (pr' & Hpr' & Hext' & _).
      congruence.
    + intros Hq. pose proof (queued_internal r st p pr Hinv Hq Hp). congruence.
  - apply queueInv_settle; [done| |].
    + discriminate.
    + intros Hq. pose proof (queued_bound r st _ Hinv Hq).
      unfold pendingInitialTasks in *. lia.
  - rewrite <- settle_log. apply queueInv_settle.
    + apply queueInv_log; [by left|done].
    + intros _. simpl. apply elem_of_app. right. by apply list_elem_of_singleton.
    + intros Hq. rewrite chain_log_plain_queued in Hq.
      pose proof (queued_bound r st _ Hinv Hq).
      unfold pendingInitializeLayout in *. lia.
  - by apply (queueInv_frame r st).
Qed.

Lemma tailOf_snoc q c on d : tailOf q (c ++ [(on, d)]) = d.
Proof. unfold tailOf. rewrite fmap_app. simpl. by rewrite last_snoc. Qed.

Lemma tailOf_cons q on d c : tailOf q ((on, d) :: c) = tailOf d c.
Proof.
  unfold tailOf. rewrite fmap_cons, last_cons. simpl.
  by destruct (last (c.*2)).
Qed.

Lemma chained_snoc q c on d :
  chained q c -> on = tailOf q c -> chained q (c ++ [(on, d)]).
Proof.
  revert q. induction c as [|[on' d'] c IH]; intros q Hc ->; simpl.
  - done.
  - destruct Hc as [-> Hc]. split; [done|]. apply IH; [done|].
    by rewrite tailOf_cons.
Qed.

Lemma tailOf_cases q c : tailOf q c = q \/ tailOf q c ∈ c.*2.
Proof.
  unfold tailOf. destruct (last (c.*2)) as [d|] eqn:Hlast; [|by left].
  right. simpl. apply last_Some in Hlast as [l' ->].
  apply elem_of_app. right. by left.
Qed.

Lemma updateQueue_cases r st :
  queueInv r st ->
  updateQueue st = pendingInitializeLayout \/ updateQueue st ∈ queued (trace st).
Proof. intros []. destruct q_linked0 as [_ ->]. apply tailOf_cases. Qed.

Lemma tokens_old r st d :
  queueInv r st -> length (heap st) <= d -> tokens d st = 0.
Proof.
  intros [] Hd. unfold tokens. rewrite <- !occ_app. apply occ_not_in.
  intros Hin. rewrite <- app_assoc in Hin. specialize (q_targets0 d Hin). lia.
Qed.

(** A promise that has settled has settled in the history. *)
Lemma settled_settledIn r st p :
  queueInv r st ->
  p = pendingInitializeLayout \/ p ∈ queued (trace st) ->
  isSettled p st -> settledIn p (trace st).
Proof.
  intros [] [->|Hq] (pr & o & Hp & Ho).
  - left. split; [done|]. destruct q_head0 as (pr' & Hpr' & _ & Hres).
    apply Hres. congruence.
  - right. apply q_settled0; [done|]. by exists pr, o.
Qed.

(** What [then] leaves for the new promise [d] of a function chained on
    the end of the queue. *)
Lemma then_queue cb st :
  queueInv None st ->
  let uq := updateQueue st in
  let st1 := fst (then_ uq (Some cb) (Some cb) st) in
  let d := length (heap st) in
  snd (then_ uq (Some cb) (Some cb) st) = d /\
  trace st1 = trace st /\
  updateQueue st1 = uq /\
  length (heap st1) = S d /\
  heap st1 !! d = Some {| settled := None; reactions := []; external := false |} /\
  tokens d st1 = 1 /\
  (forall p pr rc, heap st1 !! p = Some pr -> rc ∈ reactions pr ->
     derived rc = Some d ->
     p = uq /\ onFulfilled rc = Some cb /\ onRejected rc = Some cb) /\
  (forall j, j ∈ microtasks st1 -> job_derived j = Some d ->
     job_callback j = Some cb /\ settledIn uq (trace st)).
Proof.
  intros Hinv uq st1 d.
  assert (Huq : uq < d).
  { destruct (updateQueue_cases None st Hinv) as [Hu|Hu]; fold uq in Hu.
    - rewrite Hu. apply (heap_length None st Hinv).
    - by apply (queued_bound None st uq Hinv). }
  destruct (lookup_lt_is_Some_2 (heap st) uq Huq) as [pr Hpr].
  assert (Hzero := tokens_old None st d Hinv (le_n _)).
  unfold tokens in Hzero.
  assert (Hnot : forall l, occ d l = 0 -> d ∉ l).
  { intros l Hl Hin. apply occ_pos in Hin. lia. }
  set (pending := {| settled := None; reactions := []; external := false |}).
  set (rc := {| onFulfilled := Some cb; onRejected := Some cb; derived := Some d |}).
  assert (Hpr0 : (heap st ++ [pending]) !! uq = Some pr) by (by apply lookup_app_l_Some).
  subst st1. unfold then_, newPromise, addReaction. cbn [fst snd heap set_heap].
  fold pending d rc. rewrite Hpr0.
  destruct (settled pr) as [o|] eqn:Ho; simpl.
  - (* the end of the queue has settled: a job *)
    split; [done|]. split; [done|]. split; [done|].
    split; [rewrite length_app; simpl; lia|].
    split; [by apply list_lookup_middle|].
    split; [|split].
    + unfold tokens. simpl. rewrite reactionTargets_app, jobTargets_snoc. simpl.
      rewrite !occ_app. simpl. rewrite occ_cons, decide_True by done.
      change (occ d (reactionTargets [pending])) with 0. rewrite occ_nil. lia.
    + intros p x r0 Hp Hr0 Hd. exfalso.
      apply lookup_app_Some in Hp as [Hp|[_ Hp]].
      * apply (Hnot (reactionTargets (heap st))); [lia|].
        unfold reactionTargets. apply list_elem_of_bind. exists x.
        split; [|by eapply list_elem_of_lookup_2].
        unfold reactionTargetsOf. apply list_elem_of_omap. by exists r0.
      * apply list_lookup_singleton_Some in Hp as [_ <-]. by apply elem_of_nil in Hr0.
    + intros j Hj Hd. apply elem_of_app in Hj as [Hj|Hj].
      * exfalso. apply (Hnot (jobTargets (microtasks st))); [lia|].
        unfold jobTargets. apply list_elem_of_omap. by exists j.
      * apply list_elem_of_singleton in Hj as ->. split; [by destruct o|].
        apply (settled_settledIn None st uq Hinv).
        -- apply (updateQueue_cases None st Hinv).
        -- by exists pr, o.
  - (* the end of the queue is pending: a reaction *)
    set (pr' := {| settled := None; reactions := reactions pr ++ [rc];
                   external := external pr |}).
    assert (Hins : <[uq:=pr']> (heap st ++ [pending]) = <[uq:=pr']> (heap st) ++ [pending]).
    { by rewrite insert_app_l. }
    rewrite Hins.
    destruct (reactionTargets_insert (heap st) uq pr pr' Hpr) as (A & B & HA & HB).
    split; [done|]. split; [done|]. split; [done|].
    split; [rewrite length_app, length_insert; simpl; lia|].
    split.
    { rewrite lookup_app_r by (rewrite length_insert; lia).
      rewrite length_insert. fold d. by rewrite Nat.sub_diag. }
    split; [|split].
    + unfold tokens. simpl. rewrite reactionTargets_app, HB.
      rewrite HA in Hzero. rewrite !occ_app in *.
      assert (occ d (reactionTargetsOf pr') = S (occ d (reactionTargetsOf pr))) as ->.
      { unfold reactionTargetsOf. simpl. rewrite omap_app, occ_app. simpl.
        rewrite occ_cons, decide_True by done. rewrite occ_nil. lia. }
      change (occ d (reactionTargets [pending])) with 0. lia.
    + intros p x r0 Hp Hr0 Hd.
      apply lookup_app_Some in Hp as [Hp|[_ Hp]]; cycle 1.
      { apply list_lookup_singleton_Some in Hp as [_ <-]. by apply elem_of_nil in Hr0. }
      destruct (decide (p = uq)) as [->|Hne].
      * rewrite list_lookup_insert_eq in Hp by done. simplify_eq.
        simpl in Hr0. apply elem_of_app in Hr0 as [Hr0|Hr0].
        -- exfalso. apply (Hnot (reactionTargets (heap st))); [lia|].
           unfold reactionTargets. apply list_elem_of_bind. exists pr.
           split; [|by eapply list_elem_of_lookup_2].
           unfold reactionTargetsOf. apply list_elem_of_omap. by exists r0.
        -- by apply list_elem_of_singleton in Hr0 as ->.
      * rewrite list_lookup_insert_ne in Hp by done. exfalso.
        apply (Hnot (reactionTargets (heap st))); [lia|].
        unfold reactionTargets. apply list_elem_of_bind. exists x.
        split; [|by eapply list_elem_of_lookup_2].
        unfold reactionTargetsOf. apply list_elem_of_omap. by exists r0.
    + intros j Hj Hd. exfalso.
      apply (Hnot (jobTargets (microtasks st))); [lia|].
      unfold jobTargets. apply list_elem_of_omap. by exists j.
Qed.

(** [queue] with one of its functions keeps the invariant. *)
Lemma queueInv_queue cb st :
  isQueueCallback cb = true ->
  queueInv None st -> queueInv None (fst (queue cb st)).
Proof.
  intros Hcb Hinv.
  destruct (then_queue cb st Hinv)
    as (Hd & Htr & Huq & Hlen & Hpend & Htok & Hreact & Hjob).
  assert (Hinv1 := queueInv_then None (updateQueue st) (Some cb) (Some cb) st Hinv).
  unfold queue.
  destruct (then_ (updateQueue st) (Some cb) (Some cb) st) as [st1 d] eqn:Hthen.
  simpl in *. subst d.
  set (d := length (heap st)) in *. set (uq := updateQueue st) in *.
  assert (Hd2 : 2 <= d) by apply (heap_length None st Hinv).
  assert (Hfresh : d ∉ queued (trace st)).
  { intros Hq. pose proof (queued_bound None st d Hinv Hq). lia. }
  assert (Hnorun : Run d ∉ trace st).
  { intros Hrun. destruct Hinv. apply elem_of_runs in Hrun.
    assert (2 <= d < length (heap st)); [|lia].
    apply q_targets0. rewrite !elem_of_app. tauto. }
  assert (Hc : chain (trace st ++ [Enqueued uq d]) = chain (trace st) ++ [(uq, d)]).
  { by rewrite chain_snoc. }
  assert (Hq : forall x, x ∈ queued (trace st ++ [Enqueued uq d]) <->
                         x ∈ queued (trace st) \/ x = d).
  { intros x. unfold queued. rewrite Hc, fmap_app, elem_of_app. simpl.
    by rewrite list_elem_of_singleton. }
  assert (Hcin : forall on x, (on, x) ∈ chain (trace st ++ [Enqueued uq d]) <->
                              (on, x) ∈ chain (trace st) \/ (on = uq /\ x = d)).
  { intros on x. rewrite Hc, elem_of_app, list_elem_of_singleton.
    split; intros [?|?]; [by left|right; by simplify_eq|by left|right].
    by destruct H0 as [-> ->]. }
  assert (Hruns : runs (trace st ++ [Enqueued uq d]) = runs (trace st)).
  { by rewrite runs_snoc, app_nil_r. }
  assert (Hmono : forall x, x ∈ trace st -> x ∈ trace st ++ [Enqueued uq d]).
  { intros x Hx. apply elem_of_app. by left. }
  assert (Hmono_s : forall on, settledIn on (trace st) ->
                               settledIn on (trace st ++ [Enqueued uq d])).
  { intros on Hs. by apply settledIn_mono. }
  assert (Hold : forall x, Run x ∈ trace st ++ [Enqueued uq d] -> Run x ∈ trace st).
  { intros x Hin. apply elem_of_app in Hin as [Hin|Hin]; [done|].
    by apply list_elem_of_singleton in Hin. }
  destruct Hinv1.
  unfold tokens in *. rewrite Htr in *.
  split; unfold tokens; simpl; rewrite ?Htr, ?Hruns.
  - destruct q_head0 as (pr & Hpr & Hext & Hres). exists pr.
    split; [done|]. split; [done|]. intros Hs. apply elem_of_app. left. by apply Hres.
  - done.
  - done.
  - intros on x Hin. apply Hcin in Hin as [Hin|[-> ->]].
    + by apply (q_bound0 on).
    + split; [lia|]. by eexists.
  - intros x Hx. apply Hq in Hx as [Hx| ->]; [by apply q_token0|done].
  - intros p pr rc x Hp Hrc Hx Hqx.
    apply Hq in Hqx as [Hqx| ->].
    + destruct (q_react0 p pr rc x Hp Hrc Hx Hqx) as (Hc' & Hcb').
      split; [|done]. apply Hcin. by left.
    + destruct (Hreact p pr rc Hp Hrc Hx) as (-> & Hf & Hr).
      split; [|by exists cb]. apply Hcin. by right.
  - intros j x Hj Hx Hqx.
    apply Hq in Hqx as [Hqx| ->].
    + destruct (q_job0 j x Hj Hx Hqx) as (Hcb' & on & Hon & Hs).
      split; [done|]. exists on. split.
      * apply Hcin. by left.
      * by apply settledIn_mono.
    + destruct (Hjob j Hj Hx) as (Hjcb & Hs). split; [by exists cb|].
      exists uq. split.
      * apply Hcin. by right.
      * by apply settledIn_mono.
  - intros x Hqx Hrun _.
    apply Hold in Hrun. apply Hq in Hqx as [Hqx| ->]; [|done].
    by apply q_run0.
  - intros x Hqx Hs. apply Hq in Hqx as [Hqx| ->].
    + destruct (q_settled0 x Hqx Hs) as [b Hb]. exists b. apply elem_of_app. by left.
    + destruct Hs as (pr & o & Hpr & Ho). simpl in Hpr.
      rewrite Hpend in Hpr. by simplify_eq.
  - intros pre post x b Heq.
    apply snoc_split in Heq as [(_ & ? & _)|(post' & _ & Heq)]; [done|].
    by eapply q_ran0.
  - intros pre post on x Heq Hin.
    apply snoc_split in Heq as [(_ & ? & _)|(post' & _ & Heq)]; [done|].
    apply Hcin in Hin as [Hin|[-> ->]].
    + by eapply q_order0.
    + exfalso. apply Hnorun. rewrite Heq. apply elem_of_app. right. by left.
  - destruct q_linked0 as [Hch Hu]. rewrite Hc. split.
    + apply chained_snoc; [done|]. by rewrite <- Hu, Huq.
    + by rewrite tailOf_snoc.
  - unfold queued. rewrite Hc, fmap_app. simpl.
    apply NoDup_app. split; [done|]. split; [|apply NoDup_singleton].
    intros x Hx Hxd. apply list_elem_of_singleton in Hxd as ->. done.
Qed.

(** Effects only add plain events to the history. *)
Lemma effect_trace layout st st' :
  effect layout st st' ->
  exists es, trace st' = trace st ++ es /\ Forall plain es.
Proof.
  induction 1.
  - exists []. by rewrite app_nil_r.
  - destruct IHeffect1 as (es1 & He1 & H1). destruct IHeffect2 as (es2 & He2 & H2).
    exists (es1 ++ es2). rewrite He2, He1, app_assoc. split; [done|].
    by apply Forall_app.
  - exists []. by rewrite app_nil_r.
  - exists [Call c]. split; [done|]. by repeat constructor.
  - exists []. by rewrite app_nil_r.
  - exists []. by rewrite trace_then, app_nil_r.
  - exists []. unfold await. by rewrite trace_addReaction, app_nil_r.
  - exists []. by rewrite trace_settle, app_nil_r.
  - exists []. by rewrite trace_settle, app_nil_r.
  - exists [LayoutResolved]. simpl. rewrite trace_settle.
    split; [done|]. by repeat constructor.
  - exists []. by rewrite app_nil_r.
Qed.

Lemma effect_trace_mono layout st st' e :
  effect layout st st' -> e ∈ trace st -> e ∈ trace st'.
Proof.
  intros Heff Hin. destruct (effect_trace layout st st' Heff) as (es & -> & _).
  apply elem_of_app. by left.
Qed.

Lemma effect_queued layout st st' :
  effect layout st st' -> queued (trace st') = queued (trace st).
Proof.
  intros Heff. destruct (effect_trace layout st st' Heff) as (es & -> & Hes).
  unfold queued, chain. rewrite omap_app.
  assert (omap (fun e => match e with Enqueued on d => Some (on, d) | _ => None end) es
          = []) as ->.
  { induction Hes as [|e es He _ IH]; [done|]. simpl. by destruct e. }
  by rewrite app_nil_r.
Qed.

Lemma isSettled_settle p o st :
  p < length (heap st) -> isSettled p (settle p o st).
Proof.
  intros Hp. destruct (lookup_lt_is_Some_2 _ _ Hp) as [pr Hpr].
  unfold settle, isSettled. rewrite Hpr.
  destruct (settled pr) as [o'|] eqn:Ho.
  - by exists pr, o'.
  - simpl. rewrite list_lookup_insert_eq by done. by eexists _, _.
Qed.

Lemma chain_unique tr on on' d :
  NoDup (queued tr) -> (on, d) ∈ chain tr -> (on', d) ∈ chain tr -> on = on'.
Proof.
  unfold queued. induction (chain tr) as [|[a b] c IH]; intros Hnd Hin Hin'.
  { by apply elem_of_nil in Hin. }
  simpl in Hnd. apply NoDup_cons in Hnd as [Hnot Hnd].
  apply elem_of_cons in Hin as [Heq|Hin]; apply elem_of_cons in Hin' as [Heq'|Hin'].
  - congruence.
  - injection Heq as -> ->. exfalso. apply Hnot.
    by apply (list_elem_of_fmap_2 snd) in Hin'.
  - injection Heq' as -> ->. exfalso. apply Hnot.
    by apply (list_elem_of_fmap_2 snd) in Hin.
  - by apply IH.
Qed.

(** A job leaves the microtask queue and its function begins. *)
Lemma queueInv_begin j rest d st :
  queueInv None st ->
  microtasks st = j :: rest ->
  job_derived j = Some d ->
  queueInv (Some d) (log (Run d) (set_microtasks rest st)).
Proof.
  intros Hinv Hm Hd. destruct Hinv.
  assert (Hjt : jobTargets (microtasks st) = d :: jobTargets rest).
  { rewrite Hm. unfold jobTargets. simpl. by rewrite Hd. }
  assert (Hsub : forall j', j' ∈ rest -> j' ∈ microtasks st).
  { intros j' Hj'. rewrite Hm. by right. }
  assert (Hc : chain (trace st ++ [Run d]) = chain (trace st)).
  { by rewrite chain_snoc, app_nil_r. }
  assert (Hr : runs (trace st ++ [Run d]) = runs (trace st) ++ [d]).
  { by rewrite runs_snoc. }
  assert (Hbound : 2 <= d < length (heap st)).
  { apply q_targets0. rewrite Hjt, !elem_of_app. right. left. by left. }
  split; unfold tokens, queued in *; simpl; rewrite ?Hc, ?Hr.
  - destruct q_head0 as (pr & Hpr & Hext & Hres). exists pr.
    split; [done|]. split; [done|]. intros Hs. apply elem_of_app. left. by apply Hres.
  - done.
  - intros x Hx. rewrite !elem_of_app in Hx.
    destruct Hx as [Hx|[Hx|[Hx|Hx]]].
    + apply q_targets0. rewrite !elem_of_app. tauto.
    + apply q_targets0. rewrite Hjt, !elem_of_app. right. left. by right.
    + apply q_targets0. rewrite !elem_of_app. tauto.
    + by apply list_elem_of_singleton in Hx as ->.
  - done.
  - intros x Hx. specialize (q_token0 x Hx). rewrite Hjt in q_token0.
    rewrite !occ_app, !occ_cons, occ_nil in *. lia.
  - done.
  - intros j' x Hj' Hx Hqx.
    destruct (q_job0 j' x (Hsub j' Hj') Hx Hqx) as (Hcb & on & Hon & Hs).
    split; [done|]. exists on. split; [done|]. by apply settledIn_mono.
  - intros x Hqx Hrun Hne. apply q_run0; [done| |done].
    apply elem_of_app in Hrun as [Hrun|Hrun]; [done|].
    apply list_elem_of_singleton in Hrun. by simplify_eq.
  - intros x Hqx Hs. destruct (q_settled0 x Hqx Hs) as [b Hb].
    exists b. apply elem_of_app. by left.
  - intros pre post x b Heq.
    apply snoc_split in Heq as [(_ & ? & _)|(post' & _ & Heq)]; [done|].
    by eapply q_ran0.
  - intros pre post on x Heq Hin.
    apply snoc_split in Heq as [(-> & Hx & _)|(post' & _ & Heq)].
    + simplify_eq.
      assert (Hqd : d ∈ (chain (trace st)).*2).
      { apply list_elem_of_fmap. by exists (on, d). }
      destruct (q_job0 j d) as (_ & on' & Hon' & Hs); [rewrite Hm; by left|done|done|].
      by rewrite (chain_unique (trace st) on on' d).
    + by eapply q_order0.
  - done.
  - done.
Qed.

Lemma length_heap_addReaction p rc st :
  length (heap (addReaction p rc st)) = length (heap st).
Proof. unfold addReaction. repeat case_match; simpl; by rewrite ?length_insert. Qed.

Lemma length_heap_settle p o st : length (heap (settle p o st)) = length (heap st).
Proof. unfold settle. repeat case_match; simpl; by rewrite ?length_insert. Qed.

Lemma effect_heap_length layout st st' :
  effect layout st st' -> length (heap st) <= length (heap st').
Proof.
  induction 1; simpl; rewrite ?length_heap_settle; try lia.
  - by rewrite H0.
  - rewrite length_app. lia.
  - unfold then_. simpl. rewrite length_heap_addReaction. simpl.
    rewrite length_app. lia.
  - unfold await. by rewrite length_heap_addReaction.
Qed.

(** A job whose derived promise is none of the queue leaves the microtask
    queue. *)
Lemma queueInv_pop j rest st :
  queueInv None st ->
  microtasks st = j :: rest ->
  (forall d, job_derived j = Some d -> d ∉ queued (trace st)) ->
  queueInv None (set_microtasks rest st).
Proof.
  intros [] Hm Hd.
  assert (Hjt : jobTargets (microtasks st) = option_list (job_derived j) ++ jobTargets rest).
  { rewrite Hm. unfold jobTargets. simpl. by destruct (job_derived j). }
  assert (Hsub : forall j', j' ∈ rest -> j' ∈ microtasks st).
  { intros j' Hj'. rewrite Hm. by right. }
  split; unfold tokens in *; simpl; try done.
  - intros x Hx. apply q_targets0. rewrite Hjt, !elem_of_app in *. tauto.
  - intros x Hx. specialize (q_token0 x Hx). rewrite Hjt, occ_app in q_token0.
    assert (occ x (option_list (job_derived j)) = 0) as Hz; [|lia].
    apply occ_not_in. destruct (job_derived j) as [d|] eqn:Hjd; simpl;
      [|apply not_elem_of_nil].
    intros Hin. apply list_elem_of_singleton in Hin as ->. by apply (Hd d).
  - intros j' x Hj'. by apply q_job0, Hsub.
Qed.

(** Running a job keeps the invariant. *)
Lemma queueInv_runJob j rest st :
  queueInv None st ->
  microtasks st = j :: rest ->
  queueInv None (runJob j (set_microtasks rest st)).
Proof.
  intros Hinv Hm. unfold runJob.
  assert (Hj : j ∈ microtasks st) by (rewrite Hm; by left).
  destruct (job_callback j) as [cb|] eqn:Hcb, (job_derived j) as [d|] eqn:Hd.
  - (* a handler with a derived promise *)
    pose proof (queueInv_begin j rest d st Hinv Hm Hd) as Hbegin.
    set (st0 := log (Run d) (set_microtasks rest st)) in *.
    pose proof (effect_runCallback cb (job_argument j) st0) as Heff.
    assert (Hinv1 := queueInv_effect _ _ _ _ Heff Hbegin).
    assert (Hrun : Run d ∈ trace (fst (runCallback cb (job_argument j) st0))).
    { eapply effect_trace_mono; [exact Heff|]. simpl. apply elem_of_app. right. by left. }
    assert (Hq1 : queued (trace (fst (runCallback cb (job_argument j) st0)))
                  = queued (trace st)).
    { rewrite (effect_queued _ _ _ Heff). subst st0. unfold queued. simpl.
      by rewrite chain_snoc, app_nil_r. }
    assert (Hlen := effect_heap_length _ _ _ Heff).
    assert (Hbound : 2 <= d < length (heap st)).
    { destruct Hinv. apply q_targets0. rewrite !elem_of_app. right. left.
      unfold jobTargets. apply list_elem_of_omap. by exists j. }
    assert (Hchainjob : d ∈ queued (trace st) ->
              snd (runCallback cb (job_argument j) st0) = Normal VUndefined \/
              exists e, snd (runCallback cb (job_argument j) st0) = Throw e).
    { intros Hq. destruct Hinv.
      destruct (q_job0 j d Hj Hd Hq) as ((cb' & Hqcb & Hcb') & _).
      rewrite Hcb in Hcb'. simplify_eq.
      destruct cb'; try discriminate Hqcb; simpl.
      - by left.
      - unfold throw, ret. destruct (opaqueThrows n); [right; by eexists|by left]. }
    destruct (runCallback cb (job_argument j) st0) as [st1 c] eqn:Hcall.
    simpl in *.
    assert (Hfinish : forall o b,
              queueInv None (settle d o (log (Ran d b) st1))).
    { intros o b.
      assert (Hlog : queueInv (Some d) (log (Ran d b) st1)).
      { apply queueInv_log; [|done]. right. by exists d, b. }
      eapply queueInv_running.
      - apply queueInv_settle; [exact Hlog| |].
        + unfold pendingInitializeLayout. lia.
        + intros _. exists b. simpl. apply elem_of_app. right. by left.
      - intros d' Hd' _. simplify_eq. apply isSettled_settle. simpl. lia. }
    destruct c as [v|e]; [|apply Hfinish].
    destruct v; try apply Hfinish.
    (* the handler returned a promise: it is adopted *)
    unfold resolve.
    assert (Hnotq : d ∉ queued (trace st)).
    { intros Hq. by destruct (Hchainjob Hq) as [?|[? ?]]. }
    assert (HqR : queued (trace (log (Ran d false) st1)) = queued (trace st)).
    { unfold queued. rewrite chain_log_Ran. by fold (queued (trace st1)). }
    eapply queueInv_running.
    + apply queueInv_addReaction.
      * apply queueInv_log; [|exact Hinv1]. right. by exists d, false.
      * intros d' Hd'. simpl in Hd'. simplify_eq. rewrite HqR.
        split; [|done]. change (heap (log (Ran d' false) st1)) with (heap st1). lia.
    + intros d' Hd' Hq. simplify_eq. exfalso. apply Hnotq.
      rewrite trace_addReaction in Hq. by rewrite HqR in Hq.
  - (* the continuation of an [await] *)
    eapply queueInv_effect; [apply effect_runCallback|].
    apply (queueInv_pop j rest st Hinv Hm). intros d Hd'. congruence.
  - (* no handler: the outcome passes to the derived promise *)
    assert (Hnotq : d ∉ queued (trace st)).
    { intros Hq. destruct Hinv.
      destruct (q_job0 j d Hj Hd Hq) as ((cb' & _ & Hcb') & _). congruence. }
    assert (Hbound : 2 <= d < length (heap st)).
    { destruct Hinv. apply q_targets0. rewrite !elem_of_app. right. left.
      unfold jobTargets. apply list_elem_of_omap. by exists j. }
    apply queueInv_settle.
    + apply (queueInv_pop j rest st Hinv Hm). intros d' Hd'. congruence.
    + unfold pendingInitializeLayout. lia.
    + done.
  - apply (queueInv_pop j rest st Hinv Hm). intros d Hd'. congruence.
Qed.

(** Handling an event keeps the invariant. *)
Lemma queueInv_handle e st : queueInv None st -> queueInv None (handle e st).
Proof.
  intros Hinv. pose proof (effect_handle e st) as Heff.
  destruct e; try (by eapply queueInv_effect).
  - simpl. unfold onDidChange. apply queueInv_queue; [done|].
    eapply queueInv_effect; [apply (effect_tasks false)|done].
  - simpl. by apply queueInv_queue.
Qed.

Lemma queueInv_initial : queueInv None initial.
Proof.
  split; simpl; try done.
  - eexists. split; [reflexivity|]. by split.
  - intros [|[|[|p]]] pr Hp; simpl in Hp; by simplify_eq.
  - intros d Hd. by apply elem_of_nil in Hd.
  - intros on d Hd. by apply elem_of_nil in Hd.
  - intros d Hd. by apply elem_of_nil in Hd.
  - intros [|[|[|p]]] pr r d Hp Hr; simpl in Hp; simplify_eq;
      by apply elem_of_nil in Hr.
  - intros j d Hj. by apply elem_of_nil in Hj.
  - intros d Hd. by apply elem_of_nil in Hd.
  - intros d Hd. by apply elem_of_nil in Hd.
  - intros pre post d b Heq. by destruct pre.
  - intros pre post on d Heq. by destruct pre.
  - apply NoDup_nil_2.
Qed.

(** The invariant holds in every state the contribution reaches. *)
Lemma reachable_queueInv st : reachable st -> queueInv None st.
Proof.
  induction 1 as [|st st' _ IH Hstep].
  - apply queueInv_initial.
  - destruct Hstep as [j rest st Hm|e st Hm].
    + by apply queueInv_runJob.
    + by apply queueInv_handle.
Qed.

End QueueFacts.

(** ** The update queue: order, single run, progress *)

Section SerializerFacts.
Context `{Environment}.

Lemma reachable_drain n st : reachable st -> reachable (drain n st).
Proof.
  revert st. induction n as [|n IH]; intros st Hr; simpl; [done|].
  destruct (microtasks st) as [|j rest] eqn:Hm; [done|].
  apply IH. eapply reachable_step; [exact Hr|]. by apply step_job.
Qed.

Lemma reachable_run n events st :
  reachable st -> quiescentRun n events st = true -> reachable (run n events st).
Proof.
  revert st. induction events as [|e events IH]; intros st Hr Hq; simpl; [done|].
  simpl in Hq. apply andb_true_iff in Hq as [Hm Hq].
  apply bool_decide_eq_true in Hm.
  apply IH; [|done]. apply reachable_drain.
  eapply reachable_step; [exact Hr|]. by apply step_event.
Qed.

(** The function of a promise of the queue begins at most once. *)
Lemma run_once st d :
  reachable st -> d ∈ queued (trace st) -> occ d (runs (trace st)) <= 1.
Proof.
  intros Hr Hq. destruct (reachable_queueInv st Hr).
  specialize (q_token0 d Hq). unfold tokens in q_token0. lia.
Qed.

(** The promises of the queue are chained in the order of enqueueing. *)
Lemma chained_lookup q c i on d :
  chained q c ->
  c !! i = Some (on, d) ->
  match i with
  | 0 => on = q
  | S i' => exists on', c !! i' = Some (on', on)
  end.
Proof.
  revert q i. induction c as [|[a b] c IH]; intros q i Hc Hi; [done|].
  destruct Hc as [-> Hc]. destruct i as [|i]; simpl in Hi.
  - by simplify_eq.
  - specialize (IH b i Hc Hi). destruct i as [|i].
    + subst on. by exists q.
    + done.
Qed.

Lemma queued_lookup tr i d :
  queued tr !! i = Some d <-> exists on, chain tr !! i = Some (on, d).
Proof.
  unfold queued. rewrite list_lookup_fmap. split.
  - intros Hi. destruct (chain tr !! i) as [[on d']|]; simpl in Hi; simplify_eq.
    by exists on.
  - intros [on ->]. done.
Qed.

(** The function at position [j] begins only after every function
    enqueued before it has run to its end. *)
Lemma run_after st :
  reachable st ->
  forall j i d1 d2,
    i < j ->
    queued (trace st) !! i = Some d1 ->
    queued (trace st) !! j = Some d2 ->
    forall pre post, trace st = pre ++ Run d2 :: post ->
    exists threw, Ran d1 threw ∈ pre.
Proof.
  intros Hr. pose proof (reachable_queueInv st Hr) as Hinv. destruct Hinv.
  induction j as [|j IH]; intros i d1 d2 Hij Hi Hj pre post Heq; [lia|].
  apply queued_lookup in Hj as [on Hj].
  destruct q_linked0 as [Hchained _].
  destruct (chained_lookup _ _ _ _ _ Hchained Hj) as [on' Hj'].
  assert (Hin : (on, d2) ∈ chain (trace st)) by (by eapply list_elem_of_lookup_2).
  assert (Hon : queued (trace st) !! j = Some on).
  { apply queued_lookup. by exists on'. }
  destruct (q_order0 pre post on d2 Heq Hin) as [[-> _]|[b Hb]].
  { exfalso. assert (Hin' : (on', pendingInitializeLayout) ∈ chain (trace st))
      by (by eapply list_elem_of_lookup_2).
    destruct (q_bound0 _ _ Hin') as [Hb _]. unfold pendingInitializeLayout in Hb. lia. }
  destruct (decide (i = j)) as [->|Hne].
  { rewrite Hi in Hon. simplify_eq. by exists b. }
  apply list_elem_of_split in Hb as (p1 & p2 & ->).
  assert (Hrun : Run on ∈ p1).
  { apply (q_ran0 p1 (p2 ++ Run d2 :: post) on b). rewrite Heq.
    by rewrite <- app_assoc. }
  apply list_elem_of_split in Hrun as (p0 & p0' & ->).
  destruct (IH i d1 on ltac:(lia) Hi Hon p0 (p0' ++ Ran on b :: p2 ++ Run d2 :: post))
    as [b1 Hb1].
  { rewrite Heq. by rewrite <- !app_assoc. }
  exists b1. rewrite !elem_of_app. by left; left.
Qed.

(** Once a function of the queue has run to its end, however it ended,
    the next one is scheduled or has begun. *)
Lemma settled_scheduled st on d :
  reachable st ->
  (on, d) ∈ chain (trace st) ->
  isSettled on st ->
  Run d ∈ trace st \/ exists j, j ∈ microtasks st /\ job_derived j = Some d.
Proof.
  intros Hr Hin Hset. pose proof (reachable_queueInv st Hr) as Hinv. destruct Hinv.
  assert (Hqd : d ∈ queued (trace st)) by (apply elem_of_queued; by exists on).
  assert (Hnoreact : d ∉ reactionTargets (heap st)).
  { intros Hd. unfold reactionTargets in Hd. apply list_elem_of_bind in Hd as (pr & Hd & Hpr).
    apply list_elem_of_lookup in Hpr as [p Hp].
    unfold reactionTargetsOf in Hd. apply list_elem_of_omap in Hd as (rc & Hrc & Hd).
    destruct (q_react0 p pr rc d Hp Hrc Hd Hqd) as (Hpd & _).
    pose proof (chain_unique _ _ _ _ q_nodup0 Hin Hpd) as <-.
    destruct Hset as (pr' & o & Hpr' & Ho).
    assert (reactions pr = []) as Hnil.
    { apply (q_noreact0 on); [done|]. simplify_eq. congruence. }
    rewrite Hnil in Hrc. by apply elem_of_nil in Hrc. }
  specialize (q_token0 d Hqd). unfold tokens in q_token0.
  rewrite (occ_not_in _ _ Hnoreact) in q_token0.
  destruct (decide (d ∈ runs (trace st))) as [Hd|Hd].
  - left. by apply elem_of_runs.
  - right. rewrite (occ_not_in _ _ Hd) in q_token0.
    assert (d ∈ jobTargets (microtasks st)) as Hj.
    { destruct (decide (d ∈ jobTargets (microtasks st))) as [|Hn]; [done|].
      rewrite (occ_not_in _ _ Hn) in q_token0. lia. }
    unfold jobTargets in Hj. apply list_elem_of_omap in Hj as (j & Hj & Hjd).
    by exists j.
Qed.

Lemma next_scheduled st on d threw :
  reachable st ->
  (on, d) ∈ chain (trace st) ->
  Ran on threw ∈ trace st ->
  Run d ∈ trace st \/ exists j, j ∈ microtasks st /\ job_derived j = Some d.
Proof.
  intros Hr Hin Hran. apply (settled_scheduled st on d Hr Hin).
  pose proof (reachable_queueInv st Hr) as Hinv. destruct Hinv.
  assert (Hrun : Run on ∈ trace st).
  { apply list_elem_of_split in Hran as (p1 & p2 & Heq).
    pose proof (q_ran0 p1 p2 on threw Heq). rewrite Heq. apply elem_of_app. by left. }
  assert (Hqon : on ∈ queued (trace st)).
  { destruct q_linked0 as [Hchained _].
    destruct (chained_on _ _ _ _ Hchained Hin) as [->|Hon]; [|done].
    exfalso. apply elem_of_runs in Hrun.
    assert (2 <= pendingInitializeLayout < length (heap st)) as Hb.
    { apply q_targets0. rewrite !elem_of_app. tauto. }
    unfold pendingInitializeLayout in Hb. lia. }
  by apply q_run0.
Qed.

(** With no microtask left, every function enqueued after one that has
    run to its end has run to its end as well. *)
Lemma run_all st :
  reachable st ->
  microtasks st = [] ->
  forall j i d1 d2 threw,
    i < j ->
    queued (trace st) !! i = Some d1 ->
    queued (trace st) !! j = Some d2 ->
    Ran d1 threw ∈ trace st ->
    exists threw', Ran d2 threw' ∈ trace st.
Proof.
  intros Hr Hm. pose proof (reachable_queueInv st Hr) as Hinv. destruct Hinv.
  induction j as [|j IH]; intros i d1 d2 threw Hij Hi Hj Hran; [lia|].
  apply queued_lookup in Hj as [on Hj].
  destruct q_linked0 as [Hchained _].
  destruct (chained_lookup _ _ _ _ _ Hchained Hj) as [on' Hj'].
  assert (Hin : (on, d2) ∈ chain (trace st)) by (by eapply list_elem_of_lookup_2).
  assert (Hon : queued (trace st) !! j = Some on).
  { apply queued_lookup. by exists on'. }
  assert (Hprev : exists b, Ran on b ∈ trace st).
  { destruct (decide (i = j)) as [->|Hne].
    - rewrite Hi in Hon. simplify_eq. by exists threw.
    - apply (IH i d1 on threw); [lia|done|done|done]. }
  destruct Hprev as [b Hb].
  destruct (next_scheduled st on d2 b Hr Hin Hb) as [Hrun|(job & Hjob & _)].
  - assert (Hqd : d2 ∈ queued (trace st)) by (apply elem_of_queued; by exists on).
    apply q_settled0; [done|]. by apply q_run0.
  - rewrite Hm in Hjob. by apply elem_of_nil in Hjob.
Qed.

(** C1: two functions enqueued on the update queue, the first at position
    [i] with derived promise [d1], the second at a later position [j] with
    [d2], in any state the contribution reaches: each begins at most once;
    the second begins only after the first has run to its end, returned or
    thrown; once the first has ended, either way, the one enqueued next is
    scheduled or has begun, and when no microtask is left the second has
    run to its end too. *)
Theorem queue_serializes st i j d1 d2 :
  reachable st ->
  queued (trace st) !! i = Some d1 ->
  queued (trace st) !! j = Some d2 ->
  i < j ->
  occ d1 (runs (trace st)) <= 1 /\
  occ d2 (runs (trace st)) <= 1 /\
  (forall pre post, trace st = pre ++ Run d2 :: post ->
     exists threw, Ran d1 threw ∈ pre) /\
  (forall threw, Ran d1 threw ∈ trace st ->
     (j = S i ->
      Run d2 ∈ trace st \/ exists job, job ∈ microtasks st /\ job_derived job = Some d2) /\
     (microtasks st = [] -> exists threw', Ran d2 threw' ∈ trace st)).
Proof.
  intros Hr Hi Hj Hij.
  split; [|split; [|split]].
  - apply run_once; [done|]. by eapply list_elem_of_lookup_2.
  - apply run_once; [done|]. by eapply list_elem_of_lookup_2.
  - intros pre post Heq. by apply (run_after st Hr j i d1 d2 Hij Hi Hj pre post).
  - intros threw Hran. split.
    + intros ->. pose proof (reachable_queueInv st Hr) as Hinv. destruct Hinv.
      apply queued_lookup in Hj as [on Hj].
      destruct q_linked0 as [Hchained _].
      destruct (chained_lookup _ _ _ _ _ Hchained Hj) as [on' Hj'].
      assert (on = d1) as ->.
      { apply queued_lookup in Hi as [on'' Hi]. congruence. }
      apply (next_scheduled st d1 d2 threw Hr); [|done].
      by eapply list_elem_of_lookup_2.
    + intros Hm. by apply (run_all st Hr Hm j i d1 d2 threw).
Qed.

End SerializerFacts.

Lemma queue_serializes_witness :
  occ 2 (runs (trace Samples.queueRun)) <= 1 /\
  occ 3 (runs (trace Samples.queueRun)) <= 1 /\
  (forall pre post, trace Samples.queueRun = pre ++ Run 3 :: post ->
     exists threw, Ran 2 threw ∈ pre) /\
  (forall threw, Ran 2 threw ∈ trace Samples.queueRun ->
     (1 = 1 ->
      Run 3 ∈ trace Samples.queueRun \/
      exists job, job ∈ microtasks Samples.queueRun /\ job_derived job = Some 3) /\
     (microtasks Samples.queueRun = [] ->
      exists threw', Ran 3 threw' ∈ trace Samples.queueRun)).
Proof.
  apply (@queue_serializes Samples.theia Samples.queueRun 0 1 2 3).
  - apply reachable_run; [apply reachable_initial|vm_compute; reflexivity].
  - vm_compute. reflexivity.
  - vm_compute. reflexivity.
  - lia.
Defined.

(** The first function throws and the second runs all the same, after it. *)
Example queue_failure_does_not_block :
  trace Samples.queueRun
  = [Enqueued 1 2; Enqueued 2 3; Enqueued 3 4;
     LayoutResolved; Call (NewTerminal noOptions);
     Run 2; Ran 2 true; Run 3; Ran 3 false; Run 4; Ran 4 false].
Proof. vm_compute. reflexivity. Qed.

(** ** The initial layout comes before the updates *)

Section LayoutOrderFacts.
Context `{Environment}.

Lemma bind_insert {A B} (f : A -> list B) (h : list A) p x x' :
  h !! p = Some x ->
  exists L R, h ≫= f = L ++ f x ++ R /\ <[p:=x']> h ≫= f = L ++ f x' ++ R.
Proof.
  intros Hp. exists (take p h ≫= f), (drop (S p) h ≫= f). split.
  - rewrite <- (take_drop_middle h p x Hp) at 1. by rewrite bind_app, bind_cons.
  - rewrite insert_take_drop by (by eapply lookup_lt_Some).
    by rewrite bind_app, bind_cons.
Qed.

Lemma loopReactions_app rs1 rs2 :
  loopReactions (rs1 ++ rs2) = loopReactions rs1 + loopReactions rs2.
Proof. unfold loopReactions. by rewrite filter_app, length_app. Qed.

Lemma loopJobs_app q1 q2 : loopJobs (q1 ++ q2) = loopJobs q1 + loopJobs q2.
Proof. unfold loopJobs. by rewrite filter_app, length_app. Qed.

Lemma loopReactions_cons r rs :
  loopReactions (r :: rs) = (if isLoopReaction r then 1 else 0) + loopReactions rs.
Proof.
  unfold loopReactions. destruct (isLoopReaction r) eqn:Hr.
  - by rewrite filter_cons_True.
  - rewrite filter_cons_False; [done|]. by rewrite Hr.
Qed.

Lemma loopJobs_cons j q :
  loopJobs (j :: q) = (if isLoopJob j then 1 else 0) + loopJobs q.
Proof.
  unfold loopJobs. destruct (isLoopJob j) eqn:Hj.
  - by rewrite filter_cons_True.
  - rewrite filter_cons_False; [done|]. by rewrite Hj.
Qed.

Lemma isLoopJob_jobFor o r : isLoopJob (jobFor o r) = true -> isLoopReaction r = true.
Proof.
  unfold isLoopJob, isLoopReaction. destruct o; simpl; intros ->; by rewrite ?orb_true_r.
Qed.

Lemma loopJobs_jobFor o rs : loopJobs (map (jobFor o) rs) <= loopReactions rs.
Proof.
  induction rs as [|r rs IH]; [done|].
  simpl. rewrite loopJobs_cons, loopReactions_cons.
  destruct (isLoopJob (jobFor o r)) eqn:Hj.
  - rewrite (isLoopJob_jobFor o r Hj). lia.
  - destruct (isLoopReaction r); lia.
Qed.

Lemma continuations_addReaction p r st :
  continuations (addReaction p r st)
  <= continuations st + (if isLoopReaction r then 1 else 0).
Proof.
  unfold addReaction, continuations.
  destruct (heap st !! p) as [pr|] eqn:Hp; [|lia].
  destruct (settled pr) as [o|]; simpl.
  - rewrite loopJobs_app, loopJobs_cons. simpl.
    destruct (isLoopJob (jobFor o r)) eqn:Hj.
    + rewrite (isLoopJob_jobFor o r Hj). change (loopJobs []) with 0. lia.
    + change (loopJobs []) with 0. destruct (isLoopReaction r); lia.
  - set (pr' := {| settled := None; reactions := reactions pr ++ [r];
                   external := external pr |}).
    destruct (bind_insert reactions (heap st) p pr pr' Hp) as (L & R & -> & ->).
    rewrite !loopReactions_app. simpl. rewrite loopReactions_app, loopReactions_cons.
    change (loopReactions []) with 0. lia.
Qed.

Lemma continuations_settle p o st : continuations (settle p o st) <= continuations st.
Proof.
  unfold settle, continuations.
  destruct (heap st !! p) as [pr|] eqn:Hp; [|lia].
  destruct (settled pr) as [o'|]; [lia|]. simpl.
  set (pr' := {| settled := Some o; reactions := []; external := external pr |}).
  destruct (bind_insert reactions (heap st) p pr pr' Hp) as (L & R & -> & ->).
  rewrite !loopReactions_app, loopJobs_app. simpl.
  pose proof (loopJobs_jobFor o (reactions pr)). change (loopReactions []) with 0. lia.
Qed.

Lemma continuations_new ext st :
  continuations (fst (newPromise ext st)) = continuations st.
Proof.
  unfold continuations. simpl. rewrite bind_app, loopReactions_app. simpl.
  change (loopReactions []) with 0. lia.
Qed.

Lemma quiet_refl st : quiet st st.
Proof.
  split; [done|]. split; [done|]. exists []. by rewrite app_nil_r.
Qed.

Lemma quiet_trans st1 st2 st3 : quiet st1 st2 -> quiet st2 st3 -> quiet st1 st3.
Proof.
  intros (Hc1 & Hl1 & es1 & He1 & Ha1) (Hc2 & Hl2 & es2 & He2 & Ha2).
  split; [lia|]. split; [congruence|].
  exists (es1 ++ es2). rewrite He2, He1, app_assoc. split; [done|].
  by apply Forall_app.
Qed.

Lemma quiet_frame st st' :
  heap st' = heap st -> microtasks st' = microtasks st ->
  layoutCalled st' = layoutCalled st -> trace st' = trace st ->
  quiet st st'.
Proof.
  intros Hh Hm Hl Ht. unfold quiet, continuations. rewrite Hh, Hm, Hl, Ht.
  split; [done|]. split; [done|]. exists []. by rewrite app_nil_r.
Qed.

Lemma quiet_log e st : afterLayout e -> quiet st (log e st).
Proof.
  intros He. split; [done|]. split; [done|]. exists [e]. split; [done|].
  apply Forall_cons_2; [done|apply Forall_nil_2].
Qed.

Lemma quiet_addReaction p r st :
  isLoopReaction r = false -> quiet st (addReaction p r st).
Proof.
  intros Hr. split; [|split].
  - pose proof (continuations_addReaction p r st) as Hc. rewrite Hr in Hc. lia.
  - by rewrite layoutCalled_addReaction.
  - exists []. by rewrite trace_addReaction, app_nil_r.
Qed.

Lemma quiet_settle p o st : quiet st (settle p o st).
Proof.
  split; [apply continuations_settle|]. split; [by rewrite layoutCalled_settle|].
  exists []. by rewrite trace_settle, app_nil_r.
Qed.

Lemma quiet_new ext st : quiet st (fst (newPromise ext st)).
Proof.
  split; [by rewrite continuations_new|]. split; [done|].
  exists []. by rewrite app_nil_r.
Qed.

Lemma quiet_then p f g st :
  from_option isLoopContinuation false f = false ->
  from_option isLoopContinuation false g = false ->
  quiet st (fst (then_ p f g st)).
Proof.
  intros Hf Hg. unfold then_. simpl.
  eapply quiet_trans; [apply (quiet_new false)|].
  apply quiet_addReaction. unfold isLoopReaction. simpl. by rewrite Hf, Hg.
Qed.

(** What is no step of the loop of the initial layout is quiet. *)
Lemma effect_quiet st st' : effect false st st' -> quiet st st'.
Proof.
  remember false as layout eqn:Hl. induction 1; subst layout.
  - apply quiet_refl.
  - eapply quiet_trans; eauto.
  - by apply quiet_frame.
  - apply quiet_log. split; [|done]. simpl.
    destruct (isLayoutCall c) eqn:Hc; [|done]. by specialize (H0 eq_refl).
  - apply quiet_new.
  - by apply quiet_then.
  - apply quiet_addReaction. unfold isLoopReaction. simpl.
    destruct (isLoopContinuation k) eqn:Hk; [|done]. by specialize (H0 eq_refl).
  - apply quiet_settle.
  - apply quiet_settle.
  - done.
  - done.
Qed.

Lemma layoutInv_quiet st st' : layoutInv st -> quiet st st' -> layoutInv st'.
Proof.
  intros [] (Hc & Hl & es & He & Ha).
  assert (Hres : LayoutResolved ∈ trace st' -> LayoutResolved ∈ trace st).
  { rewrite He. intros Hin. apply elem_of_app in Hin as [Hin|Hin]; [done|].
    rewrite Forall_forall in Ha. by destruct (Ha _ Hin) as [_ Hne]. }
  split.
  - lia.
  - intros Hin. specialize (l_resolved0 (Hres Hin)). lia.
  - rewrite Hl. intros Hcalled. destruct (l_called0 Hcalled) as [Hz Hnot].
    split; [lia|]. intros Hin. by apply Hnot, Hres.
  - intros pre post Heq. rewrite He in Heq.
    assert (Hcases : (exists post', trace st = pre ++ LayoutResolved :: post' /\
                                    post = post' ++ es) \/
                     LayoutResolved ∈ es).
    { clear -Heq. revert pre post Heq.
      induction (trace st) as [|e tr IH]; intros pre post Heq.
      - right. simpl in Heq. rewrite Heq. apply elem_of_app. right. by left.
      - destruct pre as [|e' pre]; simpl in Heq.
        + left. exists tr. simplify_eq. done.
        + injection Heq as <- Heq. destruct (IH pre post Heq) as [(post' & -> & ->)|Hin].
          * left. by exists post'.
          * by right. }
    destruct Hcases as [(post' & Heq' & ->)|Hin].
    + apply Forall_app. split; [by eapply l_after0|done].
    + rewrite Forall_forall in Ha. by destruct (Ha _ Hin) as [_ Hne].
Qed.

End LayoutOrderFacts.

Section LayoutSteps.
Context `{Environment}.

Lemma loopStep_prefix st1 st2 st3 es0 :
  continuations st2 <= continuations st1 ->
  layoutCalled st2 = layoutCalled st1 ->
  trace st2 = trace st1 ++ es0 ->
  LayoutResolved ∉ es0 ->
  loopStep st2 st3 -> loopStep st1 st3.
Proof.
  intros Hc Hl He Hno (Hl' & es & He' & Hcases).
  split; [congruence|]. exists (es0 ++ es).
  split; [by rewrite He', He, app_assoc|].
  destruct Hcases as [[Hc' Hno']|(Hc' & es1 & es2 & -> & Hno' & Ha)].
  - left. split; [lia|]. rewrite elem_of_app. tauto.
  - right. split; [lia|]. exists (es0 ++ es1), es2.
    split; [by rewrite app_assoc|]. split; [|done].
    rewrite elem_of_app. tauto.
Qed.

Lemma afterLayout_unresolved es : Forall afterLayout es -> LayoutResolved ∉ es.
Proof.
  rewrite Forall_forall. intros Ha Hin. by destruct (Ha _ Hin).
Qed.

Lemma loopStep_quiet_l st1 st2 st3 : quiet st1 st2 -> loopStep st2 st3 -> loopStep st1 st3.
Proof.
  intros (Hc & Hl & es & He & Ha). apply loopStep_prefix with es; try done.
  by apply afterLayout_unresolved.
Qed.

Lemma loopStep_quiet_r st1 st2 st3 : loopStep st1 st2 -> quiet st2 st3 -> loopStep st1 st3.
Proof.
  intros (Hl & es & He & Hcases) (Hc' & Hl' & es' & He' & Ha').
  split; [congruence|]. exists (es ++ es').
  split; [by rewrite He', He, app_assoc|].
  destruct Hcases as [[Hc Hno]|(Hc & es1 & es2 & -> & Hno & Ha)].
  - left. split; [lia|]. rewrite elem_of_app.
    pose proof (afterLayout_unresolved es' Ha'). tauto.
  - right. split; [lia|]. exists es1, (es2 ++ es').
    split; [by rewrite <- app_assoc|]. split; [done|]. by apply Forall_app.
Qed.

Lemma quiet_loopStep st st' : quiet st st' -> loopStep st st'.
Proof.
  intros (Hc & Hl & es & He & Ha). split; [done|]. exists es. split; [done|].
  left. split; [lia|]. by apply afterLayout_unresolved.
Qed.

Lemma loopStep_call c st st' : loopStep (log (Call c) st) st' -> loopStep st st'.
Proof.
  apply loopStep_prefix with [Call c]; try done.
  rewrite list_elem_of_singleton. discriminate.
Qed.

(** Lines 168-175: the layout is resolved, and what follows is no call of
    the loop. *)
Lemma loopStep_layoutFinish st : loopStep st (layoutFinish st).
Proof.
  unfold layoutFinish.
  set (st1 := log LayoutResolved _).
  assert (Hq : quiet st1
    (if (length (terminalsAll st1) =? 0)%nat
     then let '(st2, p) := newTerminal noOptions st1 in await p ResumeLayoutDefault st2
     else set_layoutResult (Some (Fulfilled VUndefined)) st1)).
  { apply effect_quiet. case_match; [|by apply effect_frame].
    destruct (newTerminal noOptions st1) as [st2 p] eqn:Hnew.
    replace st2 with (fst (newTerminal noOptions st1)) by (by rewrite Hnew).
    apply effect_trans with (fst (newTerminal noOptions st1));
      [by apply effect_newTerminal|].
    by apply effect_await. }
  destruct Hq as (Hc & Hl & es & He & Ha).
  split.
  - rewrite Hl. unfold st1. simpl. apply layoutCalled_settle.
  - exists (LayoutResolved :: es). split.
    + rewrite He. unfold st1. simpl. rewrite trace_settle. by rewrite <- app_assoc.
    + right. split.
      * etrans; [exact Hc|]. unfold st1.
        apply (continuations_settle pendingInitializeLayout (Fulfilled VUndefined) st).
      * exists [], es. split; [done|]. split; [|done]. apply not_elem_of_nil.
Qed.

Lemma loopStep_newTerminal options k st :
  loopStep st (await (snd (newTerminal options st)) k (fst (newTerminal options st))).
Proof.
  unfold await. split.
  - by rewrite layoutCalled_addReaction.
  - exists [Call (NewTerminal options)]. split.
    + by rewrite trace_addReaction.
    + left. split.
      * etrans; [apply continuations_addReaction|].
        unfold newTerminal. rewrite continuations_new.
        change (continuations (log (Call (NewTerminal options)) st))
          with (continuations st).
        destruct (isLoopReaction _); lia.
      * rewrite list_elem_of_singleton. discriminate.
Qed.

Lemma loopStep_layoutLoop tasks ref st : loopStep st (layoutLoop tasks ref st).
Proof.
  revert ref st. induction tasks as [|t rest IH]; intros ref st; simpl.
  { apply loopStep_layoutFinish. }
  repeat case_match; try apply IH.
  - match goal with
    | |- loopStep _ (await _ ?k (set_heap _ (log (Call (NewTerminal ?o)) _))) =>
        apply (loopStep_newTerminal o k)
    end.
  - unfold layoutFailure. eapply loopStep_call. apply IH.
Qed.

Lemma loopStep_resumeLayoutNew t rest ref arg st :
  loopStep st (resumeLayoutNew t rest ref arg st).
Proof.
  assert (Hfail : forall e, loopStep st (layoutLoop rest ref (layoutFailure e st))).
  { intros e. unfold layoutFailure. eapply loopStep_call. apply loopStep_layoutLoop. }
  unfold resumeLayoutNew.
  destruct arg as [v|e]; [|apply Hfail].
  destruct v; try (destruct (task_presentation t); apply Hfail).
  destruct (task_presentation t) as [presentation|]; [|apply Hfail].
  unfold activateTerminal.
  destruct (activateTerminalThrows _ _ _ _).
  - eapply loopStep_call. unfold layoutFailure. eapply loopStep_call.
    apply loopStep_layoutLoop.
  - eapply loopStep_call. apply loopStep_layoutLoop.
Qed.

Lemma loopStep_resumeLayoutTasks arg st : loopStep st (resumeLayoutTasks arg st).
Proof.
  unfold resumeLayoutTasks. repeat case_match;
    first [apply loopStep_layoutLoop | by apply quiet_loopStep, quiet_frame].
Qed.

Lemma loopStep_runCallback cb arg st : loopStep st (fst (runCallback cb arg st)).
Proof.
  destruct (isLoopContinuation cb) eqn:Hcb.
  - destruct cb; try discriminate; simpl.
    + apply loopStep_resumeLayoutTasks.
    + apply loopStep_resumeLayoutNew.
  - apply quiet_loopStep, effect_quiet. rewrite <- Hcb. apply effect_runCallback.
Qed.

Lemma quiet_runCallback cb arg st :
  isLoopContinuation cb = false -> quiet st (fst (runCallback cb arg st)).
Proof.
  intros Hcb. apply effect_quiet. rewrite <- Hcb. apply effect_runCallback.
Qed.

(** A step of the loop keeps the invariant when no continuation is left
    besides the one that runs and the layout is unresolved. *)
Lemma layoutInv_loopStep st st' :
  layoutInv st -> continuations st = 0 -> LayoutResolved ∉ trace st ->
  layoutCalled st = true ->
  loopStep st st' -> layoutInv st'.
Proof.
  intros [] Hz Hno Hcalled (Hl & es & He & Hcases).
  destruct Hcases as [[Hc Hno']|(Hc & es1 & es2 & -> & Hno' & Ha)].
  - assert (Hnot : LayoutResolved ∉ trace st').
    { rewrite He, elem_of_app. tauto. }
    split; try done.
    + lia.
    + congruence.
    + intros pre post Heq. exfalso. apply Hnot. rewrite Heq.
      apply elem_of_app. right. by left.
  - split.
    + lia.
    + intros _. lia.
    + congruence.
    + intros pre post Heq. rewrite He, app_assoc in Heq.
      assert (Hno1 : LayoutResolved ∉ trace st ++ es1).
      { rewrite elem_of_app. tauto. }
      assert (Hno2 : LayoutResolved ∉ es2) by (by apply afterLayout_unresolved).
      assert (pre = trace st ++ es1 /\ post = es2) as [_ ->]; [|done].
      clear -Heq Hno1 Hno2. revert pre Heq.
      induction (trace st ++ es1) as [|e l IH]; intros pre Heq.
      * destruct pre as [|e' pre]; simpl in Heq; [by simplify_eq|].
        exfalso. injection Heq as <- Heq. apply Hno2. rewrite Heq.
        apply elem_of_app. right. by left.
      * destruct pre as [|e' pre]; simpl in Heq.
        -- exfalso. injection Heq as -> _. apply Hno1. by left.
        -- injection Heq as <- Heq. destruct (IH (fun Hin => Hno1 (list_elem_of_further _ _ _ Hin)) pre Heq)
             as [-> ->]. done.
Qed.

End LayoutSteps.

Section LayoutInvariant.
Context `{Environment}.

Lemma continuations_pop j rest st :
  microtasks st = j :: rest ->
  continuations (set_microtasks rest st) + (if isLoopJob j then 1 else 0)
  = continuations st.
Proof.
  intros Hm. unfold continuations. simpl. rewrite Hm, loopJobs_cons. lia.
Qed.

Lemma quiet_pop j rest st : microtasks st = j :: rest -> quiet st (set_microtasks rest st).
Proof.
  intros Hm. split; [|split; [done|]].
  - pose proof (continuations_pop j rest st Hm). lia.
  - exists []. simpl. by rewrite app_nil_r.
Qed.

Lemma quiet_resolve d v st : quiet st (resolve d v st).
Proof.
  unfold resolve. destruct v; try apply quiet_settle. by apply quiet_addReaction.
Qed.

Lemma afterLayout_run d : afterLayout (Run d).
Proof. by split. Qed.

Lemma afterLayout_ran d threw : afterLayout (Ran d threw).
Proof. by split. Qed.

Lemma afterLayout_enqueued on d : afterLayout (Enqueued on d).
Proof. by split. Qed.

(** What follows a scheduled function: its promise is settled or
    resolved. *)
Lemma quiet_finish d r st :
  quiet st (match r with
            | Normal v => resolve d v (log (Ran d false) st)
            | Throw e => settle d (Rejected e) (log (Ran d true) st)
            end).
Proof.
  destruct r as [v|e].
  - eapply quiet_trans; [apply quiet_log, afterLayout_ran|apply quiet_resolve].
  - eapply quiet_trans; [apply quiet_log, afterLayout_ran|apply quiet_settle].
Qed.

Lemma runJob_unfold cb d arg st :
  match runCallback cb arg (log (Run d) st) with
  | (st1, Normal v) => resolve d v (log (Ran d false) st1)
  | (st1, Throw e) => settle d (Rejected e) (log (Ran d true) st1)
  end
  = match snd (runCallback cb arg (log (Run d) st)) with
    | Normal v => resolve d v (log (Ran d false) (fst (runCallback cb arg (log (Run d) st))))
    | Throw e => settle d (Rejected e) (log (Ran d true) (fst (runCallback cb arg (log (Run d) st))))
    end.
Proof. by destruct (runCallback cb arg (log (Run d) st)) as [st1 [v|e]]. Qed.

Lemma quiet_runJob j st : isLoopJob j = false -> quiet st (runJob j st).
Proof.
  unfold isLoopJob, runJob. intros Hj.
  destruct (job_callback j) as [cb|], (job_derived j) as [d|]; simpl in Hj.
  - rewrite runJob_unfold.
    eapply quiet_trans; [apply quiet_log, (afterLayout_run d)|].
    eapply quiet_trans; [by apply quiet_runCallback|]. apply quiet_finish.
  - by apply quiet_runCallback.
  - apply quiet_settle.
  - apply quiet_refl.
Qed.

Lemma loopStep_runJob j st : loopStep st (runJob j st).
Proof.
  unfold runJob.
  destruct (job_callback j) as [cb|], (job_derived j) as [d|].
  - rewrite runJob_unfold.
    eapply loopStep_quiet_l; [apply quiet_log, (afterLayout_run d)|].
    eapply loopStep_quiet_r; [apply loopStep_runCallback|]. apply quiet_finish.
  - apply loopStep_runCallback.
  - apply quiet_loopStep, quiet_settle.
  - apply quiet_loopStep, quiet_refl.
Qed.

Lemma layoutInv_runJob j rest st :
  layoutInv st -> microtasks st = j :: rest ->
  layoutInv (runJob j (set_microtasks rest st)).
Proof.
  intros Hinv Hm.
  pose proof (continuations_pop j rest st Hm) as Hpop.
  pose proof (layoutInv_quiet _ _ Hinv (quiet_pop j rest st Hm)) as Hinv0.
  destruct (isLoopJob j) eqn:Hj.
  - destruct Hinv.
    assert (Hz : continuations (set_microtasks rest st) = 0) by lia.
    assert (Hno : LayoutResolved ∉ trace st).
    { intros Hin. specialize (l_resolved0 Hin). lia. }
    assert (Hcalled : layoutCalled st = true).
    { destruct (layoutCalled st) eqn:Hc; [done|].
      destruct (l_called0 eq_refl) as [Hz' _]. lia. }
    apply layoutInv_loopStep with (set_microtasks rest st); try done.
    apply loopStep_runJob.
  - eapply layoutInv_quiet; [exact Hinv0|]. by apply quiet_runJob.
Qed.

Lemma quiet_queue cb st :
  isLoopContinuation cb = false -> quiet st (fst (queue cb st)).
Proof.
  intros Hcb. unfold queue.
  destruct (then_ (updateQueue st) (Some cb) (Some cb) st) as [st1 d] eqn:Hthen.
  simpl.
  assert (Hq : quiet st st1).
  { replace st1 with (fst (then_ (updateQueue st) (Some cb) (Some cb) st))
      by (by rewrite Hthen).
    by apply quiet_then. }
  eapply quiet_trans; [exact Hq|].
  eapply quiet_trans; [|apply quiet_log, afterLayout_enqueued].
  by apply quiet_frame.
Qed.

Lemma layoutInv_handle e st : layoutInv st -> layoutInv (handle e st).
Proof.
  intros Hinv. pose proof (effect_handle e st) as He.
  destruct e; simpl in *;
    try (by (eapply layoutInv_quiet; [exact Hinv|]; by apply effect_quiet)).
  - unfold onDidChange. eapply layoutInv_quiet; [exact Hinv|].
    eapply quiet_trans; [apply quiet_settle|]. by apply quiet_queue.
  - destruct (layoutCalled st) eqn:Hc; [done|].
    destruct Hinv. destruct (l_called0 Hc) as [Hz Hno].
    unfold onDidInitializeLayout, await. split.
    + etrans; [apply continuations_addReaction|].
      change (continuations (set_layoutCalled true st)) with (continuations st).
      destruct (isLoopReaction _); lia.
    + rewrite trace_addReaction. simpl. intros Hin. by destruct Hno.
    + by rewrite layoutCalled_addReaction.
    + rewrite trace_addReaction. simpl. apply l_after0.
  - eapply layoutInv_quiet; [exact Hinv|]. by apply quiet_queue.
Qed.

Lemma layoutInv_initial : layoutInv initial.
Proof.
  split.
  - vm_compute. lia.
  - simpl. intros Hin. by apply not_elem_of_nil in Hin.
  - intros _. split; [by vm_compute|]. simpl. apply not_elem_of_nil.
  - simpl. intros pre post Heq. by destruct pre.
Qed.

Lemma reachable_layoutInv st : reachable st -> layoutInv st.
Proof.
  induction 1 as [|st st' Hr IH Hstep]; [apply layoutInv_initial|].
  destruct Hstep as [j rest st Hm|e st Hm].
  - by apply layoutInv_runJob.
  - by apply layoutInv_handle.
Qed.

(** A function of the queue begins only once the initial layout has been
    resolved. *)
Lemma run_after_layout st :
  reachable st ->
  forall j d, queued (trace st) !! j = Some d ->
  forall pre post, trace st = pre ++ Run d :: post -> LayoutResolved ∈ pre.
Proof.
  intros Hr. pose proof (reachable_queueInv st Hr) as Hinv. destruct Hinv.
  destruct q_linked0 as [Hchained _].
  induction j as [|j IH]; intros d Hj pre post Heq.
  - apply queued_lookup in Hj as [on Hj].
    pose proof (chained_lookup _ _ _ _ _ Hchained Hj) as Hon. simpl in Hon. subst on.
    assert (Hin : (pendingInitializeLayout, d) ∈ chain (trace st))
      by (by eapply list_elem_of_lookup_2).
    destruct (q_order0 pre post _ d Heq Hin) as [[_ Hres]|[b Hb]]; [done|].
    exfalso. apply list_elem_of_split in Hb as (p1 & p2 & ->).
    assert (Hrun : Run pendingInitializeLayout ∈ p1).
    { apply (q_ran0 p1 (p2 ++ Run d :: post) pendingInitializeLayout b).
      rewrite Heq. by rewrite <- app_assoc. }
    assert (Hb : 2 <= pendingInitializeLayout < length (heap st)).
    { apply q_targets0. rewrite !elem_of_app. right; right.
      apply elem_of_runs. rewrite Heq, !elem_of_app. by left; left. }
    unfold pendingInitializeLayout in Hb. lia.
  - apply queued_lookup in Hj as [on Hj].
    destruct (chained_lookup _ _ _ _ _ Hchained Hj) as [on' Hj'].
    assert (Hin : (on, d) ∈ chain (trace st)) by (by eapply list_elem_of_lookup_2).
    assert (Hon : queued (trace st) !! j = Some on).
    { apply queued_lookup. by exists on'. }
    destruct (q_order0 pre post on d Heq Hin) as [[_ Hres]|[b Hb]]; [done|].
    apply list_elem_of_split in Hb as (p1 & p2 & ->).
    assert (Hrun : Run on ∈ p1).
    { apply (q_ran0 p1 (p2 ++ Run d :: post) on b). rewrite Heq.
      by rewrite <- app_assoc. }
    apply list_elem_of_split in Hrun as (p0 & p0' & ->).
    assert (Hres : LayoutResolved ∈ p0).
    { apply (IH on Hon p0 (p0' ++ Ran on b :: p2 ++ Run d :: post)).
      rewrite Heq. by rewrite <- !app_assoc. }
    rewrite !elem_of_app. by left; left.
Qed.

End LayoutInvariant.

Section LayoutReleases.
Context `{Environment}.

Lemma isSettled_same p st st' : heap st' = heap st -> isSettled p st -> isSettled p st'.
Proof. unfold isSettled. by intros ->. Qed.

Lemma isSettled_addReaction p q r st :
  isSettled p st -> isSettled p (addReaction q r st).
Proof.
  intros (pr & o & Hp & Ho). unfold addReaction.
  destruct (heap st !! q) as [pq|] eqn:Hq; [|by exists pr, o].
  destruct (settled pq) eqn:Hs; [by exists pr, o|]. simpl.
  destruct (decide (p = q)) as [->|Hne]; [congruence|].
  exists pr, o. simpl. by rewrite list_lookup_insert_ne.
Qed.

Lemma isSettled_settled p q o st : isSettled p st -> isSettled p (settle q o st).
Proof.
  intros (pr & o' & Hp & Ho). unfold settle.
  destruct (heap st !! q) as [pq|] eqn:Hq; [|by exists pr, o'].
  destruct (settled pq) eqn:Hs; [by exists pr, o'|]. simpl.
  destruct (decide (p = q)) as [->|Hne]; [congruence|].
  exists pr, o'. simpl. by rewrite list_lookup_insert_ne.
Qed.

Lemma isSettled_new p ext st : isSettled p st -> isSettled p (fst (newPromise ext st)).
Proof.
  intros (pr & o & Hp & Ho). exists pr, o. split; [|done]. simpl.
  by apply lookup_app_l_Some.
Qed.

Lemma resolvedSettled_same st st' :
  heap st' = heap st -> trace st' = trace st ->
  resolvedSettled st -> resolvedSettled st'.
Proof.
  intros Hh Ht [Hlen Hs]. split; [by rewrite Hh|]. rewrite Ht.
  intros Hin. by apply (isSettled_same _ st), Hs.
Qed.

Lemma resolvedSettled_log e st :
  e <> LayoutResolved -> resolvedSettled st -> resolvedSettled (log e st).
Proof.
  intros He [Hlen Hs]. split; [done|]. simpl. intros Hin.
  apply elem_of_app in Hin as [Hin|Hin].
  - by apply (isSettled_same _ st), Hs.
  - apply list_elem_of_singleton in Hin. by subst e.
Qed.

Lemma resolvedSettled_addReaction p r st :
  resolvedSettled st -> resolvedSettled (addReaction p r st).
Proof.
  intros [Hlen Hs]. split; [by rewrite length_heap_addReaction|].
  rewrite trace_addReaction. intros Hin. by apply isSettled_addReaction, Hs.
Qed.

Lemma resolvedSettled_settle p o st :
  resolvedSettled st -> resolvedSettled (settle p o st).
Proof.
  intros [Hlen Hs]. split; [by rewrite length_heap_settle|].
  rewrite trace_settle. intros Hin. by apply isSettled_settled, Hs.
Qed.

Lemma resolvedSettled_new ext st :
  resolvedSettled st -> resolvedSettled (fst (newPromise ext st)).
Proof.
  intros [Hlen Hs]. split.
  - simpl. rewrite length_app. lia.
  - intros Hin. by apply isSettled_new, Hs.
Qed.

Lemma resolvedSettled_then p f g st :
  resolvedSettled st -> resolvedSettled (fst (then_ p f g st)).
Proof.
  intros Hs. unfold then_. simpl.
  by apply resolvedSettled_addReaction, (resolvedSettled_new false).
Qed.

Lemma resolvedSettled_resolve d v st :
  resolvedSettled st -> resolvedSettled (resolve d v st).
Proof.
  intros Hs. unfold resolve.
  destruct v; try (by apply resolvedSettled_settle).
  by apply resolvedSettled_addReaction.
Qed.

Lemma effect_resolvedSettled layout st st' :
  effect layout st st' -> resolvedSettled st -> resolvedSettled st'.
Proof.
  induction 1; intros Hs.
  - done.
  - eauto.
  - by apply (resolvedSettled_same st).
  - by apply resolvedSettled_log.
  - by apply resolvedSettled_new.
  - by apply resolvedSettled_then.
  - by apply resolvedSettled_addReaction.
  - by apply resolvedSettled_settle.
  - by apply resolvedSettled_settle.
  - destruct Hs as [Hlen Hs]. split.
    + simpl. by rewrite length_heap_settle.
    + intros _. apply (isSettled_same _ (settle pendingInitializeLayout (Fulfilled VUndefined) st));
        [done|].
      apply isSettled_settle. unfold pendingInitializeLayout. lia.
  - by apply (resolvedSettled_same st).
Qed.

Lemma resolvedSettled_queue cb st :
  resolvedSettled st -> resolvedSettled (fst (queue cb st)).
Proof.
  intros Hs. unfold queue.
  destruct (then_ (updateQueue st) (Some cb) (Some cb) st) as [st1 d] eqn:Hthen.
  assert (Hs1 : resolvedSettled st1).
  { replace st1 with (fst (then_ (updateQueue st) (Some cb) (Some cb) st))
      by (by rewrite Hthen).
    by apply resolvedSettled_then. }
  simpl. apply resolvedSettled_log; [done|].
  by apply (resolvedSettled_same st1).
Qed.

Lemma resolvedSettled_finish d r st :
  resolvedSettled st ->
  resolvedSettled (match r with
                   | Normal v => resolve d v (log (Ran d false) st)
                   | Throw e => settle d (Rejected e) (log (Ran d true) st)
                   end).
Proof.
  intros Hs. destruct r as [v|e].
  - by apply resolvedSettled_resolve, resolvedSettled_log.
  - by apply resolvedSettled_settle, resolvedSettled_log.
Qed.

Lemma resolvedSettled_runJob j st :
  resolvedSettled st -> resolvedSettled (runJob j st).
Proof.
  intros Hs. unfold runJob.
  destruct (job_callback j) as [cb|], (job_derived j) as [d|].
  - rewrite runJob_unfold. apply resolvedSettled_finish.
    apply (effect_resolvedSettled _ _ _ (effect_runCallback cb _ _)).
    by apply resolvedSettled_log.
  - by apply (effect_resolvedSettled _ _ _ (effect_runCallback cb _ _)).
  - by apply resolvedSettled_settle.
  - done.
Qed.

Lemma resolvedSettled_handle e st :
  resolvedSettled st -> resolvedSettled (handle e st).
Proof.
  intros Hs. pose proof (effect_handle e st) as He.
  destruct e; simpl in *;
    try (by apply (effect_resolvedSettled _ _ _ He)).
  - unfold onDidChange. by apply resolvedSettled_queue, resolvedSettled_settle.
  - by apply resolvedSettled_queue.
Qed.

Lemma reachable_resolvedSettled st : reachable st -> resolvedSettled st.
Proof.
  induction 1 as [|st st' Hr IH Hstep].
  - split; [simpl; lia|]. simpl. intros Hin. by apply elem_of_nil in Hin.
  - destruct Hstep as [j rest st Hm|e st Hm].
    + apply resolvedSettled_runJob. by apply (resolvedSettled_same st).
    + by apply resolvedSettled_handle.
Qed.

(** Once the initial layout is resolved and no microtask is left, every
    update that was enqueued has run to its end. *)
Lemma layout_releases st :
  reachable st ->
  LayoutResolved ∈ trace st ->
  microtasks st = [] ->
  forall d, d ∈ queued (trace st) -> exists threw, Ran d threw ∈ trace st.
Proof.
  intros Hr Hres Hm.
  pose proof (reachable_queueInv st Hr) as Hinv.
  destruct (reachable_resolvedSettled st Hr) as [_ Hset]. specialize (Hset Hres).
  assert (Hfirst : forall d, queued (trace st) !! 0 = Some d ->
            exists threw, Ran d threw ∈ trace st).
  { intros d Hd. destruct Hinv.
    pose proof Hd as Hd'. apply queued_lookup in Hd' as [on Hon].
    destruct q_linked0 as [Hchained _].
    pose proof (chained_lookup _ _ _ _ _ Hchained Hon) as Heq. simpl in Heq. subst on.
    assert (Hin : (pendingInitializeLayout, d) ∈ chain (trace st))
      by (by eapply list_elem_of_lookup_2).
    assert (Hqd : d ∈ queued (trace st)) by (by eapply list_elem_of_lookup_2).
    destruct (settled_scheduled st _ d Hr Hin Hset) as [Hrun|(j & Hj & _)].
    - apply q_settled0; [done|]. by apply q_run0.
    - rewrite Hm in Hj. by apply elem_of_nil in Hj. }
  intros d Hd. apply list_elem_of_lookup in Hd as [j Hj].
  destruct j as [|j]; [by apply Hfirst|].
  destruct (lookup_lt_is_Some_2 (queued (trace st)) 0) as [d0 Hd0].
  { apply lookup_lt_Some in Hj. lia. }
  destruct (Hfirst d0 Hd0) as [threw Hran].
  apply (run_all st Hr Hm (S j) 0 d0 d threw); [lia|done|done|done].
Qed.

End LayoutReleases.

Section LayoutFirst.
Context `{Environment}.

(** C2: the update queue has the promise of the initial layout as its head
    from construction, still pending, and every function given to [queue]
    is chained behind it. In every reachable state, whatever the order of
    the snapshots and of the call of [onDidInitializeLayout], a queued
    update begins only after the initial layout has been resolved (line
    168), and no call of the loop of the initial layout (creating or
    placing a task terminal, logging a failure) happens after it has begun:
    the two are never interleaved. The layout is resolved at most once and
    no call of its loop follows the resolution. The updates are only
    deferred: once the layout is resolved and no microtask is left, every
    update that was enqueued has run to its end. *)
Theorem layout_before_updates st :
  reachable st ->
  (updateQueue initial = pendingInitializeLayout /\
   ~ isSettled pendingInitializeLayout initial) /\
  chained pendingInitializeLayout (chain (trace st)) /\
  (forall d pre post,
     d ∈ queued (trace st) -> trace st = pre ++ Run d :: post ->
     LayoutResolved ∈ pre /\ Forall (fun e => isLayoutEvent e = false) post) /\
  (forall pre post,
     trace st = pre ++ LayoutResolved :: post -> Forall afterLayout post) /\
  (LayoutResolved ∈ trace st -> microtasks st = [] ->
   forall d, d ∈ queued (trace st) -> exists threw, Ran d threw ∈ trace st).
Proof.
  intros Hr.
  pose proof (reachable_queueInv st Hr) as Hq.
  pose proof (reachable_layoutInv st Hr) as Hl.
  split; [|split; [|split; [|split]]]; [| | | |by apply layout_releases].
  - split; [done|]. intros (pr & o & Hpr & Hs). vm_compute in Hpr. by simplify_eq.
  - by destruct Hq as [? ? ? ? ? ? ? ? ? ? ? [Hc _] ?].
  - intros d pre post Hd Heq.
    apply list_elem_of_lookup in Hd as [j Hj].
    pose proof (run_after_layout st Hr j d Hj pre post Heq) as Hres.
    split; [done|].
    apply list_elem_of_split in Hres as (p1 & p2 & ->).
    destruct Hl.
    assert (Ha : Forall afterLayout (p2 ++ Run d :: post)).
    { apply (l_after0 p1). rewrite Heq. by rewrite <- app_assoc. }
    apply Forall_app in Ha as [_ Ha]. apply Forall_cons in Ha as [_ Ha].
    eapply Forall_impl; [exact Ha|]. by intros e [He _].
  - by destruct Hl.
Qed.

End LayoutFirst.

Lemma layout_before_updates_witness :
  (updateQueue initial = pendingInitializeLayout /\
   ~ isSettled pendingInitializeLayout initial) /\
  chained pendingInitializeLayout (chain (trace Samples.layoutRun)) /\
  (forall d pre post,
     d ∈ queued (trace Samples.layoutRun) ->
     trace Samples.layoutRun = pre ++ Run d :: post ->
     LayoutResolved ∈ pre /\ Forall (fun e => isLayoutEvent e = false) post) /\
  (forall pre post,
     trace Samples.layoutRun = pre ++ LayoutResolved :: post ->
     Forall afterLayout post) /\
  (LayoutResolved ∈ trace Samples.layoutRun -> microtasks Samples.layoutRun = [] ->
   forall d, d ∈ queued (trace Samples.layoutRun) ->
     exists threw, Ran d threw ∈ trace Samples.layoutRun).
Proof.
  apply (@layout_before_updates Samples.theia Samples.layoutRun).
  apply reachable_run; [apply reachable_initial|vm_compute; reflexivity].
Defined.

(** The queue waits for line 168 only: the terminal of lines 170-175, which
    the layout opens when there is none, is started after an update that
    was enqueued in between has run. *)
Example default_terminal_after_update :
  trace (@run Samples.theia 8
           [EvInitializeLayout; EvDidChange [];
            EvWillCreateWidget "terminal-0" None (-1);
            EvSettle 3 (Fulfilled (VWidget 0))] initial)
  = [Enqueued 1 2; LayoutResolved; Call (NewTerminal noOptions);
     Run 2; Ran 2 false; Call (Start 0 None); Call (Open 0)].
Proof. vm_compute. reflexivity. Qed.

(** ** The table of task terminals stays consistent *)

Section TableFacts.
Context `{Environment}.

Lemma tableConsistent_same st st' :
  widgets st' = widgets st -> taskTerminals st' = taskTerminals st ->
  tableConsistent st -> tableConsistent st'.
Proof. unfold tableConsistent. intros -> ->. done. Qed.

Lemma effect_tableConsistent layout st st' :
  effect layout st st' -> tableConsistent st -> tableConsistent st'.
Proof.
  induction 1; intros Hc; try done.
  - by apply IHeffect2, IHeffect1.
  - by apply H5.
  - eapply tableConsistent_same; [| |exact Hc];
      [apply widgets_then|apply taskTerminals_then].
  - eapply tableConsistent_same; [| |exact Hc];
      [apply widgets_addReaction|apply taskTerminals_addReaction].
  - eapply tableConsistent_same; [| |exact Hc];
      [apply widgets_settle|apply taskTerminals_settle].
  - eapply tableConsistent_same; [| |exact Hc];
      [apply widgets_settle|apply taskTerminals_settle].
  - eapply tableConsistent_same; [| |exact Hc]; simpl;
      [apply widgets_settle|apply taskTerminals_settle].
Qed.

Lemma tableConsistent_queue cb st :
  tableConsistent st -> tableConsistent (fst (queue cb st)).
Proof.
  intros Hc. unfold queue.
  destruct (then_ (updateQueue st) (Some cb) (Some cb) st) as [st1 d] eqn:Hthen.
  assert (Hst1 : st1 = fst (then_ (updateQueue st) (Some cb) (Some cb) st))
    by (by rewrite Hthen).
  eapply tableConsistent_same; [| |exact Hc]; simpl; rewrite Hst1;
    [apply widgets_then|apply taskTerminals_then].
Qed.

Lemma tableConsistent_finish d r st :
  tableConsistent st ->
  tableConsistent (match r with
                   | Normal v => resolve d v (log (Ran d false) st)
                   | Throw e => settle d (Rejected e) (log (Ran d true) st)
                   end).
Proof.
  intros Hc. destruct r as [v|e].
  - eapply tableConsistent_same; [| |exact Hc];
      [by rewrite widgets_resolve|by rewrite taskTerminals_resolve].
  - eapply tableConsistent_same; [| |exact Hc];
      [by rewrite widgets_settle|by rewrite taskTerminals_settle].
Qed.

Lemma tableConsistent_runJob j st :
  tableConsistent st -> tableConsistent (runJob j st).
Proof.
  intros Hc. unfold runJob.
  destruct (job_callback j) as [cb|], (job_derived j) as [d|].
  - rewrite runJob_unfold. apply tableConsistent_finish.
    by apply (effect_tableConsistent _ _ _ (effect_runCallback cb _ _)).
  - by apply (effect_tableConsistent _ _ _ (effect_runCallback cb _ _)).
  - eapply tableConsistent_same; [| |exact Hc];
      [apply widgets_settle|apply taskTerminals_settle].
  - done.
Qed.

Lemma tableConsistent_handle e st :
  tableConsistent st -> tableConsistent (handle e st).
Proof.
  intros Hc. pose proof (effect_handle e st) as He.
  destruct e; simpl in *;
    try (by apply (effect_tableConsistent _ _ _ He)).
  - unfold onDidChange. apply tableConsistent_queue.
    eapply tableConsistent_same; [| |exact Hc];
      [apply widgets_settle|apply taskTerminals_settle].
  - by apply tableConsistent_queue.
Qed.

(** In every state the contribution can reach, the entries of the table
    are live, wrapped widgets under their own ids. *)
Lemma reachable_tableConsistent st : reachable st -> tableConsistent st.
Proof.
  induction 1 as [|st st' Hr IH Hstep].
  - intros k w Hk. simpl in Hk. by rewrite lookup_empty in Hk.
  - destruct Hstep as [j rest st Hm|e st Hm].
    + by apply tableConsistent_runJob.
    + by apply tableConsistent_handle.
Qed.

End TableFacts.

(** * Further properties of the code *)

(** ** The terminal identifiers on any task id *)

Section IdentEdges.
Import Ident.

Lemma split_first sep s :
  exists piece pieces rest,
    split sep s = piece :: pieces /\
    occurrences sep piece = 0 /\
    s = (piece ++ rest)%string /\
    (rest = ""%string \/ exists r, rest = String sep r).
Proof.
  induction s as [|c s IH]; simpl.
  - exists ""%string, [], ""%string. repeat split; by left.
  - destruct (Ascii.eqb_spec c sep) as [->|Hne].
    + exists ""%string, (split sep s), (String sep s). repeat split.
      right. by exists s.
    + destruct IH as (piece & pieces & rest & -> & Hocc & Hs & Hrest).
      exists (String c piece), pieces, rest. simpl.
      destruct (Ascii.eqb_spec c sep) as [|_]; [done|].
      repeat split; [done|by rewrite Hs at 1|done].
Qed.

(** X1: [getTaskId] of a derived identifier is always defined, whatever the
    task id: it is the task id up to its first separator, the whole task
    id when it has none. *)
Theorem getTaskId_first_piece (taskId : string) :
  exists piece rest,
    getTaskId (toTerminalId taskId) = Some piece /\
    occurrences separator piece = 0 /\
    taskId = (piece ++ rest)%string /\
    (rest = ""%string \/ exists r, rest = String separator r).
Proof.
  destruct (split_first separator taskId)
    as (piece & pieces & rest & Hsplit & Hocc & Hs & Hrest).
  exists piece, rest. split; [|done].
  unfold getTaskId. by rewrite split_toTerminalId, Hsplit.
Qed.

(** X2: on a widget id without a separator [getTaskId] is undefined:
    [split(':')] has one element and index 1 is past its end. *)
Theorem getTaskId_undefined (terminalWidgetId : string) :
  occurrences separator terminalWidgetId = 0 ->
  getTaskId terminalWidgetId = None.
Proof.
  intros Hocc. unfold getTaskId. by rewrite split_without_separator.
Qed.

(** X3: [toTerminalId] keeps the tasks apart: two task ids have the same
    derived identifier only if they are equal, and a derived identifier
    always holds the separator. *)
Theorem toTerminalId_distinct (a b : string) :
  (toTerminalId a = toTerminalId b <-> a = b) /\
  0 < occurrences separator (toTerminalId a).
Proof.
  split; [split|].
  - unfold toTerminalId. intros Heq. by simplify_eq/=.
  - by intros ->.
  - rewrite occurrences_toTerminalId. lia.
Qed.

End IdentEdges.

Lemma getTaskId_undefined_witness :
  Ident.occurrences Ident.separator "terminal-0" = 0 /\
  Ident.getTaskId "terminal-0" = None.
Proof. split; [reflexivity|apply getTaskId_undefined; reflexivity]. Defined.

(** ** What applying a task does, case by case *)

Section GuardEdges.
Context `{Environment}.

(** [applyTask] on a wrapped widget, by the cases of lines 105-121. *)
Lemma applyTask_cases w wd g t st :
  widgets st !! w = Some wd ->
  guard wd = Some g ->
  let g0 := setTask t g in
  let st0 := setGuard w g0 st in
  applyTask w t st =
  if bool_decide (task_state t = CLOSED)
  then (signalDispose w (log (Call (Dispose w)) st0), Normal tt)
  else if negb (actionable t) || starting g || attachingToTask g
  then (st0, Normal tt)
  else if negb (validateId (terminalId wd))
  then (startIssued w g0 None st0, Normal tt)
  else (attachIssued w g0 (terminalId wd) (default "" (task_terminal t)) st0,
        Normal tt).
Proof.
  intros Hw Hg g0 st0.
  assert (Hw0 : widgets st0 !! w = Some (withGuard (Some g0) wd))
    by (by apply widgets_setGuard).
  unfold applyTask, getGuard. rewrite Hw. simpl. rewrite Hg.
  fold g0. fold st0. unfold update. rewrite Hw0. cbn [guard withGuard].
  simpl taskStateIs. unfold dispose.
  destruct (bool_decide (task_state t = CLOSED)); [done|].
  unfold actionable. rewrite negb_andb. simpl.
  destruct (_ || _ || _ || _) eqn:Hidle; [done|].
  apply orb_false_elim in Hidle as [Hidle Ha].
  apply orb_false_elim in Hidle as [_ Hs].
  destruct (validateId (terminalId wd)); simpl; unfold bind.
  - by rewrite (attachToTask_issues w (withGuard (Some g0) wd) g0).
  - by rewrite (start_issues w (withGuard (Some g0) wd) g0).
Qed.

(** X4: a task that is neither CLOSED nor RUNNING, or that is RUNNING
    without a remote terminal or with the empty string as remote terminal,
    is only stored: nothing is called, whatever the flags and the terminal
    id of the surface. *)
Theorem applyTask_not_actionable st w wd g t :
  widgets st !! w = Some wd ->
  guard wd = Some g ->
  task_state t <> CLOSED ->
  task_state t <> RUNNING \/ task_terminal t = None \/ task_terminal t = Some ""%string ->
  applyTask w t st = (setGuard w (setTask t g) st, Normal tt) /\
  trace (setGuard w (setTask t g) st) = trace st /\
  heap (setGuard w (setTask t g) st) = heap st /\
  taskTerminals (setGuard w (setTask t g) st) = taskTerminals st.
Proof.
  intros Hw Hg Hopen Hidle. split; [|done].
  rewrite (applyTask_cases w wd g t st Hw Hg). cbn zeta.
  rewrite bool_decide_eq_false_2 by done.
  assert (actionable t = false) as ->; [|done].
  unfold actionable.
  destruct Hidle as [Hs|[Ht|Ht]].
  - by rewrite bool_decide_eq_false_2.
  - rewrite Ht. apply andb_false_r.
  - rewrite Ht. apply andb_false_r.
Qed.

(** What one [applyTask] of a batch calls and does to the flag
    [starting]. *)
Lemma applyTask_step w wd g t st :
  widgets st !! w = Some wd ->
  guard wd = Some g ->
  exists st' es g',
    applyTask w t st = (st', Normal tt) /\
    trace st' = trace st ++ es /\
    (getGuard w st' = Some g' /\ task g' = Some t) /\
    (forall w', w' <> w -> widgets st' !! w' = widgets st !! w') /\
    (((es = [] \/ es = [Call (Dispose w)] \/
       exists tid r, es = [Call (ServerAttach tid r)]) /\
      starting g' = starting g) \/
     (es = [Call (Start w None)] /\ starting g = false /\ starting g' = true)).
Proof.
  intros Hw Hg. rewrite (applyTask_cases w wd g t st Hw Hg). cbn zeta.
  set (g0 := setTask t g). set (st0 := setGuard w g0 st).
  assert (Hw0 : widgets st0 !! w = Some (withGuard (Some g0) wd))
    by (by apply widgets_setGuard).
  assert (Hother0 : forall w', w' <> w -> widgets st0 !! w' = widgets st !! w').
  { intros w' Hne. by apply widgets_setGuard_ne. }
  destruct (bool_decide (task_state t = CLOSED)).
  { eexists _, [Call (Dispose w)], g0. split; [done|].
    unfold signalDispose. cbn [widgets log set_trace].
    change (widgets (log (Call (Dispose w)) st0)) with (widgets st0).
    rewrite Hw0. cbn [isDisposed withGuard guard].
    destruct (isDisposed wd).
    - split; [done|].
      split; [unfold getGuard; cbn [widgets log set_trace]; by rewrite Hw0|].
      split; [done|]. left. split; [by right; left|done].
    - split; [done|]. split.
      + unfold getGuard. simpl. by rewrite !list_lookup_alter_eq, Hw.
      + split; [|left; split; [by right; left|done]].
        intros w' Hne. simpl. by rewrite !list_lookup_alter_ne. }
  destruct (negb (actionable t) || starting g || attachingToTask g) eqn:Hidle.
  { exists st0, [], g0. split; [done|]. split; [by rewrite app_nil_r|].
    split; [unfold getGuard; by rewrite Hw0|]. split; [done|].
    left. split; [by left|done]. }
  apply orb_false_elim in Hidle as [Hidle Ha].
  apply orb_false_elim in Hidle as [_ Hs].
  destruct (negb (validateId (terminalId wd))).
  - eexists _, [Call (Start w None)], (setStarting true g0).
    split; [done|]. split; [done|]. split.
    + unfold getGuard. simpl. by rewrite !list_lookup_alter_eq, Hw.
    + split; [|by right].
      intros w' Hne. simpl. by rewrite !list_lookup_alter_ne.
  - eexists _, [Call (ServerAttach _ _)], (setAttachingToTask true g0).
    split; [done|]. split; [done|]. split.
    + unfold getGuard. simpl. by rewrite !list_lookup_alter_eq, Hw.
    + split.
      * intros w' Hne. simpl. by rewrite !list_lookup_alter_ne.
      * left. split; [|done]. right; right. by eexists _, _.
Qed.

End GuardEdges.

Lemma applyTask_not_actionable_witness :
  @applyTask Samples.theia 0
     {| task_id := "t1"; task_state := RUNNING; task_terminal := Some "";
        task_presentation := None |} Samples.needsStartState
  = (setGuard 0 (setTask {| task_id := "t1"; task_state := RUNNING;
                            task_terminal := Some ""; task_presentation := None |}
                   Samples.needsStartGuard) Samples.needsStartState, Normal tt) /\
  trace (setGuard 0 (setTask {| task_id := "t1"; task_state := RUNNING;
                                task_terminal := Some ""; task_presentation := None |}
                       Samples.needsStartGuard) Samples.needsStartState)
  = trace Samples.needsStartState /\
  heap (setGuard 0 (setTask {| task_id := "t1"; task_state := RUNNING;
                               task_terminal := Some ""; task_presentation := None |}
                      Samples.needsStartGuard) Samples.needsStartState)
  = heap Samples.needsStartState /\
  taskTerminals (setGuard 0 (setTask {| task_id := "t1"; task_state := RUNNING;
                               task_terminal := Some ""; task_presentation := None |}
                      Samples.needsStartGuard) Samples.needsStartState)
  = taskTerminals Samples.needsStartState.
Proof.
  apply (@applyTask_not_actionable Samples.theia Samples.needsStartState 0
           Samples.needsStartWidget Samples.needsStartGuard).
  - vm_compute. reflexivity.
  - reflexivity.
  - discriminate.
  - right; right. reflexivity.
Defined.

(** ** What a batch of updates does *)

Section BatchFacts.
Context `{Environment}.

(** X5: a batch skips the tasks that have no terminal in the table: when
    none of its tasks has one (the empty batch among them) it changes
    nothing, whatever the states of the tasks. *)
Theorem updateTerminals_unbound tasks st :
  (forall t, t ∈ tasks ->
     taskTerminals st !! Ident.toTerminalId (task_id t) = None) ->
  updateTerminals tasks st = st.
Proof.
  induction tasks as [|t rest IH]; intros Hall; [done|].
  rewrite updateTerminals_cons, Hall by (by left).
  apply IH. intros t' Hin. apply Hall. by right.
Qed.

(** One task of a batch, on a consistent table. *)
Lemma updateTerminals_step t st :
  tableConsistent st ->
  exists es,
    let st' := updateTerminals [t] st in
    tableConsistent st' /\
    trace st' = trace st ++ es /\
    (forall w,
       exists g g',
         (getGuard w st = None /\ getGuard w st' = None \/
          getGuard w st = Some g /\ getGuard w st' = Some g') /\
         (((es = [] \/ (exists w', es = [Call (Dispose w')]) \/
            (exists w', w' <> w /\ es = [Call (Start w' None)]) \/
            exists tid r, es = [Call (ServerAttach tid r)]) /\
           starting g' = starting g) \/
          (es = [Call (Start w None)] /\ getGuard w st = Some g /\
           starting g = false /\ starting g' = true))).
Proof.
  intros Hc. rewrite updateTerminals_cons. cbn [updateTerminals].
  destruct (taskTerminals st !! Ident.toTerminalId (task_id t)) as [w1|] eqn:Hk.
  - destruct (Hc _ _ Hk) as (wd & Hw & Hid & Hd & [g1 Hg]).
    destruct (applyTask_bound st _ w1 t Hc Hk) as (st1 & Happly & Hc1 & _).
    destruct (applyTask_step w1 wd g1 t st Hw Hg)
      as (st1' & es & g1' & Happly' & Htr & [Hg1' _] & Hother & Hcases).
    rewrite Happly in Happly'. injection Happly' as <-.
    unfold tryCatch. rewrite Happly.
    exists es. split; [done|]. split; [done|].
    intros w. destruct (decide (w = w1)) as [->|Hne].
    + exists g1, g1'. split.
      { right. split; [|done]. unfold getGuard. by rewrite Hw. }
      destruct Hcases as [[Hes Hs]|(Hes & Hs & Hs')].
      * left. split; [|done].
        destruct Hes as [->|[->|Hes]]; [by left|right; left; by eexists|].
        by right; right; right.
      * right. split; [done|]. split; [|done]. unfold getGuard. by rewrite Hw.
    + assert (Hsame : getGuard w st1 = getGuard w st).
      { unfold getGuard. by rewrite Hother. }
      set (g0 := {| starting := false; attachingToTask := false; task := None |}).
      exists (default g0 (getGuard w st)), (default g0 (getGuard w st)). split.
      { rewrite Hsame. destruct (getGuard w st); [by right|by left]. }
      left. split; [|done].
      destruct Hcases as [[Hes Hs]|(Hes & Hs & Hs')].
      * destruct Hes as [->|[->|Hes]]; [by left|right; left; by eexists|].
        by right; right; right.
      * right; right; left. exists w1. by split.
  - exists []. split; [done|]. split; [by rewrite app_nil_r|].
    intros w.
    set (g0 := {| starting := false; attachingToTask := false; task := None |}).
    exists (default g0 (getGuard w st)), (default g0 (getGuard w st)). split.
    { destruct (getGuard w st); [by right|by left]. }
    left. split; [by left|done].
Qed.

Lemma updateTerminals_split t rest st :
  updateTerminals (t :: rest) st = updateTerminals rest (updateTerminals [t] st).
Proof. done. Qed.

(** X6: on a consistent table a batch calls at most one operation for each
    task it lists, and each is a [dispose], a [start()] or an [attach] of a
    task terminal: it creates no terminal, and the failure log of line 188
    is never written, since [applyTask] does not throw there.  The table is
    consistent afterwards. *)
Theorem updateTerminals_operations tasks st :
  tableConsistent st ->
  exists es,
    trace (updateTerminals tasks st) = trace st ++ es /\
    Forall (fun e => isGuardEvent e = true) es /\
    length es <= length tasks /\
    tableConsistent (updateTerminals tasks st).
Proof.
  revert st. induction tasks as [|t rest IH]; intros st Hc.
  { exists []. by rewrite app_nil_r. }
  rewrite updateTerminals_split.
  destruct (updateTerminals_step t st Hc) as (es1 & Hc1 & Htr1 & Hcases).
  destruct (IH _ Hc1) as (es2 & Htr2 & Hall2 & Hlen2 & Hc2).
  exists (es1 ++ es2). split; [by rewrite Htr2, Htr1, app_assoc|].
  destruct (Hcases 0) as (g & g' & _ & Hes).
  assert (Hone : Forall (fun e => isGuardEvent e = true) es1 /\ length es1 <= 1).
  { destruct Hes as [[[->|[[w' ->]|[(w' & _ & ->)|(tid & r & ->)]]] _]|(-> & _)];
      (split; [by repeat constructor|simpl; lia]). }
  destruct Hone as [Hall1 Hlen1].
  split; [by apply Forall_app|]. split; [|done].
  rewrite length_app. simpl. lia.
Qed.

Lemma starts_app w tr es : starts w (tr ++ es) = starts w tr + starts w es.
Proof. unfold starts. by rewrite filter_app, length_app. Qed.

Lemma starts_other w e : e <> Call (Start w None) -> starts w [e] = 0.
Proof. intros Hne. unfold starts. by rewrite filter_cons_False. Qed.

(** X7: within one batch the guard starts a terminal at most once, however
    often the batch lists its task, and not at all while a start of it is
    in flight. *)
Theorem updateTerminals_starts_once tasks st w :
  tableConsistent st ->
  starts w (trace (updateTerminals tasks st)) <= S (starts w (trace st)) /\
  (starting <$> getGuard w st = Some true ->
   starts w (trace (updateTerminals tasks st)) = starts w (trace st)).
Proof.
  intros Hc.
  set (free := fun s : State =>
         if bool_decide (starting <$> getGuard w s = Some true) then 0 else 1).
  assert (Hgen : forall tasks st, tableConsistent st ->
            exists n, starts w (trace (updateTerminals tasks st))
                      = starts w (trace st) + n /\
                      n + free (updateTerminals tasks st) <= free st).
  { clear. intros tasks. induction tasks as [|t rest IH]; intros st Hc.
    { exists 0. simpl. split; lia. }
    rewrite updateTerminals_split.
    destruct (updateTerminals_step t st Hc) as (es1 & Hc1 & Htr1 & Hcases).
    destruct (IH _ Hc1) as (n2 & Hn2 & Hfree2).
    destruct (Hcases w) as (g & g' & Hguards & Hes).
    assert (Hone : exists n1, starts w es1 = n1 /\
                              n1 + free (updateTerminals [t] st) <= free st).
    { destruct Hes as [[Hes Hs]|(-> & Hg & Hs & Hs')].
      - exists 0. split.
        + destruct Hes as [->|[[w' ->]|[(w' & Hne & ->)|(tid & r & ->)]]];
            [done|by apply starts_other|apply starts_other; congruence|
             by apply starts_other].
        + unfold free. destruct Hguards as [[-> ->]|[-> ->]]; [done|].
          simpl. by rewrite Hs.
      - exists 1. split.
        + unfold starts. by rewrite filter_cons_True.
        + unfold free. destruct Hguards as [[Hn _]|[_ ->]]; [congruence|].
          rewrite Hg. simpl. rewrite Hs, Hs'.
          rewrite bool_decide_eq_true_2 by done.
          rewrite bool_decide_eq_false_2 by done. lia. }
    destruct Hone as (n1 & Hn1 & Hfree1).
    exists (n1 + n2). split; [|lia].
    rewrite Hn2, Htr1, starts_app, Hn1. lia. }
  destruct (Hgen tasks st Hc) as (n & Hn & Hfree). split.
  - assert (free st <= 1) by (unfold free; case_bool_decide; lia).
    rewrite Hn. lia.
  - intros Hbusy.
    assert (free st = 0) by (unfold free; by rewrite bool_decide_eq_true_2).
    rewrite Hn. lia.
Qed.

End BatchFacts.

Lemma updateTerminals_unbound_witness :
  @updateTerminals Samples.theia [Samples.running1; Samples.closed1] initial = initial.
Proof.
  apply (@updateTerminals_unbound Samples.theia).
  intros t _. reflexivity.
Defined.

Lemma updateTerminals_operations_witness :
  exists es,
    trace (@updateTerminals Samples.theia [Samples.running1; Samples.closed1]
             Samples.startingState)
    = trace Samples.startingState ++ es /\
    Forall (fun e => isGuardEvent e = true) es /\
    length es <= length [Samples.running1; Samples.closed1] /\
    tableConsistent (@updateTerminals Samples.theia
                       [Samples.running1; Samples.closed1] Samples.startingState).
Proof.
  apply (@updateTerminals_operations Samples.theia).
  apply startingState_consistent.
Defined.

Lemma updateTerminals_starts_once_witness :
  starts 0 (trace (@updateTerminals Samples.theia
                     [Samples.running1; Samples.running1] Samples.needsStartState))
  <= S (starts 0 (trace Samples.needsStartState)) /\
  (starting <$> getGuard 0 Samples.needsStartState = Some true ->
   starts 0 (trace (@updateTerminals Samples.theia
                      [Samples.running1; Samples.running1] Samples.needsStartState))
   = starts 0 (trace Samples.needsStartState)).
Proof.
  apply (@updateTerminals_starts_once Samples.theia).
  intros k w Hk.
  assert (Ht : taskTerminals Samples.needsStartState
               = {[ "gitpod-task-terminal:t1" := 0 ]}) by (vm_compute; reflexivity).
  rewrite Ht in Hk. apply lookup_singleton_Some in Hk as [<- <-].
  exists Samples.needsStartWidget. repeat split. by eexists.
Defined.

(** ** A CLOSED task and the operations in flight *)

Section ClosedWins.
Context `{Environment}.

Lemma trace_signalDispose w st : trace (signalDispose w st) = trace st.
Proof. unfold signalDispose. by repeat case_match. Qed.

(** A batch does not reach a disposed widget. *)
Lemma disposed_updateTerminals w tasks st :
  tableConsistent st ->
  isDisposed <$> widgets st !! w = Some true ->
  disposals w (trace (updateTerminals tasks st)) = disposals w (trace st) /\
  tableConsistent (updateTerminals tasks st) /\
  isDisposed <$> widgets (updateTerminals tasks st) !! w = Some true.
Proof.
  revert st. induction tasks as [|t rest IH]; intros st Hc Hd; [done|].
  rewrite updateTerminals_cons.
  destruct (taskTerminals st !! Ident.toTerminalId (task_id t)) as [w'|] eqn:Hk';
    [|by apply IH].
  destruct (applyTask_bound st _ w' t Hc Hk') as (st' & Happly & Hc' & Hother & Heff).
  unfold tryCatch. rewrite Happly.
  assert (Hne : w <> w').
  { intros <-. destruct (Hc _ _ Hk') as (wd & Hw & _ & Hlive & _).
    rewrite Hw in Hd. simpl in Hd. congruence. }
  assert (Hd' : isDisposed <$> widgets st' !! w = Some true)
    by (by rewrite (Hother w Hne)).
  assert (Hn : disposals w (trace st') = disposals w (trace st)).
  { destruct (bool_decide (task_state t = CLOSED)).
    - destruct Heff as (_ & -> & _).
      rewrite disposals_app, disposals_other by done. lia.
    - destruct Heff as (_ & _ & es & -> & Hes).
      rewrite disposals_app, (disposals_none w es) by apply Hes. lia. }
  destruct (IH st' Hc' Hd') as (Hn' & Hrest). split; [lia|done].
Qed.

(** C3, as the code has it: for a binding in the table, applying a CLOSED
    task disposes the surface at once, with no condition on [starting] and
    [attachingToTask], and the binding leaves the table.  The batches of any
    further snapshots that report the task as CLOSED dispose the surface
    exactly once, and no later batch, in whatever state, reaches the
    disposed surface.  What runs when an operation in flight completes is
    what runs on a live surface: the open and open-failure listeners and
    the handler of a successful attach return normally, in any state, but
    the listeners evaluate the stored task, find it CLOSED and call
    [dispose()] once more, on the surface that is disposed already, where
    it changes nothing; and the handler of a failed attach clears its flag
    and throws the failure of the attach again. *)
Theorem closed_disposes st id w snapshot snapshots :
  tableConsistent st ->
  taskTerminals st !! Ident.toTerminalId id = Some w ->
  Forall (reportsClosed id) (snapshot :: snapshots) ->
  (forall t, task_state t = CLOSED ->
     exists st' g',
       applyTask w t st = (st', Normal tt) /\
       trace st' = trace st ++ [Call (Dispose w)] /\
       taskTerminals st' !! Ident.toTerminalId id = None /\
       isDisposed <$> widgets st' !! w = Some true /\
       getGuard w st' = Some g' /\ task g' = Some t) /\
  (let st' := applySnapshots (snapshot :: snapshots) st in
   disposals w (trace st') = S (disposals w (trace st)) /\
   taskTerminals st' !! Ident.toTerminalId id = None /\
   isDisposed <$> widgets st' !! w = Some true) /\
  (forall st2 tasks,
     tableConsistent st2 ->
     isDisposed <$> widgets st2 !! w = Some true ->
     disposals w (trace (updateTerminals tasks st2)) = disposals w (trace st2) /\
     tableConsistent (updateTerminals tasks st2) /\
     isDisposed <$> widgets (updateTerminals tasks st2) !! w = Some true) /\
  (forall st2 g2 t2 tid,
     getGuard w st2 = Some g2 ->
     task g2 = Some t2 ->
     task_state t2 = CLOSED ->
     let st3 := handle (EvDidOpen w tid) st2 in
     handle (EvDidOpenFailure w tid) st2 = st3 /\
     snd (onDidOpenListeners w (setTerminalId w tid st2)) = Normal tt /\
     trace st3 = trace st2 ++ [Call (Dispose w)] /\
     (isDisposed <$> widgets st2 !! w = Some true ->
      taskTerminals st3 = taskTerminals st2 /\
      isDisposed <$> widgets st3 !! w = Some true)) /\
  (forall st'',
     (exists st3, onDidOpenListeners w st'' = (st3, Normal tt)) /\
     (forall o, exists st3 v, runCallback (AttachDone w) o st'' = (st3, Normal v)) /\
     (forall e, runCallback (AttachFailed w) (Rejected e) st''
                = (resetAttachingToTask w st'', Throw e))).
Proof.
  intros Hc Hk Hall. split; [|split; [|split; [|split]]].
  - intros t Hclosed.
    destruct (applyTask_bound st _ w t Hc Hk) as (st' & Happly & _ & _ & Heff).
    rewrite bool_decide_eq_true_2 in Heff by done.
    destruct Heff as (Ht & Htr & Hd).
    destruct (Hc _ _ Hk) as (wd & Hw & _ & _ & [g Hg]).
    destruct (applyTask_step w wd g t st Hw Hg)
      as (st1 & es & g' & Happly' & _ & [Hg' Htask] & _).
    rewrite Happly in Happly'. injection Happly' as <-.
    exists st', g'. split; [done|]. split; [done|]. split; [|done].
    rewrite Ht. apply lookup_delete_eq.
  - apply Forall_cons in Hall as [Hfirst Hrest]. simpl.
    assert (Hgone : gone id w (disposals w (trace st))
                      (applySnapshots snapshots (updateTerminals snapshot st))).
    { apply gone_applySnapshots. apply live_updateTerminals; [|done].
      by unfold live. }
    destruct Hgone as (_ & Hk' & Hd & Hn). done.
  - intros st2 tasks Hc2 Hd2. by apply disposed_updateTerminals.
  - intros st2 g2 t2 tid Hg2 Ht2 Hclosed st3. split; [done|]. subst st3.
    unfold getGuard in Hg2.
    destruct (widgets st2 !! w) as [wd|] eqn:Hw; [|done]. simpl in Hg2.
    unfold handle, onDidOpenListeners.
    set (wd0 := withTerminalId tid wd).
    assert (Hw0 : widgets (setTerminalId w tid st2) !! w = Some wd0).
    { simpl. by rewrite list_lookup_alter_eq, Hw. }
    rewrite (resetStarting_at w wd0 g2) by done.
    set (g0 := setStarting false g2).
    set (st0 := setGuard w g0 (setTerminalId w tid st2)).
    assert (Hw0' : widgets st0 !! w = Some (withGuard (Some g0) wd0)).
    { subst st0. by apply widgets_setGuard. }
    unfold update. rewrite Hw0'. cbn [guard withGuard]. simpl task. rewrite Ht2.
    rewrite (taskStateIs_Some t2 CLOSED) by done.
    rewrite bool_decide_eq_true_2 by done. unfold dispose. cbn [fst snd].
    split; [done|]. split; [by rewrite trace_signalDispose|].
    intros Hdisposed. simpl in Hdisposed.
    unfold signalDispose.
    change (widgets (log (Call (Dispose w)) st0)) with (widgets st0).
    rewrite Hw0'. cbn [isDisposed withGuard wd0 withTerminalId].
    injection Hdisposed as Hd. rewrite Hd.
    split; [done|]. change (widgets (log (Call (Dispose w)) st0)) with (widgets st0).
    rewrite Hw0'. simpl. by rewrite Hd.
  - intros st''. split; [|split].
    + unfold onDidOpenListeners. apply update_returns.
    + intros o. by eexists _, _.
    + done.
Qed.

End ClosedWins.

(** In [startingState] the start of the terminal is in flight; two
    snapshots that report [t1] as CLOSED dispose it once. *)
Lemma closed_disposes_witness :
  starting <$> getGuard 0 Samples.startingState = Some true /\
  let st' := @applySnapshots Samples.theia [[Samples.closed1]; [Samples.closed1]]
               Samples.startingState in
  disposals 0 (trace st') = S (disposals 0 (trace Samples.startingState)) /\
  taskTerminals st' !! Ident.toTerminalId "t1" = None /\
  isDisposed <$> widgets st' !! 0 = Some true.
Proof.
  split; [vm_compute; reflexivity|].
  apply (@closed_disposes Samples.theia Samples.startingState "t1" 0
           [Samples.closed1] [[Samples.closed1]]).
  - apply startingState_consistent.
  - vm_compute. reflexivity.
  - repeat constructor; apply reportsClosed_closed1.
Defined.

(** The claim C3 as it is written fails on the completions.  In
    [attachingState] the attach of the terminal is in flight; the task is
    then reported CLOSED and the terminal disposed; when the attach fails,
    its handler throws the failure again and the promise of [attachToTask],
    promise [6], is rejected.  In [startingState] the start is in flight;
    after the CLOSED snapshot the open signal of the surface calls
    [dispose()] a second time. *)
Lemma closed_then_completions :
  attachingToTask <$> getGuard 0 Samples.attachingState = Some true /\
  (let st := @run Samples.theia 8 [EvDidChange [Samples.closed1]]
               Samples.attachingState in
   calls (trace st) = [Start 0 None; ServerAttach 5 "r1"; Dispose 0] /\
   snd (@runCallback Samples.theia (AttachFailed 0) (Rejected "gone") st)
   = Throw "gone") /\
  settled <$> heap (@run Samples.theia 8
                      [EvDidChange [Samples.closed1]; EvSettle 4 (Rejected "gone")]
                      Samples.attachingState) !! 6
  = Some (Some (Rejected "gone")) /\
  starting <$> getGuard 0 Samples.startingState = Some true /\
  calls (trace (@run Samples.theia 8 [EvDidChange [Samples.closed1]; EvDidOpen 0 5]
                  Samples.startingState))
  = [Start 0 None; Dispose 0; Dispose 0].
Proof. repeat split; vm_compute; reflexivity. Qed.

(** ** Registering and disposing task terminals *)

Section TableEdges.
Context `{Environment}.

Lemma created_lookup id kind tid st :
  widgets (set_widgets (widgets st ++ [{| widget_id := id; gitpodKind := kind;
                                          terminalId := tid; isDisposed := false;
                                          guard := None |}]) st)
    !! length (widgets st)
  = Some {| widget_id := id; gitpodKind := kind; terminalId := tid;
            isDisposed := false; guard := None |}.
Proof. simpl. by rewrite list_lookup_middle. Qed.

(** X8: the handler of [onWillCreateWidget] enters a task terminal in the
    table under its id, with both flags clear and no task, calls nothing and
    leaves the other entries alone; the disposal of the widget removes the
    entry again.  A widget of any other kind is neither entered nor
    wrapped. *)
Theorem widget_registration st id tid :
  let w := length (widgets st) in
  let st1 := handle (EvWillCreateWidget id (Some "gitpod-task"%string) tid) st in
  taskTerminals st1 !! id = Some w /\
  (forall k, k <> id -> taskTerminals st1 !! k = taskTerminals st !! k) /\
  getGuard w st1
    = Some {| starting := false; attachingToTask := false; task := None |} /\
  trace st1 = trace st /\
  taskTerminals (handle (EvDispose w) st1) !! id = None /\
  (forall kind, kind <> Some "gitpod-task"%string ->
     let st2 := handle (EvWillCreateWidget id kind tid) st in
     taskTerminals st2 = taskTerminals st /\ getGuard w st2 = None).
Proof.
  intros w st1. subst st1. unfold handle, onWillCreateWidget.
  rewrite created_lookup. unfold is_. cbn [gitpodKind widget_id].
  rewrite bool_decide_eq_true_2 by done.
  split; [simpl; apply lookup_insert_eq|].
  split; [intros k Hne; simpl; by apply lookup_insert_ne|].
  split; [unfold getGuard; simpl; by rewrite list_lookup_alter_eq, list_lookup_middle|].
  split; [done|]. split.
  - unfold signalDispose. simpl.
    rewrite list_lookup_alter_eq, list_lookup_middle by done. simpl.
    apply lookup_delete_eq.
  - intros kind Hkind. cbn zeta. rewrite created_lookup.
    cbn [gitpodKind]. rewrite bool_decide_eq_false_2 by done.
    split; [done|]. unfold getGuard. simpl. by rewrite list_lookup_middle.
Qed.

Lemma widget_table_entry st id tid :
  exists wd,
    widgets (handle (EvWillCreateWidget id (Some "gitpod-task"%string) tid) st)
      !! length (widgets st) = Some wd /\
    (widget_id wd = id /\ isDisposed wd = false) /\
    is_Some (guard wd).
Proof.
  unfold handle, onWillCreateWidget. rewrite created_lookup.
  unfold is_. cbn [gitpodKind widget_id]. rewrite bool_decide_eq_true_2 by done.
  eexists. split.
  - simpl. by rewrite list_lookup_alter_eq, list_lookup_middle.
  - simpl. split; [done|]. by eexists.
Qed.

(** X9: the table is keyed by the widget id and the listener of
    [onDidDispose] deletes by id: when a second task terminal with the same
    id is created it takes over the entry, and the disposal of the first
    one then removes that entry, although the second terminal is live and
    wrapped. *)
Theorem same_id_disposal st id tid1 tid2 :
  let w1 := length (widgets st) in
  let w2 := S (length (widgets st)) in
  let st1 := handle (EvWillCreateWidget id (Some "gitpod-task"%string) tid1) st in
  let st2 := handle (EvWillCreateWidget id (Some "gitpod-task"%string) tid2) st1 in
  let st3 := handle (EvDispose w1) st2 in
  taskTerminals st2 !! id = Some w2 /\
  taskTerminals st3 !! id = None /\
  isDisposed <$> widgets st3 !! w2 = Some false /\
  is_Some (getGuard w2 st3).
Proof.
  intros w1 w2 st1 st2 st3.
  assert (Hlen1 : length (widgets st1) = w2).
  { subst st1. unfold handle, onWillCreateWidget. rewrite created_lookup.
    unfold is_. cbn [gitpodKind]. rewrite bool_decide_eq_true_2 by done.
    simpl. rewrite length_alter, length_app. simpl. unfold w2. lia. }
  destruct (widget_table_entry st id tid1) as (wd1 & Hw1 & Hd1 & Hg1).
  fold st1 in Hw1. fold w1 in Hw1.
  assert (Hst2 : st2 =
    setGuard w2 {| starting := false; attachingToTask := false; task := None |}
      (set_taskTerminals (<[id := w2]> (taskTerminals st1))
         (set_widgets (widgets st1 ++ [{| widget_id := id;
                                          gitpodKind := Some "gitpod-task"%string;
                                          terminalId := tid2; isDisposed := false;
                                          guard := None |}]) st1))).
  { subst st2. unfold handle, onWillCreateWidget. rewrite created_lookup.
    unfold is_. cbn [gitpodKind widget_id]. rewrite bool_decide_eq_true_2 by done.
    by rewrite Hlen1. }
  assert (Hw1' : widgets st2 !! w1 = Some wd1).
  { rewrite Hst2. simpl. rewrite list_lookup_alter_ne by (unfold w1, w2; lia).
    by apply lookup_app_l_Some. }
  assert (Hw2 : widgets st2 !! w2
                = Some {| widget_id := id; gitpodKind := Some "gitpod-task"%string;
                          terminalId := tid2; isDisposed := false;
                          guard := Some {| starting := false;
                                           attachingToTask := false;
                                           task := None |} |}).
  { rewrite Hst2. simpl. rewrite list_lookup_alter_eq.
    by rewrite <- Hlen1, list_lookup_middle. }
  split; [rewrite Hst2; simpl; apply lookup_insert_eq|].
  destruct Hd1 as [Hid1 Hd1]. destruct Hg1 as [g1 Hg1].
  assert (Hst3 : st3 = set_taskTerminals (delete id (taskTerminals st2))
                         (set_widgets (alter withDisposed w1 (widgets st2)) st2)).
  { subst st3. unfold handle.
    rewrite (signalDispose_live w1 wd1) by (done || by eexists). by rewrite Hid1. }
  rewrite Hst3. simpl.
  split; [apply lookup_delete_eq|].
  rewrite list_lookup_alter_ne by (unfold w1, w2; lia).
  unfold getGuard. simpl.
  rewrite list_lookup_alter_ne by (unfold w1, w2; lia).
  rewrite Hw2. split; [done|]. by eexists.
Qed.

End TableEdges.

Section TableInvariant.
Context `{Environment}.

(** X10: in every state the contribution can reach, each entry of the
    table leads to a widget that is live, wrapped by the handler and
    stored under its own id; so no two keys lead to the same widget. *)
Theorem table_invariant st :
  reachable st ->
  (forall k w, taskTerminals st !! k = Some w ->
     exists wd, widgets st !! w = Some wd /\ widget_id wd = k /\
                isDisposed wd = false /\ is_Some (guard wd)) /\
  (forall k k' w, taskTerminals st !! k = Some w ->
     taskTerminals st !! k' = Some w -> k = k').
Proof.
  intros Hr. pose proof (reachable_tableConsistent st Hr) as Hc.
  split; [exact Hc|].
  intros k k' w Hk Hk'.
  destruct (Hc k w Hk) as (wd & Hw & Hid & _).
  destruct (Hc k' w Hk') as (wd' & Hw' & Hid' & _).
  congruence.
Qed.

End TableInvariant.

Lemma table_invariant_witness :
  (forall k w, taskTerminals Samples.startingState !! k = Some w ->
     exists wd, widgets Samples.startingState !! w = Some wd /\ widget_id wd = k /\
                isDisposed wd = false /\ is_Some (guard wd)) /\
  (forall k k' w, taskTerminals Samples.startingState !! k = Some w ->
     taskTerminals Samples.startingState !! k' = Some w -> k = k').
Proof.
  apply (@table_invariant Samples.theia Samples.startingState).
  apply reachable_run; [apply reachable_initial|vm_compute; reflexivity].
Defined.

(** ** The terminal closes *)

Section CloseFacts.
Context `{Environment}.

(** X11: when the terminal of a task terminal closes, the listener asks
    the supervisor to close the remote terminal of the task that was
    applied last, and only if that task has a remote terminal (not the
    empty string) and is not CLOSED; [applyTask] itself never throws on a
    wrapped widget. *)
Theorem close_after_applyTask st w wd g t :
  widgets st !! w = Some wd ->
  guard wd = Some g ->
  exists st',
    applyTask w t st = (st', Normal tt) /\
    onTerminalDidCloseListener w st' =
    if truthy (task_terminal t) && negb (bool_decide (task_state t = CLOSED))
    then log (Call (FetchClose (default ""%string (task_terminal t)))) st'
    else st'.
Proof.
  intros Hw Hg.
  destruct (applyTask_step w wd g t st Hw Hg)
    as (st' & es & g' & Happly & _ & [Hg' Ht] & _).
  exists st'. split; [done|].
  unfold onTerminalDidCloseListener. rewrite Hg'. simpl. by rewrite Ht.
Qed.

End CloseFacts.

Lemma close_after_applyTask_witness :
  exists st',
    @applyTask Samples.theia 0 Samples.running1 Samples.needsStartState
    = (st', Normal tt) /\
    onTerminalDidCloseListener 0 st' =
    if truthy (task_terminal Samples.running1)
       && negb (bool_decide (task_state Samples.running1 = CLOSED))
    then log (Call (FetchClose (default ""%string (task_terminal Samples.running1)))) st'
    else st'.
Proof.
  apply (@close_after_applyTask Samples.theia Samples.needsStartState 0
           Samples.needsStartWidget Samples.needsStartGuard).
  - vm_compute. reflexivity.
  - reflexivity.
Defined.

(** ** The first snapshot *)

Section SnapshotFacts.
Context `{Environment}.

Lemma settled_addReaction p r q st :
  settled <$> heap (addReaction p r st) !! q = settled <$> heap st !! q.
Proof.
  unfold addReaction.
  destruct (heap st !! p) as [pr|] eqn:Hp; [|done].
  destruct (settled pr) eqn:Hs; [done|]. simpl.
  destruct (decide (q = p)) as [->|Hne].
  - rewrite list_lookup_insert_eq by (by eapply lookup_lt_Some).
    rewrite Hp. simpl. by rewrite Hs.
  - by rewrite list_lookup_insert_ne.
Qed.

Lemma settled_settle p o pr st :
  heap st !! p = Some pr ->
  settled <$> heap (settle p o st) !! p = Some (Some (default o (settled pr))).
Proof.
  intros Hp. unfold settle. rewrite Hp.
  destruct (settled pr) eqn:Hs; simpl.
  - rewrite Hp. simpl. by rewrite Hs.
  - by rewrite list_lookup_insert_eq by (by eapply lookup_lt_Some).
Qed.

(** X12: [pendingInitialTasks] keeps the tasks of the first snapshot: a
    snapshot fulfils it when it is pending and leaves it as it is when it
    is settled, so the initial layout works on the first snapshot only. *)
Theorem first_snapshot_kept st pr updated :
  heap st !! pendingInitialTasks = Some pr ->
  settled <$> heap (handle (EvDidChange updated) st) !! pendingInitialTasks
  = Some (Some (default (Fulfilled (VTasks updated)) (settled pr))).
Proof.
  intros Hp. unfold handle, onDidChange, queue, then_.
  set (st1 := settle pendingInitialTasks (Fulfilled (VTasks updated)) st).
  assert (H1 : settled <$> heap st1 !! pendingInitialTasks
               = Some (Some (default (Fulfilled (VTasks updated)) (settled pr))))
    by (by apply settled_settle).
  simpl. rewrite settled_addReaction. simpl.
  destruct (heap st1 !! pendingInitialTasks) as [pr1|] eqn:Hp1; [|done].
  by rewrite (lookup_app_l_Some _ _ _ _ Hp1).
Qed.

(** X13: a snapshot is never applied in the call of [onDidChange], not
    even when the queue is idle: the call chains the batch on the queue,
    whose new end is a fresh promise, and touches no terminal, calls
    nothing and leaves the table as it is. *)
Theorem onDidChange_defers st updated :
  let st' := handle (EvDidChange updated) st in
  widgets st' = widgets st /\
  taskTerminals st' = taskTerminals st /\
  trace st' = trace st ++ [Enqueued (updateQueue st) (length (heap st))] /\
  updateQueue st' = length (heap st) /\
  length (heap st') = S (length (heap st)).
Proof.
  cbn zeta. unfold handle, onDidChange, queue, then_. simpl.
  rewrite widgets_addReaction, taskTerminals_addReaction, trace_addReaction.
  rewrite length_heap_addReaction. simpl.
  rewrite widgets_settle, taskTerminals_settle, trace_settle, updateQueue_settle.
  rewrite length_app, length_heap_settle. simpl.
  repeat split; lia.
Qed.

End SnapshotFacts.

Lemma first_snapshot_kept_witness :
  settled <$> heap (@handle Samples.theia (EvDidChange [Samples.closed1])
                      Samples.startingState) !! pendingInitialTasks
  = Some (Some (default (Fulfilled (VTasks [Samples.closed1]))
                  (settled {| settled := Some (Fulfilled (VTasks [Samples.running1]));
                              reactions := []; external := false |}))).
Proof.
  apply (@first_snapshot_kept Samples.theia).
  vm_compute. reflexivity.
Defined.

(** ** The open signals of a task terminal *)

Section OpenFacts.
Context `{Environment}.

(** The evaluation of a RUNNING task with a remote terminal, with both
    flags clear: by the terminal id of the surface. *)
Lemma update_actionable w wd g t r st :
  widgets st !! w = Some wd ->
  guard wd = Some g ->
  task g = Some t ->
  task_state t = RUNNING ->
  task_terminal t = Some r ->
  r <> ""%string ->
  starting g = false ->
  attachingToTask g = false ->
  update w st =
  if validateId (terminalId wd)
  then (attachIssued w g (terminalId wd) r st, Normal tt)
  else (startIssued w g None st, Normal tt).
Proof.
  intros Hw Hg Ht Hstate Hterm Hne Hs Ha.
  unfold update. rewrite Hw, Hg, Ht.
  rewrite !(taskStateIs_Some t RUNNING) by done. simpl.
  rewrite Hterm, (truthy_Some _ Hne), Hs, Ha. simpl.
  destruct (validateId (terminalId wd)); simpl; unfold bind.
  - by rewrite (attachToTask_issues w wd g).
  - by rewrite (start_issues w wd g).
Qed.

(** X14: the open signal and the open-failure signal of a task terminal
    do the same.  For a RUNNING task with a remote terminal and no attach
    in flight they clear [starting] and then, if the surface has a valid
    terminal id, attach it to the task with that id; if it has none, they
    call [start()] again at once and set [starting] again. *)
Theorem open_signal_acts st w wd g t r tid :
  widgets st !! w = Some wd ->
  guard wd = Some g ->
  task g = Some t ->
  task_state t = RUNNING ->
  task_terminal t = Some r ->
  r <> ""%string ->
  attachingToTask g = false ->
  let st' := handle (EvDidOpen w tid) st in
  handle (EvDidOpenFailure w tid) st = st' /\
  (validateId tid = true ->
   trace st' = trace st ++ [Call (ServerAttach tid r)] /\
   getGuard w st' = Some (setAttachingToTask true (setStarting false g))) /\
  (validateId tid = false ->
   trace st' = trace st ++ [Call (Start w None)] /\
   getGuard w st' = Some (setStarting true g)).
Proof.
  intros Hw Hg Ht Hstate Hterm Hne Ha st'. split; [done|].
  subst st'. unfold handle, onDidOpenListeners.
  set (wd0 := withTerminalId tid wd).
  assert (Hw0 : widgets (setTerminalId w tid st) !! w = Some wd0).
  { simpl. by rewrite list_lookup_alter_eq, Hw. }
  rewrite (resetStarting_at w wd0 g) by done.
  set (g0 := setStarting false g).
  set (st0 := setGuard w g0 (setTerminalId w tid st)).
  assert (Hw0' : widgets st0 !! w = Some (withGuard (Some g0) wd0)).
  { subst st0. by apply widgets_setGuard. }
  rewrite (update_actionable w (withGuard (Some g0) wd0) g0 t r st0) by done.
  cbn [terminalId withGuard wd0 withTerminalId].
  split; intros Hv; rewrite Hv; simpl.
  - split; [done|]. unfold getGuard. simpl.
    by rewrite !list_lookup_alter_eq, Hw.
  - split; [done|]. unfold getGuard. simpl.
    by rewrite !list_lookup_alter_eq, Hw.
Qed.

End OpenFacts.

Lemma open_signal_acts_witness :
  let st' := @handle Samples.theia (EvDidOpen 0 5) Samples.startingState in
  @handle Samples.theia (EvDidOpenFailure 0 5) Samples.startingState = st' /\
  (@validateId Samples.theia 5 = true ->
   trace st' = trace Samples.startingState ++ [Call (ServerAttach 5 "r1")] /\
   getGuard 0 st'
   = Some (setAttachingToTask true
             (setStarting false
                {| starting := true; attachingToTask := false;
                   task := Some Samples.running1 |}))) /\
  (@validateId Samples.theia 5 = false ->
   trace st' = trace Samples.startingState ++ [Call (Start 0 None)] /\
   getGuard 0 st'
   = Some (setStarting true
             {| starting := true; attachingToTask := false;
                task := Some Samples.running1 |})).
Proof.
  apply (@open_signal_acts Samples.theia Samples.startingState 0
           {| widget_id := "gitpod-task-terminal:t1";
              gitpodKind := Some "gitpod-task"%string;
              terminalId := -1; isDisposed := false;
              guard := Some {| starting := true; attachingToTask := false;
                               task := Some Samples.running1 |} |}
           {| starting := true; attachingToTask := false;
              task := Some Samples.running1 |} Samples.running1 "r1"%string 5).
  - vm_compute. reflexivity.
  - reflexivity.
  - reflexivity.
  - reflexivity.
  - reflexivity.
  - discriminate.
  - reflexivity.
Defined.

(** ** A start in flight and the evaluations that come before it resolves *)

Section StartFacts.
Context `{Environment}.



End StartFacts.


(** ** The wrapped [attachTerminal] on a failure *)

Section AttachTerminalEdges.
Context `{Environment}.

(** X15: when the widget's own [attachTerminal] fails, the wrapper of
    lines 68-73 has no handler for it: its promise is rejected with the same
    error and [createTerminal] is not called. *)
Theorem attachTerminal_rejected st w id e :
  microtasks st = [] ->
  let st1 := fst (attachTerminal w id st) in
  let st2 := drain 1 (handle (EvSettle (length (heap st)) (Rejected e)) st1) in
  heap st2 !! S (length (heap st))
    = Some {| settled := Some (Rejected e); reactions := []; external := false |} /\
  calls (trace st2) = calls (trace st1) /\
  microtasks st2 = [].
Proof.
  intros Hm. cbn zeta. rewrite attachTerminal_issues. cbn [fst].
  unfold handle.
  rewrite (isExternalPending_at (heap st) _ _ (length (heap st))) by done.
  rewrite (settle_at (heap st) _ true _ _ (length (heap st))) by done.
  simpl. rewrite Hm. simpl. unfold runJob. simpl.
  rewrite (settle_at (heap st ++ [{| settled := Some (Rejected e);
                                     reactions := []; external := true |}])
             [] false [] _ (S (length (heap st)))).
  - simpl. split; [|done].
    rewrite <- app_assoc. simpl. apply lookup_second.
  - rewrite length_app. simpl. lia.
  - simpl. by rewrite <- app_assoc.
Qed.

End AttachTerminalEdges.

Lemma attachTerminal_rejected_witness :
  let st1 := fst (attachTerminal 0 7 Samples.startingState) in
  let st2 := @drain Samples.theia 1
               (@handle Samples.theia
                  (EvSettle (length (heap Samples.startingState)) (Rejected "gone"))
                  st1) in
  heap st2 !! S (length (heap Samples.startingState))
    = Some {| settled := Some (Rejected "gone"); reactions := [];
              external := false |} /\
  calls (trace st2) = calls (trace st1) /\
  microtasks st2 = [].
Proof.
  apply (@attachTerminal_rejected Samples.theia Samples.startingState 0 7 "gone"%string).
  vm_compute. reflexivity.
Defined.

(** ** A layout that has nothing to create *)

Section LayoutEdges.
Context `{Environment}.

Lemma passedOver_layoutFailure e st t :
  passedOver (layoutFailure e st) t = passedOver st t.
Proof. done. Qed.


End LayoutEdges.


(** ** The layout waits for the first snapshot *)

Section LayoutStart.
Context `{Environment}.


End LayoutStart.

